(** * Cue planner: scheduling, lane allocation, global timeline, serialization

    A shallow embedding of [models.py], of the lane allocators of
    [room_tab.py] and [summary_tab.py], and of the global timeline loop of
    [SummaryTab._compute_all_stats].

    Modelling conventions.
    - Times and durations (Python floats holding seconds) are exact integers
      [Z].  The program only adds, compares and takes [max] of them;
      rounding, infinities and NaN are outside the model.  The theorems
      therefore speak of comparisons and of the sums the program itself
      forms, in the order it forms them: re-associating a sum is exact in
      [Z] and not in binary64.  Module [Binary64] holds the scheduling and
      timeline loops over binary64 itself, to show where this matters.
    - A Python list indexed or updated by position is a [list] with stdpp's
      lookup and insert; every index the program reads is in range, and the
      lemmas below say so where it matters.
    - A Python [dict] decoded from JSON is a [gmap string value].
    - A loop over mutable locals is a fold over the tuple of those locals. *)

From Stdlib Require Import ZArith Lia.
From Stdlib Require PrimFloat.
From stdpp Require Import base option list sorting strings pretty gmap.

#[local] Open Scope Z_scope.

(** ** Data model ([models.py]) *)

Inductive CueType :=
  | AUDIO | PROJECTION | TV | LIGHTING | INTERACTIVE
  | ACTIVITY | GROUP_MOVEMENT | FACILITATOR_ACTION.

Inductive TriggerType := TIMELINE | SENSOR | MANUAL.

Inductive PlayType := PLAY_ONCE | LOOP | AMBIENT.

Inductive StartMode := AT_TIME | AFTER_PREVIOUS | AFTER_CUE.

Record MediaCue := mkMediaCue {
  name : string;
  cue_type : CueType;
  trigger_type : TriggerType;
  play_type : PlayType;
  start_mode : StartMode;
  start_time_s : Z;
  duration_s : Z;
  dependency_name : option string;
  notes : string
}.

(** The dataclass defaults: [MediaCue(name)]. *)
Definition default_cue (n : string) : MediaCue :=
  mkMediaCue n AUDIO TIMELINE PLAY_ONCE AT_TIME 0 0 None "".

#[global] Instance MediaCue_inhabited : Inhabited MediaCue :=
  populate (default_cue "").

Record RoomPlan := mkRoomPlan {
  room_name : string;
  cues : list MediaCue
}.

Record ShowPlan := mkShowPlan {
  rooms : list RoomPlan
}.

(** Python truthiness of a [str | None] value: [None] and [""] are falsy. *)
Definition truthy_opt_str (o : option string) : bool :=
  match o with
  | Some s => negb (String.eqb s "")
  | None => false
  end.

(** ** Scheduling ([compute_schedule]) *)

(** The inner loop [for dep_index in range(index - 1, -1, -1)]: called with
    [k = index] it visits [k-1, k-2, ..., 0] and stops at the first cue whose
    name equals [dep]. *)
Fixpoint find_dependency (cs : list MediaCue) (dep : string) (k : nat)
  : option nat :=
  match k with
  | O => None
  | S dep_index =>
      if String.eqb (name (cs !!! dep_index)) dep
      then Some dep_index
      else find_dependency cs dep dep_index
  end.

(** One iteration of the outer loop.  The state is
    [(start_times, current_time)]; the body computes [start], updates the
    cursor as its branch does, and appends [start].  The source's last
    [else] (start 0 for any other mode) has no case here: [StartMode] has
    the three members only. *)
Definition schedule_step (cs : list MediaCue) (st : list Z * Z)
    (index : nat) (cue : MediaCue) : list Z * Z :=
  let '(start_times, current_time) := st in
  let '(start, current_time) :=
    match start_mode cue with
    | AT_TIME =>
        let start := Z.max (start_time_s cue) 0 in
        (start, Z.max current_time start)
    | AFTER_PREVIOUS =>
        let start :=
          match index with
          | O => 0
          | S prev =>
              let prev_start := start_times !!! prev in
              let prev_duration := Z.max (duration_s (cs !!! prev)) 0 in
              prev_start + prev_duration
          end in
        (start, start)
    | AFTER_CUE =>
        let start :=
          if truthy_opt_str (dependency_name cue) then
            match find_dependency cs (default "" (dependency_name cue)) index with
            | Some dep_index =>
                let dep_start := start_times !!! dep_index in
                let dep_dur := Z.max (duration_s (cs !!! dep_index)) 0 in
                dep_start + dep_dur
            | None => 0
            end
          else 0 in
        (start, Z.max current_time start)
    end in
  (start_times ++ [start], current_time).

(** [for index, cue in enumerate(cues)], over the cues still to visit. *)
Fixpoint schedule_loop (cs : list MediaCue) (todo : list MediaCue)
    (index : nat) (st : list Z * Z) : list Z * Z :=
  match todo with
  | [] => st
  | cue :: todo' =>
      schedule_loop cs todo' (S index) (schedule_step cs st index cue)
  end.

Definition compute_schedule (cs : list MediaCue) : list Z :=
  fst (schedule_loop cs cs 0%nat ([], 0)).

(** ** The same recursion without the cursor

    This second definition follows the wording of the refinement claim: the
    loop of [compute_schedule] with [current_time] deleted. *)

Definition resolve_start (cs : list MediaCue) (start_times : list Z)
    (index : nat) (cue : MediaCue) : Z :=
  match start_mode cue with
  | AT_TIME => Z.max (start_time_s cue) 0
  | AFTER_PREVIOUS =>
      match index with
      | O => 0
      | S prev => start_times !!! prev + Z.max (duration_s (cs !!! prev)) 0
      end
  | AFTER_CUE =>
      if truthy_opt_str (dependency_name cue) then
        match find_dependency cs (default "" (dependency_name cue)) index with
        | Some dep_index =>
            start_times !!! dep_index + Z.max (duration_s (cs !!! dep_index)) 0
        | None => 0
        end
      else 0
  end.

Fixpoint nocursor_loop (cs : list MediaCue) (todo : list MediaCue)
    (index : nat) (start_times : list Z) : list Z :=
  match todo with
  | [] => start_times
  | cue :: todo' =>
      nocursor_loop cs todo' (S index)
        (start_times ++ [resolve_start cs start_times index cue])
  end.

Definition compute_schedule_nocursor (cs : list MediaCue) : list Z :=
  nocursor_loop cs cs 0%nat [].

(** ** Lane allocation

    [TimelineView._compute_lanes] ([room_tab.py]),
    [GlobalTimelineView._compute_lanes] and the local [compute_lanes] of the
    PDF export ([summary_tab.py]) are the same loop over different
    containers.  The loop is written once, over the accessors [start_of] and
    [end_of] that give item [i]'s interval, and instantiated three times. *)

(** [indices.sort(key=...)]: Python's sort is stable and ascending in the
    key.  It is modelled by a stable insertion sort: among the sorted
    arrangements of the indices only one is stable, so the choice of
    algorithm does not show in the result. *)
Fixpoint sort_insert (key : nat → Z) (i : nat) (sorted : list nat) : list nat :=
  match sorted with
  | [] => [i]
  | j :: sorted' =>
      if key i <=? key j then i :: j :: sorted'
      else j :: sort_insert key i sorted'
  end.

Fixpoint sort_by_key (key : nat → Z) (indices : list nat) : list nat :=
  match indices with
  | [] => []
  | i :: indices' => sort_insert key i (sort_by_key key indices')
  end.

(** The scan [for lane_idx, lane_end in enumerate(lane_end_times)] up to its
    [break]: the first lane with [start >= lane_end], if any. *)
Fixpoint first_free_lane (start : Z) (lane_end_times : list Z) (lane_idx : nat)
  : option nat :=
  match lane_end_times with
  | [] => None
  | lane_end :: rest =>
      if start >=? lane_end then Some lane_idx
      else first_free_lane start rest (S lane_idx)
  end.

(** The body of [for i in indices], on the state
    [(lane_end_times, item_lane)]. *)
Definition place_item (start_of end_of : nat → Z)
    (st : list Z * list nat) (i : nat) : list Z * list nat :=
  let '(lane_end_times, item_lane) := st in
  let start := start_of i in
  let end_ := end_of i in
  match first_free_lane start lane_end_times 0 with
  | Some lane_idx =>
      (<[lane_idx := end_]> lane_end_times, <[i := lane_idx]> item_lane)
  | None =>
      (lane_end_times ++ [end_], <[i := length lane_end_times]> item_lane)
  end.

Definition greedy_lanes (n : nat) (start_of end_of : nat → Z) : list nat :=
  match n with
  | O => []
  | _ =>
      let indices := sort_by_key start_of (seq 0 n) in
      snd (fold_left (place_item start_of end_of) indices ([], replicate n 0%nat))
  end.

(** [compute_lanes(intervals)] of the PDF export. *)
Definition compute_lanes (intervals : list (Z * Z)) : list nat :=
  greedy_lanes (length intervals)
    (λ i, fst (intervals !!! i)) (λ i, snd (intervals !!! i)).

(** [TimelineView._compute_lanes], reading [self._cues] and
    [self._start_times]. *)
Definition TimelineView_compute_lanes (_cues : list MediaCue)
    (_start_times : list Z) : list nat :=
  greedy_lanes (length _cues)
    (λ i, _start_times !!! i)
    (λ i, _start_times !!! i + Z.max (duration_s (_cues !!! i)) 0).

(** [TimelineView.set_cues] stores the cues with their schedule, so the
    lanes drawn for a room are these. *)
Definition room_lanes (cs : list MediaCue) : list nat :=
  TimelineView_compute_lanes cs (compute_schedule cs).

Record GlobalTimelineItem := mkGlobalTimelineItem {
  item_room_name : string;
  cue : MediaCue;
  start_time : Z;
  duration : Z
}.

#[global] Instance GlobalTimelineItem_inhabited : Inhabited GlobalTimelineItem :=
  populate (mkGlobalTimelineItem "" inhabitant 0 0).

(** [GlobalTimelineView._compute_lanes], reading [self._items]. *)
Definition GlobalTimelineView_compute_lanes (_items : list GlobalTimelineItem)
  : list nat :=
  greedy_lanes (length _items)
    (λ i, start_time (_items !!! i))
    (λ i, start_time (_items !!! i) + Z.max (duration (_items !!! i)) 0).

(** [num_lanes = max(lanes) + 1] as the drawing code computes it for a
    non-empty result; no lane is in use when there is no item. *)
Definition num_lanes (lanes : list nat) : nat :=
  match lanes with
  | [] => O
  | _ => S (max_list lanes)
  end.

(** Two intervals overlap: [start_a < end_b and start_b < end_a]. *)
Definition overlap (a b : Z * Z) : Prop :=
  fst a < snd b ∧ fst b < snd a.



(** ** Global timeline ([SummaryTab._compute_all_stats])

    Only the part of the loop that builds [global_items] and
    [global_offset] is modelled; the statistics dictionaries filled along
    the way never feed back into either. *)

(** The body of [for cue, local_start in zip(cues, starts)], on
    [(room_end, global_items)]. *)
Definition room_cue_step (rname : string) (global_offset : Z)
    (st : Z * list GlobalTimelineItem) (p : MediaCue * Z)
  : Z * list GlobalTimelineItem :=
  let '(room_end, global_items) := st in
  let '(c, local_start) := p in
  let duration := Z.max (duration_s c) 0 in
  let end_ := local_start + duration in
  (Z.max room_end end_,
   global_items ++
     [mkGlobalTimelineItem rname c (global_offset + local_start) duration]).

(** The body of [for tab in self._room_tabs], on
    [(global_items, global_offset)].  A tab is seen through its
    [room_name] and [get_cues()]. *)
Definition room_step (st : list GlobalTimelineItem * Z) (tab : RoomPlan)
  : list GlobalTimelineItem * Z :=
  let '(global_items, global_offset) := st in
  match cues tab with
  | [] => st
  | cs =>
      let starts := compute_schedule cs in
      let '(room_end, global_items) :=
        fold_left (room_cue_step (room_name tab) global_offset)
                  (zip cs starts) (0, global_items) in
      (global_items, global_offset + room_end)
  end.

(** Returns [(global_items, total_show_duration)]. *)
Definition compute_all_stats (tabs : list RoomPlan)
  : list GlobalTimelineItem * Z :=
  fold_left room_step tabs ([], 0).

(** ** Stated properties, loop invariants and sample inputs *)

(** The claim's "nearest preceding match": [j] is the largest index below
    [i] whose cue is named [dep]. *)
Definition nearest_match (cs : list MediaCue) (dep : string) (i j : nat) : Prop :=
  (j < i)%nat ∧ (∃ cj, cs !! j = Some cj ∧ name cj = dep) ∧
  ∀ m cm, (j < m < i)%nat → cs !! m = Some cm → name cm ≠ dep.

(** The intervals the allocators work on: [(start, start + max(duration, 0))]
    for each cue of a room, and for each item of the global timeline (the
    PDF export builds the latter list literally). *)
Definition cue_intervals (cs : list MediaCue) (starts : list Z) : list (Z * Z) :=
  zip_with (λ c s, (s, s + Z.max (duration_s c) 0)) cs starts.

Definition item_intervals (items : list GlobalTimelineItem) : list (Z * Z) :=
  (λ it, (start_time it, start_time it + Z.max (duration it) 0)) <$> items.

(** The state of the allocation loop once the items [done] have been placed.
    [inv_top] names, for every lane, the item whose end the lane records;
    [inv_ends] bounds the end of every placed item by any instant that is
    past all starts seen so far and past its lane's recorded end. *)
Record lane_inv (n : nat) (start_of end_of : nat → Z)
    (done : list nat) (st : list Z * list nat) : Prop := mk_lane_inv {
  inv_length : length (snd st) = n;
  inv_bound : ∀ a, a ∈ done →
    ∃ l, snd st !! a = Some l ∧ (l < length (fst st))%nat;
  inv_top : ∀ j, (j < length (fst st))%nat →
    ∃ y, y ∈ done ∧ snd st !! y = Some j ∧ fst st !! j = Some (end_of y);
  inv_ends : ∀ a l le t, a ∈ done →
    snd st !! a = Some l → fst st !! l = Some le →
    (∀ b, b ∈ done → start_of b ≤ t) → le ≤ t → end_of a ≤ t;
  inv_disjoint : ∀ a b l, a ∈ done → b ∈ done → a ≠ b →
    snd st !! a = Some l → snd st !! b = Some l →
    end_of a ≤ start_of b ∨ end_of b ≤ start_of a
}.






(** Sample cues. *)
Definition cue_at (n : string) (t d : Z) : MediaCue :=
  mkMediaCue n AUDIO TIMELINE PLAY_ONCE AT_TIME t d None "".
Definition cue_after_previous (n : string) (d : Z) : MediaCue :=
  mkMediaCue n AUDIO TIMELINE PLAY_ONCE AFTER_PREVIOUS 0 d None "".
Definition cue_after (n dep : string) (d : Z) : MediaCue :=
  mkMediaCue n AUDIO TIMELINE PLAY_ONCE AFTER_CUE 0 d (Some dep) "".


Definition global_items (tabs : list RoomPlan) : list GlobalTimelineItem :=
  fst (compute_all_stats tabs).

(** The maximum of a list of times, [0] for the empty list. *)
Definition max_of (l : list Z) : Z :=
  match l with
  | [] => 0
  | x :: l' => foldr Z.max x l'
  end.

(** The claim's [room_end]: the maximum over the room's cues of
    [local_start + max(duration, 0)], and [0] for a room with no cues. *)
Definition room_end_of (r : RoomPlan) : Z :=
  max_of (snd <$> cue_intervals (cues r) (compute_schedule (cues r))).

(** The sum of [room_end] over a sequence of rooms, accumulated in room
    order from [0] as [global_offset += room_end] does. *)
Definition accumulated_offset (rs : list RoomPlan) : Z :=
  fold_left Z.add (room_end_of <$> rs) 0.

Definition sum_room_end (rs : list RoomPlan) : Z :=
  foldr Z.add 0 (room_end_of <$> rs).

(** Closed forms of the two loops of [_compute_all_stats], proved equal to
    them below: the items one room contributes at a given offset, and the
    items of a sequence of rooms stitched from that offset on. *)
Definition room_items (rname : string) (global_offset : Z)
    (cs : list MediaCue) : list GlobalTimelineItem :=
  zip_with (λ c local_start,
      mkGlobalTimelineItem rname c (global_offset + local_start)
        (Z.max (duration_s c) 0))
    cs (compute_schedule cs).

Fixpoint stitched (global_offset : Z) (tabs : list RoomPlan)
  : list GlobalTimelineItem :=
  match tabs with
  | [] => []
  | r :: tabs' =>
      room_items (room_name r) global_offset (cues r)
      ++ stitched (global_offset + room_end_of r) tabs'
  end.

Definition late_zero_room : RoomPlan :=
  mkRoomPlan "Reception" [cue_at "a" 0 10; cue_after_previous "b" 0].

(** ** Serialization ([to_dict] / [from_dict])

    A cue dictionary maps keys to decoded JSON values.  Lists and nested
    objects never reach a conversion that looks inside them, so a compound
    value is kept only with its truthiness (whether it is non-empty). *)

Inductive value :=
  | VNone
  | VBool (b : bool)
  | VNum (x : Z)
  | VStr (s : string)
  | VCompound (nonempty : bool).

(** Python truthiness, as used by [or]. *)
Definition truthy (v : value) : bool :=
  match v with
  | VNone => false
  | VBool b => b
  | VNum x => negb (x =? 0)
  | VStr s => negb (String.eqb s "")
  | VCompound nonempty => nonempty
  end.

(** [a or b]. *)
Definition py_or (a b : value) : value := if truthy a then a else b.

(** [data.get(key)] and [data.get(key, dflt)]. *)
Definition dict_get (data : gmap string value) (key : string) : value :=
  default VNone (data !! key).
Definition dict_get_or (data : gmap string value) (key : string)
    (dflt : value) : value :=
  default dflt (data !! key).

(** The display strings: [member.value]. *)
Definition CueType_value (t : CueType) : string :=
  match t with
  | AUDIO => "Audio"
  | PROJECTION => "Projection"
  | TV => "TV"
  | LIGHTING => "Lighting"
  | INTERACTIVE => "Interactive"
  | ACTIVITY => "Activity"
  | GROUP_MOVEMENT => "Group Movement"
  | FACILITATOR_ACTION => "Facilitator Action"
  end.

Definition TriggerType_value (t : TriggerType) : string :=
  match t with
  | TIMELINE => "Timeline (auto)"
  | SENSOR => "Sensor"
  | MANUAL => "Manual (operator)"
  end.

Definition PlayType_value (t : PlayType) : string :=
  match t with
  | PLAY_ONCE => "Play once"
  | LOOP => "Loop"
  | AMBIENT => "Ambient"
  end.

Definition StartMode_value (t : StartMode) : string :=
  match t with
  | AT_TIME => "At fixed time (s)"
  | AFTER_PREVIOUS => "After previous cue"
  | AFTER_CUE => "After cue"
  end.

(** [EnumClass(v)]: the member whose value is [v]; [None] stands for the
    [ValueError] raised when there is none.  Only a string can equal a
    member's value. *)
Definition enum_of_value {E} (value_of : E → string) (members : list E)
    (v : value) : option E :=
  match v with
  | VStr s => List.find (λ m, String.eqb (value_of m) s) members
  | _ => None
  end.

Definition CueType_of_value : value → option CueType :=
  enum_of_value CueType_value
    [AUDIO; PROJECTION; TV; LIGHTING; INTERACTIVE; ACTIVITY; GROUP_MOVEMENT;
     FACILITATOR_ACTION].
Definition TriggerType_of_value : value → option TriggerType :=
  enum_of_value TriggerType_value [TIMELINE; SENSOR; MANUAL].
Definition PlayType_of_value : value → option PlayType :=
  enum_of_value PlayType_value [PLAY_ONCE; LOOP; AMBIENT].
Definition StartMode_of_value : value → option StartMode :=
  enum_of_value StartMode_value [AT_TIME; AFTER_PREVIOUS; AFTER_CUE].

(** What a call can do: return a value of the declared type, raise, or
    return an object one of whose [str]-annotated fields holds something
    else (Python does not check annotations; the typed records have no such
    inhabitant). *)
Inductive exn := ValueError | TypeError.

Inductive outcome (A : Type) :=
  | Ok (a : A)
  | Raise (e : exn)
  | IllTyped.
Arguments Ok {A} a.
Arguments Raise {A} e.
Arguments IllTyped {A}.

(** A [str] field and a [str | None] field filled with an arbitrary value. *)
Definition as_str (v : value) : option string :=
  match v with
  | VStr s => Some s
  | _ => None
  end.

Definition as_opt_str (v : value) : option (option string) :=
  match v with
  | VNone => Some None
  | VStr s => Some (Some s)
  | _ => None
  end.

(** A list comprehension [[f(x) for x in l]]: elements are converted in
    order and the first exception ends the evaluation; an ill-typed element
    does not. *)
Fixpoint comprehension {A B} (f : A → outcome B) (l : list A)
  : outcome (list B) :=
  match l with
  | [] => Ok []
  | x :: l' =>
      match f x with
      | Raise e => Raise e
      | Ok y =>
          match comprehension f l' with
          | Ok ys => Ok (y :: ys)
          | Raise e => Raise e
          | IllTyped => IllTyped
          end
      | IllTyped =>
          match comprehension f l' with
          | Raise e => Raise e
          | _ => IllTyped
          end
      end
  end.

(** The document form of a room and of a show: dictionaries with the keys
    ["name"], ["cues"] and ["rooms"], each possibly missing. *)
Record room_doc := mk_room_doc {
  rd_name : option value;
  rd_cues : option (list (gmap string value))
}.

Record show_doc := mk_show_doc {
  sd_rooms : option (list room_doc)
}.

Definition value_of_opt_str (o : option string) : value :=
  match o with
  | Some s => VStr s
  | None => VNone
  end.

(** [MediaCue.to_dict]. *)
Definition to_dict (self : MediaCue) : gmap string value :=
  list_to_map [
    ("name", VStr (name self));
    ("cue_type", VStr (CueType_value (cue_type self)));
    ("trigger_type", VStr (TriggerType_value (trigger_type self)));
    ("play_type", VStr (PlayType_value (play_type self)));
    ("start_mode", VStr (StartMode_value (start_mode self)));
    ("start_time_s", VNum (start_time_s self));
    ("duration_s", VNum (duration_s self));
    ("dependency_name", value_of_opt_str (dependency_name self));
    ("notes", VStr (notes self))
  ].

Definition RoomPlan_to_dict (self : RoomPlan) : room_doc :=
  mk_room_doc (Some (VStr (room_name self))) (Some (to_dict <$> cues self)).

Definition ShowPlan_to_dict (self : ShowPlan) : show_doc :=
  mk_show_doc (Some (RoomPlan_to_dict <$> rooms self)).

Section decode.
(** [float(s)] on a string follows Python's numeric grammar, which is not
    part of this program: it is a parameter, [None] standing for the
    [ValueError] of a string that is no number. *)
Variable float_of_str : string → option Z.

(** [float(v)]. *)
Definition py_float (v : value) : outcome Z :=
  match v with
  | VNum x => Ok x
  | VBool b => Ok (if b then 1 else 0)
  | VStr s =>
      match float_of_str s with
      | Some x => Ok x
      | None => Raise ValueError
      end
  | VNone | VCompound _ => Raise TypeError
  end.

(** The value handed to [CueType(...)]:
    [data.get("cue_type") or data.get("media_type") or CueType.AUDIO.value]. *)
Definition type_value (data : gmap string value) : value :=
  py_or (py_or (dict_get data "cue_type") (dict_get data "media_type"))
        (VStr (CueType_value AUDIO)).

(** [MediaCue.from_dict].  The keyword arguments are evaluated in the order
    written, so the first failing conversion decides the exception; the
    fields passed through unconverted ([name], [dependency_name], [notes])
    cannot raise and are looked at last. *)
Definition from_dict (data : gmap string value) : outcome MediaCue :=
  match CueType_of_value (type_value data) with
  | None => Raise ValueError
  | Some ctype =>
  match TriggerType_of_value
          (dict_get_or data "trigger_type" (VStr (TriggerType_value TIMELINE))) with
  | None => Raise ValueError
  | Some ttype =>
  match PlayType_of_value
          (dict_get_or data "play_type" (VStr (PlayType_value PLAY_ONCE))) with
  | None => Raise ValueError
  | Some ptype =>
  match StartMode_of_value
          (dict_get_or data "start_mode" (VStr (StartMode_value AT_TIME))) with
  | None => Raise ValueError
  | Some smode =>
  match py_float (dict_get_or data "start_time_s" (VNum 0)) with
  | Raise e => Raise e
  | IllTyped => IllTyped
  | Ok st =>
  match py_float (dict_get_or data "duration_s" (VNum 0)) with
  | Raise e => Raise e
  | IllTyped => IllTyped
  | Ok dur =>
  match as_str (dict_get_or data "name" (VStr "")),
        as_opt_str (py_or (dict_get data "dependency_name") VNone),
        as_str (dict_get_or data "notes" (VStr "")) with
  | Some n, Some dep, Some nt => Ok (mkMediaCue n ctype ttype ptype smode st dur dep nt)
  | _, _, _ => IllTyped
  end end end end end end end.

(** [RoomPlan.from_dict]: the cues first, then the constructor call. *)
Definition RoomPlan_from_dict (data : room_doc) : outcome RoomPlan :=
  match comprehension from_dict (default [] (rd_cues data)) with
  | Raise e => Raise e
  | IllTyped => IllTyped
  | Ok cs =>
      match as_str (default (VStr "Room") (rd_name data)) with
      | Some n => Ok (mkRoomPlan n cs)
      | None => IllTyped
      end
  end.

(** [ShowPlan.from_dict]. *)
Definition ShowPlan_from_dict (data : show_doc) : outcome ShowPlan :=
  match comprehension RoomPlan_from_dict (default [] (sd_rooms data)) with
  | Raise e => Raise e
  | IllTyped => IllTyped
  | Ok rs => Ok (mkShowPlan rs)
  end.

(** [MainWindow._open_file] from the decoded JSON on, on the cues the room
    tabs hold (a tab is seen as its [room_name] and its cues).  An
    exception ends in the error dialog with the tabs untouched; otherwise
    all tabs are cleared and the rooms of the plan are stored in the tabs
    of the same name. *)
Inductive open_result :=
  | Opened (tabs : list RoomPlan)
  | ErrorDialog (tabs : list RoomPlan)
  | OpenedIllTyped.

(** [tab_by_name = {tab.room_name: tab for tab in self.room_tabs}], a tab
    being known by its position. *)
Definition tab_by_name (room_tabs : list RoomPlan) : gmap string nat :=
  fold_left (λ m it, <[room_name (snd it) := fst it]> m)
    (zip (seq 0 (length room_tabs)) room_tabs) ∅.

Definition set_cues (cs : list MediaCue) (tab : RoomPlan) : RoomPlan :=
  mkRoomPlan (room_name tab) cs.

Definition populate_tabs (plan : ShowPlan) (room_tabs : list RoomPlan)
  : list RoomPlan :=
  fold_left
    (λ tabs room_plan,
       match tab_by_name room_tabs !! room_name room_plan with
       | Some i => alter (set_cues (cues room_plan)) i tabs
       | None => tabs
       end)
    (rooms plan) (set_cues [] <$> room_tabs).

Definition open_file (data : show_doc) (room_tabs : list RoomPlan)
  : open_result :=
  match ShowPlan_from_dict data with
  | Raise _ => ErrorDialog room_tabs
  | IllTyped => OpenedIllTyped
  | Ok plan => Opened (populate_tabs plan room_tabs)
  end.
End decode.

(** A sample [float_of_str] for the examples: it reads a non-empty string of
    decimal digits. *)
Fixpoint digits_value (s : string) (acc : Z) : option Z :=
  match s with
  | EmptyString => Some acc
  | String c s' =>
      let n := Z.of_nat (Ascii.nat_of_ascii c) in
      if (48 <=? n) && (n <=? 57) then digits_value s' (10 * acc + (n - 48))
      else None
  end.

Definition float_of_digits (s : string) : option Z :=
  match s with
  | EmptyString => None
  | _ => digits_value s 0
  end.

(** The claimed reading of the cue type: key ["cue_type"] if present, else
    key ["media_type"] if present, else [Audio]. *)
Definition claimed_type_value (data : gmap string value) : value :=
  match data !! "cue_type" with
  | Some v => v
  | None =>
      match data !! "media_type" with
      | Some v => v
      | None => VStr (CueType_value AUDIO)
      end
  end.

(** What a round trip does to a cue: an empty dependency name comes back
    absent. *)
Definition normalize_cue (c : MediaCue) : MediaCue :=
  mkMediaCue (name c) (cue_type c) (trigger_type c) (play_type c)
    (start_mode c) (start_time_s c) (duration_s c)
    (if truthy_opt_str (dependency_name c) then dependency_name c else None)
    (notes c).

(** A key that is missing or holds a falsy value. *)
Definition unset (data : gmap string value) (key : string) : Prop :=
  ∀ v, data !! key = Some v → truthy v = false.

(** [from_dict] takes the cue type from [v]: it raises [ValueError] when [v]
    names no member, and any cue it returns has the member [v] names. *)
Definition reads_cue_type_from (float_of_str : string → option Z)
    (data : gmap string value) (v : value) : Prop :=
  match CueType_of_value v with
  | None => from_dict float_of_str data = Raise ValueError
  | Some t => ∀ c, from_dict float_of_str data = Ok c → cue_type c = t
  end.

(** A cue dictionary with an enumeration field that names no member; for
    ["cue_type"] the value is moreover truthy. *)
Definition has_bad_enum (data : gmap string value) : Prop :=
  (∃ v, data !! "cue_type" = Some v ∧ truthy v = true ∧
        CueType_of_value v = None)
  ∨ (∃ v, data !! "trigger_type" = Some v ∧ TriggerType_of_value v = None)
  ∨ (∃ v, data !! "play_type" = Some v ∧ PlayType_of_value v = None)
  ∨ (∃ v, data !! "start_mode" = Some v ∧ StartMode_of_value v = None).

Definition empty_cue_type_doc : show_doc :=
  mk_show_doc (Some [mk_room_doc (Some (VStr "Mecca"))
                       (Some [{[ "cue_type" := VStr "" ]}])]).

(** ** Further functions of the cited files *)

(** Two cues that agree on every field the scheduler reads. *)
Definition same_timing (c c' : MediaCue) : Prop :=
  name c = name c' ∧ start_mode c = start_mode c' ∧
  start_time_s c = start_time_s c' ∧ duration_s c = duration_s c' ∧
  dependency_name c = dependency_name c'.

(** The sum of the clamped durations of a list of cues. *)
Definition clamped_total (cs : list MediaCue) : Z :=
  foldr (λ c acc, Z.max (duration_s c) 0 + acc) 0 cs.

(** [GlobalTimelineView.total_duration], reading [self._items]. *)
Definition total_duration (_items : list GlobalTimelineItem) : Z :=
  match _items with
  | [] => 0
  | _ =>
      fold_left
        (λ max_end item,
           let end_ := start_time item + Z.max (duration item) 0 in
           if end_ >? max_end then end_ else max_end)
        _items 0
  end.

(** An item that differs from [it] at most by starting later. *)
Definition not_earlier (it' it : GlobalTimelineItem) : Prop :=
  item_room_name it' = item_room_name it ∧ cue it' = cue it ∧
  duration it' = duration it ∧ start_time it ≤ start_time it'.

(** The keys [MediaCue.from_dict] reads, each with the value a missing key
    stands for. *)
Definition cue_defaults : list (string * value) :=
  [("name", VStr ""); ("cue_type", VNone); ("media_type", VNone);
   ("trigger_type", VStr "Timeline (auto)"); ("play_type", VStr "Play once");
   ("start_mode", VStr "At fixed time (s)"); ("start_time_s", VNum 0);
   ("duration_s", VNum 0); ("dependency_name", VNone); ("notes", VStr "")].

Definition normalize_room (r : RoomPlan) : RoomPlan :=
  mkRoomPlan (room_name r) (normalize_cue <$> cues r).

(** [MainWindow._new_file], on the tabs' cues. *)
Definition new_file (room_tabs : list RoomPlan) : list RoomPlan :=
  set_cues [] <$> room_tabs.

(** [MainWindow._write_to_path] up to [json.dump]: the document written for
    the tabs. *)
Definition write_to_path (room_tabs : list RoomPlan) : show_doc :=
  ShowPlan_to_dict
    (mkShowPlan ((λ tab, mkRoomPlan (room_name tab) (cues tab)) <$> room_tabs)).

(** The cues of the last room named [n] in a plan, none if no room is. *)
Definition last_cues_for (n : string) (rs : list RoomPlan) : list MediaCue :=
  match last (filter (λ r, room_name r = n) rs) with
  | Some r => cues r
  | None => []
  end.

(** ** Editing a room ([RoomTab])

    The form is seen as the values its widgets return when the button is
    pressed: texts, the member selected in each combo box, the spin box
    values and the data of the current dependency item ([None] for the
    ["None"] entry). *)
Record cue_form := mk_cue_form {
  name_edit : string;
  cue_type_combo : CueType;
  trigger_type_combo : TriggerType;
  play_type_combo : PlayType;
  start_mode_combo : StartMode;
  start_time_spin : Z;
  duration_spin : Z;
  notes_edit : string;
  dependency_combo : option string
}.

Section room_tab.
(** [str.strip()] is Python's; what it returns is left open. *)
Variable strip : string → string.

(** [RoomTab._on_add_cue], on [self._cues]. *)
Definition on_add_cue (form : cue_form) (_cues : list MediaCue)
  : list MediaCue :=
  let name := strip (name_edit form) in
  if String.eqb name "" then _cues
  else
    let start_mode := start_mode_combo form in
    let dependency_name :=
      match start_mode with
      | AFTER_CUE => dependency_combo form
      | _ => None
      end in
    _cues ++ [mkMediaCue name (cue_type_combo form) (trigger_type_combo form)
                (play_type_combo form) start_mode (start_time_spin form)
                (duration_spin form) dependency_name
                (strip (notes_edit form))].
End room_tab.

(** [RoomTab._on_remove_selected], [row] being [self.table.currentRow()]. *)
Definition on_remove_selected (row : Z) (_cues : list MediaCue)
  : list MediaCue :=
  if (row <? 0) || (row >=? Z.of_nat (length _cues)) then _cues
  else delete (Z.to_nat row) _cues.

(** ** Report formatting ([SummaryTab._format_seconds]) *)

(** [f"{x:02d}"]: decimal, padded with a zero to two characters (a sign
    counts as one of them). *)
Definition two_digits (x : Z) : string :=
  if (0 <=? x) && (x <? 10) then "0" +:+ pretty x else pretty x.

(** [_format_seconds], on the whole number of seconds [int(round(seconds))]
    ([//] and [%] are floor division and its remainder, as [/] and [mod]
    are on [Z] for a positive divisor). *)
Definition format_seconds (seconds : Z) : string :=
  let s := seconds in
  let h := s / 3600 in
  let m := (s mod 3600) / 60 in
  let s2 := s mod 60 in
  if h >? 0 then pretty h +:+ ":" +:+ two_digits m +:+ ":" +:+ two_digits s2
  else two_digits m +:+ ":" +:+ two_digits s2.

(** ** Statistics ([SummaryTab._compute_all_stats], in full)

    The loop modelled above for its timeline is modelled here with all its
    accumulators.  Dictionaries keyed by enumeration members are [gmap]s;
    an entry [{"count": n}] is the number [n], an entry
    [{"count": n, "total_duration": d}] the pair [(n, d)]. *)

#[global] Instance CueType_eq_dec : EqDecision CueType.
Proof. solve_decision. Defined.
#[global] Instance TriggerType_eq_dec : EqDecision TriggerType.
Proof. solve_decision. Defined.
#[global] Instance PlayType_eq_dec : EqDecision PlayType.
Proof. solve_decision. Defined.

#[global] Instance CueType_countable : Countable CueType.
Proof.
  refine (inj_countable'
    (λ t, match t with
          | AUDIO => 0 | PROJECTION => 1 | TV => 2 | LIGHTING => 3
          | INTERACTIVE => 4 | ACTIVITY => 5 | GROUP_MOVEMENT => 6
          | FACILITATOR_ACTION => 7
          end%nat)
    (λ n, match n with
          | 0 => AUDIO | 1 => PROJECTION | 2 => TV | 3 => LIGHTING
          | 4 => INTERACTIVE | 5 => ACTIVITY | 6 => GROUP_MOVEMENT
          | _ => FACILITATOR_ACTION
          end%nat) _).
  by intros [].
Defined.

#[global] Instance TriggerType_countable : Countable TriggerType.
Proof.
  refine (inj_countable'
    (λ t, match t with TIMELINE => 0 | SENSOR => 1 | MANUAL => 2 end%nat)
    (λ n, match n with 0 => TIMELINE | 1 => SENSOR | _ => MANUAL end%nat) _).
  by intros [].
Defined.

#[global] Instance PlayType_countable : Countable PlayType.
Proof.
  refine (inj_countable'
    (λ t, match t with PLAY_ONCE => 0 | LOOP => 1 | AMBIENT => 2 end%nat)
    (λ n, match n with 0 => PLAY_ONCE | 1 => LOOP | _ => AMBIENT end%nat) _).
  by intros [].
Defined.

(** [d[k] = d.get(k, 0) + 1], and
    [e = d.setdefault(k, {"count": 0}); e["count"] += 1]. *)
Definition bump `{Countable K} (k : K) (d : gmap K nat) : gmap K nat :=
  <[k := S (default 0%nat (d !! k))]> d.

(** [e = d.setdefault(k, {"count": 0, "total_duration": 0.0});
     e["count"] += 1; e["total_duration"] += duration]. *)
Definition bump_duration `{Countable K} (k : K) (duration : Z)
    (d : gmap K (nat * Z)) : gmap K (nat * Z) :=
  let e := default (0%nat, 0%Z) (d !! k) in
  <[k := (S (fst e), snd e + duration)]> d.

(** [sorted(l, key=...)]: stable, ascending in the key. *)
Fixpoint insert_on {A} (key : A → Z) (x : A) (sorted : list A) : list A :=
  match sorted with
  | [] => [x]
  | y :: sorted' =>
      if key x <=? key y then x :: y :: sorted'
      else y :: insert_on key x sorted'
  end.

Definition sort_on {A} (key : A → Z) (l : list A) : list A :=
  foldr (insert_on key) [] l.

(** One room's entry of [room_stats]. *)
Record room_stats := mk_room_stats {
  rs_num_cues : nat;
  rs_room_duration : Z;
  rs_by_cue_type : gmap CueType (nat * Z);
  rs_by_trigger : gmap TriggerType nat;
  rs_by_play : gmap PlayType nat;
  rs_notes : list (Z * string * string);
  rs_timeline : list (Z * MediaCue)
}.

(** The accumulators of the outer loop; the last six become
    [global_stats]. *)
Record stats_state := mk_stats_state {
  st_global_items : list GlobalTimelineItem;
  st_room_stats : gmap string room_stats;
  st_total_cues : nat;
  st_total_duration : Z;
  st_cue_type_counts : gmap CueType nat;
  st_trigger_counts : gmap TriggerType nat;
  st_play_counts : gmap PlayType nat;
  st_global_offset : Z
}.

(** The accumulators one room adds. *)
Record room_acc := mk_room_acc {
  ra_room_end : Z;
  ra_by_cue_type : gmap CueType (nat * Z);
  ra_by_trigger : gmap TriggerType nat;
  ra_by_play : gmap PlayType nat;
  ra_notes_list : list (Z * string * string);
  ra_timeline_entries : list (Z * MediaCue)
}.

(** The body of [for cue, local_start in zip(cues, starts)], in full. *)
Definition stats_cue_step (rname : string) (acc : room_acc * stats_state)
    (p : MediaCue * Z) : room_acc * stats_state :=
  let '(ra, st) := acc in
  let '(c, local_start) := p in
  let duration := Z.max (duration_s c) 0 in
  let end_ := local_start + duration in
  (mk_room_acc
     (Z.max (ra_room_end ra) end_)
     (bump_duration (cue_type c) duration (ra_by_cue_type ra))
     (bump (trigger_type c) (ra_by_trigger ra))
     (bump (play_type c) (ra_by_play ra))
     (if String.eqb (notes c) "" then ra_notes_list ra
      else ra_notes_list ra ++ [(local_start, name c, notes c)])
     (ra_timeline_entries ra ++ [(local_start, c)]),
   mk_stats_state
     (st_global_items st ++
        [mkGlobalTimelineItem rname c (st_global_offset st + local_start)
           duration])
     (st_room_stats st)
     (S (st_total_cues st))
     (st_total_duration st + duration)
     (bump (cue_type c) (st_cue_type_counts st))
     (bump (trigger_type c) (st_trigger_counts st))
     (bump (play_type c) (st_play_counts st))
     (st_global_offset st)).

Definition set_room_stats (rname : string) (rs : room_stats)
    (global_offset : Z) (st : stats_state) : stats_state :=
  mk_stats_state (st_global_items st) (<[rname := rs]> (st_room_stats st))
    (st_total_cues st) (st_total_duration st) (st_cue_type_counts st)
    (st_trigger_counts st) (st_play_counts st) global_offset.

(** The body of [for tab in self._room_tabs], in full. *)
Definition stats_room_step (st : stats_state) (tab : RoomPlan) : stats_state :=
  match cues tab with
  | [] =>
      set_room_stats (room_name tab) (mk_room_stats 0 0 ∅ ∅ ∅ [] [])
        (st_global_offset st) st
  | cs =>
      let starts := compute_schedule cs in
      let '(ra, st) :=
        fold_left (stats_cue_step (room_name tab)) (zip cs starts)
          (mk_room_acc 0 ∅ ∅ ∅ [] [], st) in
      set_room_stats (room_name tab)
        (mk_room_stats (length cs) (ra_room_end ra) (ra_by_cue_type ra)
           (ra_by_trigger ra) (ra_by_play ra)
           (sort_on (λ x, fst (fst x)) (ra_notes_list ra))
           (sort_on fst (ra_timeline_entries ra)))
        (st_global_offset st + ra_room_end ra) st
  end.

(** [_compute_all_stats]: the final accumulators ([global_items],
    [room_stats], and the fields of [global_stats]). *)
Definition compute_all_stats_full (tabs : list RoomPlan) : stats_state :=
  fold_left stats_room_step tabs (mk_stats_state [] ∅ 0 0 ∅ ∅ ∅ 0).

(** How many cues of a list have [key] equal to [k]. *)
Definition count_of {K} `{EqDecision K} (key : MediaCue → K) (k : K)
    (cs : list MediaCue) : nat :=
  length (filter (λ c, key c = k) cs).

(** A counting dictionary holds exactly the counts of [cs]: a key has an
    entry when some cue counts for it, and the entry is their number. *)
Definition counts_exactly {K} `{Countable K} (key : MediaCue → K)
    (d : gmap K nat) (cs : list MediaCue) : Prop :=
  ∀ k, d !! k = if decide (count_of key k cs = 0%nat) then None
                else Some (count_of key k cs).

(** Closed forms of the accumulators, proved equal to the loop below. *)
Definition tally `{Countable K} (key : MediaCue → K) (cs : list MediaCue)
    (d : gmap K nat) : gmap K nat :=
  fold_left (λ d c, bump (key c) d) cs d.

Definition tally_duration `{Countable K} (key : MediaCue → K)
    (cs : list MediaCue) (d : gmap K (nat * Z)) : gmap K (nat * Z) :=
  fold_left (λ d c, bump_duration (key c) (Z.max (duration_s c) 0) d) cs d.

Definition note_entry (p : MediaCue * Z) : option (Z * string * string) :=
  if String.eqb (notes (fst p)) "" then None
  else Some (snd p, name (fst p), notes (fst p)).

Definition timeline_entry (p : MediaCue * Z) : Z * MediaCue := (snd p, fst p).

(** The note the report prints for a timeline entry. *)
Definition note_of (e : Z * MediaCue) : Z * string * string :=
  (fst e, name (snd e), notes (snd e)).

(** The cues of all rooms, in show order. *)
Definition all_cues (tabs : list RoomPlan) : list MediaCue :=
  mjoin (cues <$> tabs).

(** The last tab of a given name. *)
Definition last_tab_named (n : string) (tabs : list RoomPlan) : option RoomPlan :=
  last (filter (λ r, room_name r = n) tabs).

(** The entry of [room_stats] one tab writes. *)
Definition room_stats_of (tab : RoomPlan) : room_stats :=
  let cs := cues tab in
  let ps := zip cs (compute_schedule cs) in
  mk_room_stats (length cs) (room_end_of tab)
    (tally_duration cue_type cs ∅) (tally trigger_type cs ∅)
    (tally play_type cs ∅)
    (sort_on (λ x, fst (fst x)) (omap note_entry ps))
    (sort_on fst (timeline_entry <$> ps)).

(** ** Word wrapping ([SummaryTab._wrap_text])

    The loop [for w in words] that wraps one long line: [indent] is the
    line's indentation, [width] is [max_len - leading_spaces], and
    [out_lines] the lines written so far. *)
Definition join_words (ws : list string) : string := String.concat " " ws.

Definition wrap_step (indent : string) (width : Z)
    (st : list string * list string * Z) (w : string)
  : list string * list string * Z :=
  let '(out_lines, current, current_len) := st in
  let extra :=
    Z.of_nat (String.length w) + (match current with [] => 0 | _ => 1 end) in
  if current_len + extra >? width
  then (out_lines ++ [indent +:+ join_words current], [w],
        Z.of_nat (String.length w))
  else (out_lines, current ++ [w], current_len + extra).

Definition wrap_words (indent : string) (width : Z) (out_lines : list string)
    (words : list string) : list string :=
  let '(out_lines, current, _) :=
    fold_left (wrap_step indent width) words (out_lines, [], 0) in
  match current with
  | [] => out_lines
  | _ => out_lines ++ [indent +:+ join_words current]
  end.

(** A group of words fits a line of [width] characters, or is at most one
    word (which cannot be split). *)
Definition fits (width : Z) (g : list string) : Prop :=
  Z.of_nat (String.length (join_words g)) ≤ width ∨ (length g ≤ 1)%nat.

(** ** The scheduling and timeline loops over binary64

    [compute_schedule] and the timeline part of
    [SummaryTab._compute_all_stats] once more, over the program's own
    number type (the primitive binary64 floats), with a cue reduced to the
    fields these two loops read.  The bodies are those of [schedule_step],
    [room_cue_step] and [room_step] above with [Z] replaced by [float]. *)
Module Binary64.
Import PrimFloat.
#[local] Set Warnings "-inexact-float".

Record MediaCue := mkMediaCue {
  name : string;
  start_mode : StartMode;
  start_time_s : float;
  duration_s : float;
  dependency_name : option string
}.

Record RoomPlan := mkRoomPlan {
  room_name : string;
  cues : list MediaCue
}.

Record GlobalTimelineItem := mkGlobalTimelineItem {
  item_room_name : string;
  cue : MediaCue;
  start_time : float;
  duration : float
}.

#[global] Instance float_inhabited : Inhabited float := populate 0%float.
#[global] Instance MediaCue_inhabited : Inhabited MediaCue :=
  populate (mkMediaCue "" AT_TIME 0%float 0%float None).

(** Python's [max(a, b)]: the first argument unless the second is greater. *)
Definition py_max (a b : float) : float := if PrimFloat.ltb a b then b else a.

Fixpoint find_dependency (cs : list MediaCue) (dep : string) (k : nat)
  : option nat :=
  match k with
  | O => None
  | S dep_index =>
      if String.eqb (name (cs !!! dep_index)) dep
      then Some dep_index
      else find_dependency cs dep dep_index
  end.

Definition schedule_step (cs : list MediaCue) (st : list float * float)
    (index : nat) (cue : MediaCue) : list float * float :=
  let '(start_times, current_time) := st in
  let '(start, current_time) :=
    match start_mode cue with
    | AT_TIME =>
        let start := py_max (start_time_s cue) 0%float in
        (start, py_max current_time start)
    | AFTER_PREVIOUS =>
        let start :=
          match index with
          | O => 0%float
          | S prev =>
              let prev_start := start_times !!! prev in
              let prev_duration := py_max (duration_s (cs !!! prev)) 0%float in
              PrimFloat.add prev_start prev_duration
          end in
        (start, start)
    | AFTER_CUE =>
        let start :=
          if truthy_opt_str (dependency_name cue) then
            match find_dependency cs (default "" (dependency_name cue)) index with
            | Some dep_index =>
                let dep_start := start_times !!! dep_index in
                let dep_dur := py_max (duration_s (cs !!! dep_index)) 0%float in
                PrimFloat.add dep_start dep_dur
            | None => 0%float
            end
          else 0%float in
        (start, py_max current_time start)
    end in
  (start_times ++ [start], current_time).

Fixpoint schedule_loop (cs : list MediaCue) (todo : list MediaCue)
    (index : nat) (st : list float * float) : list float * float :=
  match todo with
  | [] => st
  | cue :: todo' =>
      schedule_loop cs todo' (S index) (schedule_step cs st index cue)
  end.

Definition compute_schedule (cs : list MediaCue) : list float :=
  fst (schedule_loop cs cs 0%nat ([], 0%float)).

Definition room_cue_step (rname : string) (global_offset : float)
    (st : float * list GlobalTimelineItem) (p : MediaCue * float)
  : float * list GlobalTimelineItem :=
  let '(room_end, global_items) := st in
  let '(c, local_start) := p in
  let duration := py_max (duration_s c) 0%float in
  let end_ := PrimFloat.add local_start duration in
  (py_max room_end end_,
   global_items ++
     [mkGlobalTimelineItem rname c (PrimFloat.add global_offset local_start)
        duration]).

Definition room_step (st : list GlobalTimelineItem * float) (tab : RoomPlan)
  : list GlobalTimelineItem * float :=
  let '(global_items, global_offset) := st in
  match cues tab with
  | [] => st
  | cs =>
      let starts := compute_schedule cs in
      let '(room_end, global_items) :=
        fold_left (room_cue_step (room_name tab) global_offset)
                  (zip cs starts) (0%float, global_items) in
      (global_items, PrimFloat.add global_offset room_end)
  end.

(** Returns [(global_items, total_show_duration)]. *)
Definition compute_all_stats (tabs : list RoomPlan)
  : list GlobalTimelineItem * float :=
  fold_left room_step tabs ([], 0%float).

(** The end of an item as the timeline views draw it:
    [start_time + max(duration, 0)]. *)
Definition item_end (it : GlobalTimelineItem) : float :=
  PrimFloat.add (start_time it) (py_max (duration it) 0%float).

(** Three rooms of one cue each, timed in tenths of a second. *)
Definition cue_at (n : string) (t d : float) : MediaCue :=
  mkMediaCue n AT_TIME t d None.

Definition tenths_show : list RoomPlan :=
  [mkRoomPlan "Reception" [cue_at "a" 0 0.1];
   mkRoomPlan "Aljuhfa Path" [cue_at "b" 0.2 0.3];
   mkRoomPlan "Mecca" [cue_at "c" 0 1]]%float.

End Binary64.

(** * Theorems *)

(** ** Scheduling *)

Section schedule_facts.
Implicit Types (cs todo : list MediaCue) (st : list Z) (dep : string).

Lemma find_dependency_Some cs dep k j :
  find_dependency cs dep k = Some j →
  (j < k)%nat ∧ name (cs !!! j) = dep ∧
  ∀ m, (j < m < k)%nat → name (cs !!! m) ≠ dep.
Proof.
  induction k as [|k IH]; simpl; [done|].
  destruct (String.eqb (name (cs !!! k)) dep) eqn:E.
  - intros [= <-]. apply String.eqb_eq in E. split_and!; [lia|done|lia].
  - intros H. destruct (IH H) as (Hlt & Hn & Hbetween).
    apply String.eqb_neq in E. split_and!; [lia|done|].
    intros m Hm. destruct (decide (m = k)) as [->|]; [done|].
    apply Hbetween. lia.
Qed.

Lemma find_dependency_None cs dep k :
  find_dependency cs dep k = None →
  ∀ m, (m < k)%nat → name (cs !!! m) ≠ dep.
Proof.
  induction k as [|k IH]; simpl; [lia|].
  destruct (String.eqb (name (cs !!! k)) dep) eqn:E; [done|].
  intros H m Hm. apply String.eqb_neq in E.
  destruct (decide (m = k)) as [->|]; [done|]. apply IH; [done|lia].
Qed.

(** The scan always finds the nearest preceding match when there is one. *)
Lemma find_dependency_nearest cs dep k j :
  (j < k)%nat → name (cs !!! j) = dep →
  (∀ m, (j < m < k)%nat → name (cs !!! m) ≠ dep) →
  find_dependency cs dep k = Some j.
Proof.
  intros Hlt Hn Hbetween.
  destruct (find_dependency cs dep k) as [j'|] eqn:E.
  - apply find_dependency_Some in E as (Hlt' & Hn' & Hbetween').
    f_equal. destruct (lt_eq_lt_dec j j') as [[?|?]|?]; [|done|].
    + exfalso. apply (Hbetween j'); [lia|done].
    + exfalso. apply (Hbetween' j); [lia|done].
  - exfalso. eapply find_dependency_None; eauto.
Qed.

Lemma find_dependency_ext cs1 cs2 dep k :
  (∀ j, (j < k)%nat → cs1 !!! j = cs2 !!! j) →
  find_dependency cs1 dep k = find_dependency cs2 dep k.
Proof.
  induction k as [|k IH]; simpl; [done|]. intros H.
  rewrite (H k) by lia. rewrite IH; [done|]. intros j Hj. apply H. lia.
Qed.

(** [resolve_start] reads the cues and the starts below [index] only. *)
Lemma resolve_start_ext cs1 cs2 st1 st2 index c :
  (∀ j, (j < index)%nat → cs1 !!! j = cs2 !!! j) →
  (∀ j, (j < index)%nat → st1 !!! j = st2 !!! j) →
  resolve_start cs1 st1 index c = resolve_start cs2 st2 index c.
Proof.
  intros Hcs Hst. unfold resolve_start.
  destruct (start_mode c); [done| |].
  - destruct index as [|p]; [done|]. rewrite Hcs, Hst by lia. done.
  - destruct (truthy_opt_str _); [|done].
    rewrite (find_dependency_ext cs1 cs2) by done.
    destruct (find_dependency cs2 _ index) as [j|] eqn:E; [|done].
    apply find_dependency_Some in E as (Hlt & _).
    rewrite Hcs, Hst by done. done.
Qed.

(** One step of the source loop is one step of the cursor-free loop, with
    the new cursor on the side. *)
Lemma schedule_step_fst cs st ct index c :
  fst (schedule_step cs (st, ct) index c)
  = st ++ [resolve_start cs st index c].
Proof.
  unfold schedule_step, resolve_start.
  destruct (start_mode c); simpl; [done| |].
  - destruct index; done.
  - destruct (truthy_opt_str _); [|done].
    destruct (find_dependency _ _ _); done.
Qed.

Lemma schedule_loop_fst cs todo index st ct :
  fst (schedule_loop cs todo index (st, ct)) = nocursor_loop cs todo index st.
Proof.
  revert index st ct. induction todo as [|c todo IH]; intros;
    cbn [schedule_loop nocursor_loop]; [done|].
  destruct (schedule_step cs (st, ct) index c) as [st' ct'] eqn:E.
  rewrite IH. f_equal.
  change st' with (fst (st', ct')). rewrite <- E. apply schedule_step_fst.
Qed.

Lemma nocursor_loop_app cs t1 t2 index st :
  nocursor_loop cs (t1 ++ t2) index st
  = nocursor_loop cs t2 (index + length t1) (nocursor_loop cs t1 index st).
Proof.
  revert index st. induction t1 as [|c t1 IH]; intros; simpl.
  - f_equal. lia.
  - rewrite IH. f_equal. lia.
Qed.

Lemma nocursor_loop_prefix cs todo index st :
  ∃ ext, nocursor_loop cs todo index st = st ++ ext ∧
         length ext = length todo.
Proof.
  revert index st. induction todo as [|c todo IH]; intros; simpl.
  - exists []. by rewrite app_nil_r.
  - destruct (IH (S index) (st ++ [resolve_start cs st index c]))
      as (ext & -> & Hlen).
    eexists (_ :: ext). rewrite <- app_assoc. simpl. split; [done|].
    by rewrite Hlen.
Qed.

Lemma nocursor_loop_length cs todo index st :
  length (nocursor_loop cs todo index st) = (length st + length todo)%nat.
Proof.
  destruct (nocursor_loop_prefix cs todo index st) as (ext & -> & <-).
  apply length_app.
Qed.

Lemma nocursor_loop_ext cs1 cs2 todo index st :
  (∀ j, (j < index + length todo)%nat → cs1 !!! j = cs2 !!! j) →
  nocursor_loop cs1 todo index st = nocursor_loop cs2 todo index st.
Proof.
  revert index st. induction todo as [|c todo IH]; intros index st H; simpl;
    [done|].
  rewrite (resolve_start_ext cs1 cs2 st st); [|intros; apply H; simpl; lia|done].
  apply IH. intros j Hj. apply H. simpl. lia.
Qed.

(** The loop's unfolding at a position: the start stored for the [k]-th
    remaining cue is [resolve_start] on the final list. *)
Lemma nocursor_loop_lookup cs todo index st k c :
  length st = index → todo !! k = Some c →
  nocursor_loop cs todo index st !! (index + k)%nat
  = Some (resolve_start cs (nocursor_loop cs todo index st) (index + k) c).
Proof.
  revert index st k. induction todo as [|c0 todo IH]; intros index st k Hlen Hk;
    [done|].
  simpl. destruct k as [|k]; simpl in Hk.
  - injection Hk as ->. rewrite Nat.add_0_r.
    destruct (nocursor_loop_prefix cs todo (S index)
                (st ++ [resolve_start cs st index c])) as (ext & -> & _).
    rewrite <- app_assoc. simpl.
    rewrite lookup_app_r by lia. rewrite Hlen, Nat.sub_diag. simpl.
    f_equal. apply resolve_start_ext; [done|].
    intros j Hj. rewrite lookup_total_app_l by lia. done.
  - replace (index + S k)%nat with (S index + k)%nat by lia.
    apply IH; [|done]. rewrite length_app. simpl. lia.
Qed.
End schedule_facts.

Lemma compute_schedule_nocursor_eq cs :
  compute_schedule cs = compute_schedule_nocursor cs.
Proof. apply schedule_loop_fst. Qed.

Lemma compute_schedule_length cs :
  length (compute_schedule cs) = length cs.
Proof.
  rewrite compute_schedule_nocursor_eq. unfold compute_schedule_nocursor.
  by rewrite nocursor_loop_length.
Qed.

(** The recurrence [compute_schedule] satisfies at every index. *)
Lemma compute_schedule_lookup cs i c :
  cs !! i = Some c →
  compute_schedule cs !! i
  = Some (resolve_start cs (compute_schedule cs) i c).
Proof.
  intros H. rewrite compute_schedule_nocursor_eq.
  apply (nocursor_loop_lookup cs cs 0 [] i c); done.
Qed.

Lemma compute_schedule_app l1 l2 :
  ∃ ext, compute_schedule (l1 ++ l2) = compute_schedule l1 ++ ext.
Proof.
  rewrite !compute_schedule_nocursor_eq. unfold compute_schedule_nocursor.
  rewrite nocursor_loop_app. simpl.
  rewrite (nocursor_loop_ext (l1 ++ l2) l1 l1).
  - destruct (nocursor_loop_prefix (l1 ++ l2) l2 (length l1)
                (nocursor_loop l1 l1 0 [])) as (ext & -> & _). eauto.
  - intros j Hj. simpl in Hj. by rewrite lookup_total_app_l.
Qed.

(** Sample schedules: scenarios A and B of the design notes, and a room with
    a duplicated name. *)
Example scenario_A :
  compute_schedule [cue_at "intro" 0 10; cue_after_previous "ambient" 30]
  = [0; 10].
Proof. reflexivity. Qed.

Example scenario_B :
  compute_schedule [cue_at "a" 5 5; cue_after "b" "a" 0] = [5; 10].
Proof. reflexivity. Qed.

Example duplicate_names_resolve_to_nearest :
  compute_schedule [cue_at "a" 0 10; cue_at "a" 100 5; cue_after "b" "a" 0]
  = [0; 100; 105].
Proof. reflexivity. Qed.

(** The cursor and the start of an [AFTER_PREVIOUS] cue part ways: after
    the first two cues the cursor stands at 100, the third cue starts at 5. *)
Example after_previous_not_from_cursor :
  let cs := [cue_at "x" 100 0; cue_at "y" 0 5; cue_after_previous "z" 1] in
  snd (schedule_loop cs (take 2 cs) 0 ([], 0)) = 100 ∧
  compute_schedule cs = [100; 0; 5].
Proof. split; reflexivity. Qed.

(** C6.  A cue with start mode [AT_TIME] starts at [max(start_time_s, 0)],
    whatever the list around it holds. *)
Theorem at_time_start cs i c :
  cs !! i = Some c → start_mode c = AT_TIME →
  compute_schedule cs !! i = Some (Z.max (start_time_s c) 0).
Proof.
  intros Hi Hmode. rewrite (compute_schedule_lookup cs i c Hi).
  unfold resolve_start. by rewrite Hmode.
Qed.

Lemma at_time_start_witness :
  compute_schedule [cue_after "b" "a" 4; cue_at "a" (-3) 7] !! 1%nat
  = Some (Z.max (-3) 0).
Proof.
  exact (at_time_start [cue_after "b" "a" 4; cue_at "a" (-3) 7] 1
           (cue_at "a" (-3) 7) eq_refl eq_refl).
Defined.

(** C5.  A cue with start mode [AFTER_PREVIOUS] starts at 0 at index 0 and
    otherwise at the previous cue's resolved start plus that cue's duration
    clamped at 0. *)
Theorem after_previous_start cs i c :
  cs !! i = Some c → start_mode c = AFTER_PREVIOUS →
  match i with
  | O => compute_schedule cs !! i = Some 0
  | S p =>
      ∃ cp sp, cs !! p = Some cp ∧ compute_schedule cs !! p = Some sp ∧
               compute_schedule cs !! i = Some (sp + Z.max (duration_s cp) 0)
  end.
Proof.
  intros Hi Hmode. pose proof (compute_schedule_lookup cs i c Hi) as Hrec.
  unfold resolve_start in Hrec. rewrite Hmode in Hrec.
  destruct i as [|p]; [done|].
  assert (p < length cs)%nat as Hp by (apply lookup_lt_Some in Hi; lia).
  exists (cs !!! p), (compute_schedule cs !!! p). split_and!; [| |done].
  - by apply list_lookup_lookup_total_lt.
  - apply list_lookup_lookup_total_lt. by rewrite compute_schedule_length.
Qed.

Lemma after_previous_start_witness :
  (compute_schedule [cue_after_previous "z" 9; cue_at "y" 7 (-5)] !! 0%nat
   = Some 0) ∧
  ∃ cp sp,
    [cue_at "x" 100 0; cue_at "y" 0 5; cue_after_previous "z" 1] !! 1%nat
      = Some cp ∧
    compute_schedule [cue_at "x" 100 0; cue_at "y" 0 5; cue_after_previous "z" 1]
      !! 1%nat = Some sp ∧
    compute_schedule [cue_at "x" 100 0; cue_at "y" 0 5; cue_after_previous "z" 1]
      !! 2%nat = Some (sp + Z.max (duration_s cp) 0).
Proof.
  split.
  - exact (after_previous_start
             [cue_after_previous "z" 9; cue_at "y" 7 (-5)] 0
             (cue_after_previous "z" 9) eq_refl eq_refl).
  - exact (after_previous_start
             [cue_at "x" 100 0; cue_at "y" 0 5; cue_after_previous "z" 1] 2
             (cue_after_previous "z" 1) eq_refl eq_refl).
Defined.

(** C1.  A cue with start mode [AFTER_CUE] and a non-empty dependency name
    that some earlier cue bears starts when the nearest preceding cue of
    that name ends (its resolved start plus its duration clamped at 0); with
    an absent or empty dependency name, or with no earlier cue of that name,
    it starts at 0. *)
Theorem after_cue_start cs i c :
  cs !! i = Some c → start_mode c = AFTER_CUE →
  (∀ dep, dependency_name c = Some dep → dep ≠ "" →
     (∃ j cj, (j < i)%nat ∧ cs !! j = Some cj ∧ name cj = dep) →
     ∃ j cj sj, nearest_match cs dep i j ∧ cs !! j = Some cj ∧
                compute_schedule cs !! j = Some sj ∧
                compute_schedule cs !! i = Some (sj + Z.max (duration_s cj) 0))
  ∧ ((dependency_name c = None ∨ dependency_name c = Some "" ∨
      (∀ dep j cj, dependency_name c = Some dep →
                   (j < i)%nat → cs !! j = Some cj → name cj ≠ dep)) →
     compute_schedule cs !! i = Some 0).
Proof.
  intros Hi Hmode. pose proof (compute_schedule_lookup cs i c Hi) as Hrec.
  unfold resolve_start in Hrec. rewrite Hmode in Hrec.
  assert (i < length cs)%nat as Hilen by by apply lookup_lt_Some in Hi.
  split.
  - intros dep Hdep Hne (j0 & cj0 & Hj0 & Hcj0 & Hname0).
    rewrite Hdep in Hrec. simpl in Hrec.
    apply String.eqb_neq in Hne. rewrite Hne in Hrec. simpl in Hrec.
    destruct (find_dependency cs dep i) as [j|] eqn:E.
    + apply find_dependency_Some in E as (Hlt & Hn & Hbetween).
      assert (cs !! j = Some (cs !!! j)) as Hj
        by (apply list_lookup_lookup_total_lt; lia).
      exists j, (cs !!! j), (compute_schedule cs !!! j). split_and!; [|done| |done].
      * split_and!; [done|by eauto|].
        intros m cm Hm Hcm. apply list_lookup_total_correct in Hcm as <-.
        by apply Hbetween.
      * apply list_lookup_lookup_total_lt. rewrite compute_schedule_length. lia.
    + exfalso. apply (find_dependency_None _ _ _ E j0 Hj0).
      by apply list_lookup_total_correct in Hcj0 as ->.
  - intros [Hnone|[Hempty|Hnomatch]].
    + by rewrite Hnone in Hrec.
    + by rewrite Hempty in Hrec.
    + destruct (dependency_name c) as [dep|] eqn:Hdep; [|done]. simpl in Hrec.
      destruct (negb (dep =? ""))%string; [|done].
      destruct (find_dependency cs dep i) as [j|] eqn:E; [|done].
      exfalso. apply find_dependency_Some in E as (Hlt & Hn & _).
      apply (Hnomatch dep j (cs !!! j)); [done..| |done].
      apply list_lookup_lookup_total_lt. lia.
Qed.

Lemma after_cue_start_witness :
  ∃ j cj sj,
    nearest_match [cue_at "a" 0 10; cue_at "a" 100 5; cue_after "b" "a" 0]
      "a" 2 j ∧
    [cue_at "a" 0 10; cue_at "a" 100 5; cue_after "b" "a" 0] !! j = Some cj ∧
    compute_schedule [cue_at "a" 0 10; cue_at "a" 100 5; cue_after "b" "a" 0]
      !! j = Some sj ∧
    compute_schedule [cue_at "a" 0 10; cue_at "a" 100 5; cue_after "b" "a" 0]
      !! 2%nat = Some (sj + Z.max (duration_s cj) 0).
Proof.
  apply (proj1 (after_cue_start
                  [cue_at "a" 0 10; cue_at "a" 100 5; cue_after "b" "a" 0] 2
                  (cue_after "b" "a" 0) eq_refl eq_refl) "a" eq_refl).
  - discriminate.
  - exists 0%nat, (cue_at "a" 0 10). split_and!; [lia|reflexivity|reflexivity].
Defined.

(** C10.  [compute_schedule] is the cursor-free recursion: the two give the
    same list, the initial cursor does not show in the result, and the
    starts of a prefix of the cues are the prefix of the starts. *)
Theorem cursor_never_read cs :
  compute_schedule cs = compute_schedule_nocursor cs
  ∧ (∀ ct, fst (schedule_loop cs cs 0 ([], ct)) = compute_schedule cs)
  ∧ (∀ n, compute_schedule (take n cs) = take n (compute_schedule cs)).
Proof.
  split_and!.
  - apply compute_schedule_nocursor_eq.
  - intros ct. unfold compute_schedule. by rewrite !schedule_loop_fst.
  - intros n. destruct (compute_schedule_app (take n cs) (drop n cs)) as [ext H].
    rewrite take_drop in H. rewrite H.
    destruct (decide (n ≤ length cs)%nat) as [Hle|Hgt].
    + rewrite take_app_length'; [done|].
      rewrite compute_schedule_length, length_take. lia.
    + rewrite <- H. rewrite !take_ge; [done| |lia].
      rewrite compute_schedule_length. lia.
Qed.

(** ** Lane allocation *)

Section sorting_facts.
Variable key : nat → Z.

Lemma sort_insert_perm i l : sort_insert key i l ≡ₚ i :: l.
Proof.
  induction l as [|j l IH]; simpl; [done|].
  destruct (key i <=? key j); [done|].
  rewrite IH. apply Permutation_swap.
Qed.

Lemma sort_by_key_perm l : sort_by_key key l ≡ₚ l.
Proof.
  induction l as [|i l IH]; simpl; [done|].
  by rewrite sort_insert_perm, IH.
Qed.

Lemma sort_insert_sorted i l :
  StronglySorted (λ a b, key a ≤ key b) l →
  StronglySorted (λ a b, key a ≤ key b) (sort_insert key i l).
Proof.
  induction 1 as [|j l Hl IH Hj]; simpl.
  - repeat constructor.
  - destruct (Z.leb_spec (key i) (key j)) as [Hle|Hgt].
    + constructor; [by constructor|].
      constructor; [done|]. eapply Forall_impl; [exact Hj|].
      simpl. intros; lia.
    + constructor; [done|].
      rewrite Forall_forall. intros b Hb.
      rewrite sort_insert_perm in Hb. apply elem_of_cons in Hb as [->|Hb].
      * lia.
      * rewrite Forall_forall in Hj. by apply Hj.
Qed.

Lemma sort_by_key_sorted l :
  StronglySorted (λ a b, key a ≤ key b) (sort_by_key key l).
Proof.
  induction l as [|i l IH]; simpl; [constructor|].
  by apply sort_insert_sorted.
Qed.

(** Stability: where keys tie, ascending input indices stay ascending. *)
Lemma sort_insert_stable i l :
  StronglySorted (λ a b, key a = key b → (a < b)%nat) l →
  Forall (λ b, key i = key b → (i < b)%nat) l →
  StronglySorted (λ a b, key a = key b → (a < b)%nat) (sort_insert key i l).
Proof.
  induction 1 as [|j l Hl IH Hj]; simpl; intros Hi.
  - repeat constructor.
  - apply Forall_cons in Hi as [Hij Hi].
    destruct (Z.leb_spec (key i) (key j)) as [Hle|Hgt].
    + constructor; [by constructor|]. by constructor.
    + constructor; [by apply IH|].
      rewrite Forall_forall. intros b Hb.
      rewrite sort_insert_perm in Hb. apply elem_of_cons in Hb as [->|Hb].
      * lia.
      * rewrite Forall_forall in Hj. by apply Hj.
Qed.

Lemma sort_by_key_seq_stable k n :
  StronglySorted (λ a b, key a = key b → (a < b)%nat)
    (sort_by_key key (seq k n)).
Proof.
  revert k. induction n as [|n IH]; intros k; simpl; [constructor|].
  apply sort_insert_stable; [apply IH|].
  rewrite Forall_forall. intros b Hb _.
  rewrite sort_by_key_perm in Hb. apply elem_of_seq in Hb. lia.
Qed.
End sorting_facts.

Lemma sort_insert_ext key1 key2 i l :
  key1 i = key2 i → (∀ j, j ∈ l → key1 j = key2 j) →
  sort_insert key1 i l = sort_insert key2 i l.
Proof.
  intros Hi. induction l as [|j l IH]; intros Hl; simpl; [done|].
  rewrite Hi, (Hl j) by left. rewrite IH; [done|].
  intros; apply Hl. by right.
Qed.

Lemma sort_by_key_ext key1 key2 l :
  (∀ j, j ∈ l → key1 j = key2 j) →
  sort_by_key key1 l = sort_by_key key2 l.
Proof.
  induction l as [|i l IH]; intros Hl; simpl; [done|].
  rewrite IH by (intros; apply Hl; by right).
  apply sort_insert_ext; [apply Hl; left|].
  intros j Hj. rewrite sort_by_key_perm in Hj. apply Hl. by right.
Qed.

Lemma first_free_lane_Some start ends k j :
  first_free_lane start ends k = Some j →
  (k ≤ j)%nat ∧ ∃ le, ends !! (j - k)%nat = Some le ∧ le ≤ start.
Proof.
  revert k. induction ends as [|le ends IH]; intros k; simpl; [done|].
  destruct (Z.geb_spec start le) as [Hge|Hlt].
  - intros [= <-]. split; [lia|]. exists le. rewrite Nat.sub_diag. split; [done|lia].
  - intros H. apply IH in H as (Hle & le' & Hlook & Hle').
    split; [lia|]. exists le'. split; [|done].
    replace (j - k)%nat with (S (j - S k)) by lia. done.
Qed.

Lemma first_free_lane_None start ends k :
  first_free_lane start ends k = None →
  ∀ j le, ends !! j = Some le → start < le.
Proof.
  revert k. induction ends as [|le ends IH]; intros k; simpl; [done|].
  destruct (Z.geb_spec start le) as [Hge|Hlt]; [done|].
  intros H [|j] le'; simpl.
  - by intros [= <-].
  - by apply (IH _ H).
Qed.

Section lanes_core.
Variables (n : nat) (start_of end_of : nat → Z).

(** What one placement does to the state, whichever branch it takes. *)
Lemma place_item_spec ends lanes x :
  ∃ j ends',
    place_item start_of end_of (ends, lanes) x = (ends', <[x := j]> lanes) ∧
    (j < length ends')%nat ∧
    ends' !! j = Some (end_of x) ∧
    (∀ k, k ≠ j → ends' !! k = ends !! k) ∧
    (∀ le, ends !! j = Some le → le ≤ start_of x) ∧
    ((j < length ends)%nat ∧ length ends' = length ends ∨
     j = length ends ∧ length ends' = S (length ends) ∧
     ∀ k le, ends !! k = Some le → start_of x < le).
Proof.
  unfold place_item.
  destruct (first_free_lane (start_of x) ends 0) as [j|] eqn:E.
  - apply first_free_lane_Some in E as (_ & le & Hle & Hfree).
    rewrite Nat.sub_0_r in Hle.
    assert (j < length ends)%nat by by eapply lookup_lt_Some.
    exists j, (<[j := end_of x]> ends). split_and!; [done| | | | |].
    + by rewrite length_insert.
    + by apply list_lookup_insert_eq.
    + intros k Hk. by apply list_lookup_insert_ne.
    + intros le' Hle'. congruence.
    + left. by rewrite length_insert.
  - exists (length ends), (ends ++ [end_of x]). split_and!; [done| | | | |].
    + rewrite length_app. simpl. lia.
    + rewrite lookup_app_r by lia. by rewrite Nat.sub_diag.
    + intros k Hk. destruct (decide (k < length ends)%nat).
      * by rewrite lookup_app_l.
      * rewrite !lookup_ge_None_2; [done|lia|rewrite length_app; simpl; lia].
    + intros le Hle. apply lookup_lt_Some in Hle. lia.
    + right. split_and!; [done|rewrite length_app; simpl; lia|].
      exact (first_free_lane_None _ _ _ E).
Qed.

Lemma lane_inv_init : lane_inv n start_of end_of [] ([], replicate n 0%nat).
Proof.
  split; simpl.
  - apply length_replicate.
  - intros a Ha. by apply elem_of_nil in Ha.
  - intros j Hj. lia.
  - intros a l le t Ha. by apply elem_of_nil in Ha.
  - intros a b l Ha. by apply elem_of_nil in Ha.
Qed.

Lemma lane_inv_step done st x :
  lane_inv n start_of end_of done st → x ∉ done → (x < n)%nat →
  (∀ b, b ∈ done → start_of b ≤ start_of x) →
  lane_inv n start_of end_of (done ++ [x]) (place_item start_of end_of st x).
Proof.
  destruct st as [ends lanes]. intros Hinv Hfresh Hx Hsorted.
  destruct (place_item_spec ends lanes x)
    as (j & ends' & -> & Hj & Hjx & Hother & Hfree & Hcases).
  destruct Hinv as [Hlen Hbound Htop Hends Hdisj]; simpl in *.
  assert (∀ a, a ∈ done → <[x:=j]> lanes !! a = lanes !! a) as Hold.
  { intros a Ha. apply list_lookup_insert_ne. intros ->. done. }
  assert (<[x:=j]> lanes !! x = Some j) as Hnew.
  { apply list_lookup_insert_eq. lia. }
  assert (length ends ≤ length ends')%nat as Hgrow by (destruct Hcases; lia).
  (* the lane [x] goes to was free at [start_of x] for all its items *)
  assert (∀ b, b ∈ done → lanes !! b = Some j → end_of b ≤ start_of x) as Hfit.
  { intros b Hb Hbj. destruct (Hbound b Hb) as (l & Hl & Hlt).
    assert (l = j) as -> by congruence.
    destruct (lookup_lt_is_Some_2 ends j Hlt) as [le Hle].
    apply (Hends b j le (start_of x)); auto. }
  split; simpl.
  - by rewrite length_insert.
  - intros a [Ha| ->%list_elem_of_singleton]%elem_of_app.
    + rewrite Hold by done. destruct (Hbound a Ha) as (l & Hl & Hlt).
      exists l. split; [done|lia].
    + eauto.
  - intros k Hk. destruct (decide (k = j)) as [->|Hne].
    + exists x. split_and!; [|done..]. apply elem_of_app. right. by left.
    + assert (k < length ends)%nat as Hk'.
      { apply lookup_lt_is_Some. rewrite <- (Hother k Hne).
        by apply lookup_lt_is_Some. }
      destruct (Htop k Hk') as (y & Hy & Hyl & Hye).
      exists y. split_and!.
      * apply elem_of_app. by left.
      * by rewrite Hold.
      * by rewrite Hother.
  - intros a l le t [Ha| ->%list_elem_of_singleton]%elem_of_app Hl Hle Ht Hlt.
    + rewrite Hold in Hl by done.
      assert (start_of x ≤ t) as Hxt.
      { apply Ht. apply elem_of_app. right. by left. }
      destruct (decide (l = j)) as [->|Hne].
      * specialize (Hfit a Ha Hl). lia.
      * rewrite Hother in Hle by done.
        apply (Hends a l le t); auto.
        intros b Hb. apply Ht. apply elem_of_app. by left.
    + assert (l = j) as -> by congruence.
      assert (le = end_of x) as -> by congruence. done.
  - intros a b l [Ha| ->%list_elem_of_singleton]%elem_of_app
                   [Hb| ->%list_elem_of_singleton]%elem_of_app Hab Hla Hlb.
    + rewrite Hold in Hla, Hlb by done. eauto.
    + rewrite Hold in Hla by done.
      assert (l = j) as -> by congruence. left. by apply Hfit.
    + rewrite Hold in Hlb by done.
      assert (l = j) as -> by congruence. right. by apply Hfit.
    + done.
Qed.

Lemma lane_inv_fold order : ∀ done st,
  lane_inv n start_of end_of done st → NoDup (done ++ order) →
  (∀ x, x ∈ order → (x < n)%nat) →
  StronglySorted (λ a b, start_of a ≤ start_of b) (done ++ order) →
  lane_inv n start_of end_of (done ++ order)
    (fold_left (place_item start_of end_of) order st).
Proof.
  induction order as [|x order IH]; intros done st Hinv Hnd Hlt Hsorted; simpl.
  - by rewrite app_nil_r.
  - rewrite cons_middle, app_assoc in Hnd, Hsorted |- *.
    apply IH; [|done| |done].
    + apply lane_inv_step; [done| | |].
      * apply NoDup_app in Hnd as (Hnd & _ & _).
        apply NoDup_app in Hnd as (_ & Hnd & _).
        intros Hin. apply (Hnd x Hin). by left.
      * apply Hlt. by left.
      * intros b Hb. apply StronglySorted_app_1_l in Hsorted.
        apply (StronglySorted_app_1_elem_of _ _ _ b x Hsorted); [done|by left].
    + intros y Hy. apply Hlt. by right.
Qed.

Lemma greedy_lanes_unfold :
  greedy_lanes n start_of end_of
  = snd (fold_left (place_item start_of end_of) (sort_by_key start_of (seq 0 n))
           ([], replicate n 0%nat)).
Proof. unfold greedy_lanes. by destruct n. Qed.

(** The state the loop ends in: every item placed. *)
Lemma greedy_lanes_inv :
  ∃ done ends,
    (∀ a, a ∈ done ↔ (a < n)%nat) ∧
    lane_inv n start_of end_of done (ends, greedy_lanes n start_of end_of).
Proof.
  set (order := sort_by_key start_of (seq 0 n)).
  pose proof (lane_inv_fold order [] _ lane_inv_init) as H. simpl in H.
  destruct (fold_left (place_item start_of end_of) order ([], replicate n 0%nat)) as [ends lanes] eqn:E.
  exists order, ends. split.
  - intros a. unfold order. rewrite sort_by_key_perm, elem_of_seq. lia.
  - rewrite greedy_lanes_unfold. fold order. rewrite E. simpl. apply H.
    + unfold order. rewrite sort_by_key_perm. apply NoDup_seq.
    + intros x. unfold order. rewrite sort_by_key_perm, elem_of_seq. lia.
    + apply sort_by_key_sorted.
Qed.

Lemma greedy_lanes_length : length (greedy_lanes n start_of end_of) = n.
Proof.
  destruct greedy_lanes_inv as (done & ends & _ & [Hlen _ _ _ _]). done.
Qed.

(** Two items of one lane: one has ended when the other starts. *)
Lemma greedy_lanes_disjoint a b l :
  a ≠ b →
  greedy_lanes n start_of end_of !! a = Some l →
  greedy_lanes n start_of end_of !! b = Some l →
  end_of a ≤ start_of b ∨ end_of b ≤ start_of a.
Proof.
  destruct greedy_lanes_inv as (done & ends & Hdone & [Hlen _ _ _ Hdisj]).
  simpl in *. intros Hab Ha Hb.
  apply (Hdisj a b l); [| |done..]; apply Hdone.
  - apply lookup_lt_Some in Ha. lia.
  - apply lookup_lt_Some in Hb. lia.
Qed.
End lanes_core.

Lemma finite_choice {A} (P : nat → A → Prop) k :
  (∀ j, (j < k)%nat → ∃ y, P j y) →
  ∃ ys, length ys = k ∧ ∀ j y, ys !! j = Some y → P j y.
Proof.
  induction k as [|k IH]; intros H.
  - exists []. split; [done|]. intros j y Hj. done.
  - destruct IH as (ys & Hlen & Hys); [intros; apply H; lia|].
    destruct (H k) as [y Hy]; [lia|].
    exists (ys ++ [y]). split; [rewrite length_app; simpl; lia|].
    intros j z [[_ Hj]|[-> <-]]%lookup_snoc_Some; [by apply Hys|].
    by rewrite Hlen.
Qed.

Section lanes_count.
Variables (n : nat) (start_of end_of : nat → Z).



(** The number of lanes in use is one more than the largest lane index
    handed out. *)
Lemma lane_inv_num_lanes done ends lanes :
  (∀ a, a ∈ done ↔ (a < n)%nat) →
  lane_inv n start_of end_of done (ends, lanes) →
  num_lanes lanes = length ends.
Proof.
  intros Hdone [Hlen Hbound Htop _ _]; simpl in *.
  destruct lanes as [|l0 lanes'] eqn:Hlanes.
  - simpl in *. destruct ends as [|le ends']; [done|].
    destruct (Htop 0%nat) as (y & Hy & _); [simpl; lia|].
    apply Hdone in Hy. lia.
  - rewrite <- Hlanes in *. unfold num_lanes. rewrite Hlanes at 1.
    assert (lanes ≠ []) as Hne by by rewrite Hlanes.
    apply max_list_elem_of in Hne as (a & Ha)%list_elem_of_lookup.
    assert (a ∈ done) as Hain.
    { apply Hdone. apply lookup_lt_Some in Ha. lia. }
    destruct (Hbound a Hain) as (l & Hl & Hllt).
    assert (l = max_list lanes) as -> by congruence.
    destruct (Htop (length ends - 1)%nat) as (y & _ & Hy & _); [lia|].
    apply list_elem_of_lookup_2, max_list_elem_of_le in Hy. lia.
Qed.


End lanes_count.


Lemma fold_left_ext_in {A B} (f g : A → B → A) (l : list B) (a : A) :
  (∀ a x, x ∈ l → f a x = g a x) → fold_left f l a = fold_left g l a.
Proof.
  revert a. induction l as [|x l IH]; intros a H; simpl; [done|].
  rewrite H by left. apply IH. intros; apply H. by right.
Qed.

Lemma greedy_lanes_ext n s1 e1 s2 e2 :
  (∀ i, (i < n)%nat → s1 i = s2 i ∧ e1 i = e2 i) →
  greedy_lanes n s1 e1 = greedy_lanes n s2 e2.
Proof.
  intros H. rewrite !greedy_lanes_unfold.
  rewrite (sort_by_key_ext s1 s2).
  - f_equal. apply fold_left_ext_in. intros st i Hi.
    rewrite sort_by_key_perm, elem_of_seq in Hi.
    destruct (H i) as [Hs He]; [lia|].
    unfold place_item. by rewrite Hs, He.
  - intros i Hi. apply elem_of_seq in Hi. apply H. lia.
Qed.

Lemma TimelineView_as_intervals cs starts :
  length starts = length cs →
  TimelineView_compute_lanes cs starts = compute_lanes (cue_intervals cs starts).
Proof.
  intros Hlen. unfold TimelineView_compute_lanes, compute_lanes, cue_intervals.
  rewrite length_zip_with, Hlen, Nat.min_id.
  apply greedy_lanes_ext. intros i Hi.
  destruct (lookup_lt_is_Some_2 cs i) as [c Hc]; [lia|].
  destruct (lookup_lt_is_Some_2 starts i) as [s Hs]; [lia|].
  by rewrite !list_lookup_total_alt, lookup_zip_with, Hc, Hs.
Qed.

Lemma GlobalTimelineView_as_intervals items :
  GlobalTimelineView_compute_lanes items = compute_lanes (item_intervals items).
Proof.
  unfold GlobalTimelineView_compute_lanes, compute_lanes, item_intervals.
  rewrite length_fmap. apply greedy_lanes_ext. intros i Hi.
  destruct (lookup_lt_is_Some_2 items i) as [it Hit]; [lia|].
  by rewrite !list_lookup_total_alt, list_lookup_fmap, Hit.
Qed.


(** No lane holds two overlapping intervals. *)
Lemma compute_lanes_disjoint intervals a b l ia ib :
  a ≠ b → intervals !! a = Some ia → intervals !! b = Some ib →
  compute_lanes intervals !! a = Some l →
  compute_lanes intervals !! b = Some l →
  ¬ overlap ia ib.
Proof.
  intros Hab Hia Hib Hla Hlb [H1 H2].
  apply list_lookup_total_correct in Hia as <-.
  apply list_lookup_total_correct in Hib as <-.
  destruct (greedy_lanes_disjoint _ _ _ a b l Hab Hla Hlb); lia.
Qed.

Lemma compute_lanes_length intervals :
  length (compute_lanes intervals) = length intervals.
Proof. apply greedy_lanes_length. Qed.




Example scenario_C :
  room_lanes [cue_at "a" 0 10; cue_at "b" 0 5] = [0; 1]%nat.
Proof. reflexivity. Qed.

Example lanes_are_reused :
  compute_lanes [(0, 10); (0, 5); (10, 12); (5, 6)] = [0; 1; 0; 1]%nat.
Proof. reflexivity. Qed.

Example ties_keep_input_order :
  compute_lanes [(3, 9); (3, 4); (3, 3)] = [0; 1; 2]%nat.
Proof. reflexivity. Qed.

(** C2.  Each allocator hands every item a lane, and two distinct items of
    one lane never overlap: not both [start_a < end_b] and
    [start_b < end_a]. *)
Theorem lanes_hold_no_overlap :
  (∀ intervals,
     length (compute_lanes intervals) = length intervals ∧
     ∀ a b l ia ib, a ≠ b →
       intervals !! a = Some ia → intervals !! b = Some ib →
       compute_lanes intervals !! a = Some l →
       compute_lanes intervals !! b = Some l →
       ¬ overlap ia ib)
  ∧ (∀ cs starts, length starts = length cs →
     length (TimelineView_compute_lanes cs starts) = length cs ∧
     ∀ a b l ia ib, a ≠ b →
       cue_intervals cs starts !! a = Some ia →
       cue_intervals cs starts !! b = Some ib →
       TimelineView_compute_lanes cs starts !! a = Some l →
       TimelineView_compute_lanes cs starts !! b = Some l →
       ¬ overlap ia ib)
  ∧ (∀ items,
     length (GlobalTimelineView_compute_lanes items) = length items ∧
     ∀ a b l ia ib, a ≠ b →
       item_intervals items !! a = Some ia →
       item_intervals items !! b = Some ib →
       GlobalTimelineView_compute_lanes items !! a = Some l →
       GlobalTimelineView_compute_lanes items !! b = Some l →
       ¬ overlap ia ib).
Proof.
  split_and!.
  - intros intervals. split; [apply compute_lanes_length|].
    apply compute_lanes_disjoint.
  - intros cs starts Hlen. split; [apply greedy_lanes_length|].
    rewrite TimelineView_as_intervals by done. apply compute_lanes_disjoint.
  - intros items. split; [apply greedy_lanes_length|].
    rewrite GlobalTimelineView_as_intervals. apply compute_lanes_disjoint.
Qed.

Lemma lanes_hold_no_overlap_witness :
  ¬ overlap (0, 10) (10, 12) ∧
  ¬ overlap (0, 10) (10, 12).
Proof.
  split.
  - apply (proj2 (proj1 lanes_hold_no_overlap [(0, 10); (0, 5); (10, 12)])
             0%nat 2%nat 0%nat (0, 10) (10, 12));
      [lia|reflexivity..].
  - apply (proj2 (proj1 (proj2 lanes_hold_no_overlap)
                    [cue_at "a" 0 10; cue_at "b" 0 5; cue_after "c" "a" 2]
                    [0; 0; 10] eq_refl)
             0%nat 2%nat 0%nat (0, 10) (10, 12));
      [lia|reflexivity..].
Defined.



(** Counting an interval as in flight up to and including its end does not
    rescue the equality either: two cues that touch share the instant 5 and
    one lane. *)
Example touching_cues_share_a_lane :
  compute_lanes [(0, 5); (5, 10)] = [0; 0]%nat ∧
  (0 ≤ 5 ≤ 5) ∧ (5 ≤ 5 ≤ 10).
Proof. split_and!; [reflexivity|lia..]. Qed.



(** ** Global timeline *)

Lemma resolve_start_nonneg cs st index c :
  (∀ j, (j < index)%nat → 0 ≤ st !!! j) → 0 ≤ resolve_start cs st index c.
Proof.
  intros H. unfold resolve_start. destruct (start_mode c); [lia| |].
  - destruct index as [|p]; [done|]. specialize (H p). lia.
  - destruct (truthy_opt_str _); [|done].
    destruct (find_dependency _ _ _) as [j|] eqn:E; [|done].
    apply find_dependency_Some in E as (Hlt & _). specialize (H j Hlt). lia.
Qed.

(** Every resolved start is at or after the room's start. *)
Lemma compute_schedule_nonneg cs i s :
  compute_schedule cs !! i = Some s → 0 ≤ s.
Proof.
  revert s. induction i as [i IH] using lt_wf_ind. intros s Hs.
  assert (i < length cs)%nat as Hi.
  { apply lookup_lt_Some in Hs. by rewrite compute_schedule_length in Hs. }
  destruct (lookup_lt_is_Some_2 cs i Hi) as [c Hc].
  rewrite (compute_schedule_lookup cs i c Hc) in Hs. injection Hs as <-.
  apply resolve_start_nonneg. intros j Hj. apply (IH j Hj).
  apply list_lookup_lookup_total_lt. rewrite compute_schedule_length. lia.
Qed.

Lemma foldr_max_seed a x l :
  foldr Z.max (Z.max a x) l = Z.max x (foldr Z.max a l).
Proof. induction l as [|y l IH]; simpl; lia. Qed.

Lemma fold_left_max l a : fold_left Z.max l a = foldr Z.max a l.
Proof.
  revert a. induction l as [|x l IH]; intros a; simpl; [done|].
  by rewrite IH, foldr_max_seed.
Qed.

Lemma foldr_max_ge a l : a ≤ foldr Z.max a l.
Proof. induction l as [|y l IH]; simpl; lia. Qed.

Lemma foldr_max_elem a l x : x ∈ l → x ≤ foldr Z.max a l.
Proof.
  induction l as [|y l IH]; [by intros ?%elem_of_nil|].
  intros [->|Hx]%elem_of_cons; simpl; [lia|]. specialize (IH Hx). lia.
Qed.

(** The loop's running maximum from 0 is the claim's maximum once no end
    is negative. *)
Lemma max_of_from_zero l :
  (∀ x, x ∈ l → 0 ≤ x) → foldr Z.max 0 l = max_of l.
Proof.
  destruct l as [|x l]; [done|]. intros H. simpl.
  assert (0 ≤ x) by (apply H; by left).
  rewrite <- (foldr_max_seed 0 x). f_equal. lia.
Qed.

Lemma max_of_elem l x : x ∈ l → x ≤ max_of l.
Proof.
  destruct l as [|y l]; [by intros ?%elem_of_nil|].
  intros [->|Hx]%elem_of_cons; simpl; [apply foldr_max_ge|].
  by apply foldr_max_elem.
Qed.

Lemma cue_interval_ends_nonneg cs x :
  x ∈ snd <$> cue_intervals cs (compute_schedule cs) → 0 ≤ x.
Proof.
  intros (iv & -> & Hiv)%list_elem_of_fmap. unfold cue_intervals in Hiv.
  apply list_elem_of_lookup in Hiv as [i Hi].
  apply lookup_zip_with_Some in Hi as (c & s & -> & _ & Hs). simpl.
  apply compute_schedule_nonneg in Hs. lia.
Qed.

Lemma room_end_of_nonneg r : 0 ≤ room_end_of r.
Proof.
  unfold room_end_of.
  rewrite <- max_of_from_zero by apply cue_interval_ends_nonneg.
  apply foldr_max_ge.
Qed.

Lemma sum_room_end_cons r rs :
  sum_room_end (r :: rs) = room_end_of r + sum_room_end rs.
Proof. reflexivity. Qed.

Lemma sum_room_end_nonneg rs : 0 ≤ sum_room_end rs.
Proof.
  induction rs as [|r rs IH]; [done|]. rewrite sum_room_end_cons.
  pose proof (room_end_of_nonneg r). lia.
Qed.

Lemma sum_room_end_app rs1 rs2 :
  sum_room_end (rs1 ++ rs2) = sum_room_end rs1 + sum_room_end rs2.
Proof.
  induction rs1 as [|r rs1 IH]; [done|].
  rewrite <- app_comm_cons, !sum_room_end_cons, IH. lia.
Qed.

(** The inner loop in closed form. *)
Lemma room_cue_fold rname off ps room_end gi :
  fold_left (room_cue_step rname off) ps (room_end, gi)
  = (fold_left Z.max ((λ p, snd p + Z.max (duration_s (fst p)) 0) <$> ps) room_end,
     gi ++ ((λ p, mkGlobalTimelineItem rname (fst p) (off + snd p)
                    (Z.max (duration_s (fst p)) 0)) <$> ps)).
Proof.
  revert room_end gi. induction ps as [|[c s] ps IH]; intros room_end gi; simpl.
  - by rewrite app_nil_r.
  - rewrite IH. by rewrite <- app_assoc.
Qed.

Lemma zip_with_zip_fmap {A B C} (f : A → B → C) (l : list A) (k : list B) :
  zip_with f l k = (λ p, f (fst p) (snd p)) <$> zip l k.
Proof.
  revert k. induction l as [|x l IH]; intros [|y k]; simpl; [done..|].
  by rewrite IH.
Qed.

(** One iteration of the room loop in closed form. *)
Lemma room_step_eq gi off tab :
  room_step (gi, off) tab
  = (gi ++ room_items (room_name tab) off (cues tab), off + room_end_of tab).
Proof.
  unfold room_step, room_items, room_end_of.
  destruct (cues tab) as [|c cs] eqn:Hcs.
  - simpl. rewrite app_nil_r. f_equal. change (off = off + 0). lia.
  - cbv beta iota zeta. rewrite room_cue_fold. f_equal.
    + by rewrite (zip_with_zip_fmap
                    (λ c0 s, mkGlobalTimelineItem _ c0 (off + s) _)).
    + f_equal. rewrite fold_left_max.
      rewrite <- max_of_from_zero by apply cue_interval_ends_nonneg.
      f_equal. unfold cue_intervals.
      rewrite (zip_with_zip_fmap (λ c0 s, (s, s + Z.max (duration_s c0) 0))),
        <- list_fmap_compose. done.
Qed.

Lemma room_loop_eq tabs : ∀ gi off,
  fold_left room_step tabs (gi, off)
  = (gi ++ stitched off tabs, off + sum_room_end tabs).
Proof.
  induction tabs as [|r tabs IH]; intros gi off.
  - simpl. rewrite app_nil_r. f_equal. unfold sum_room_end. simpl. lia.
  - cbn [fold_left stitched].
    rewrite room_step_eq, IH, <- app_assoc, sum_room_end_cons. f_equal. lia.
Qed.

Lemma compute_all_stats_eq tabs :
  compute_all_stats tabs = (stitched 0 tabs, sum_room_end tabs).
Proof. unfold compute_all_stats. by rewrite room_loop_eq. Qed.

Lemma stitched_app off rs1 rs2 :
  stitched off (rs1 ++ rs2)
  = stitched off rs1 ++ stitched (off + sum_room_end rs1) rs2.
Proof.
  revert off. induction rs1 as [|r rs1 IH]; intros off.
  - simpl. f_equal. unfold sum_room_end. simpl. lia.
  - rewrite <- app_comm_cons. cbn [stitched].
    rewrite IH, <- app_assoc, sum_room_end_cons. do 3 f_equal. lia.
Qed.

Lemma room_items_length rname off cs :
  length (room_items rname off cs) = length cs.
Proof.
  unfold room_items. rewrite length_zip_with, compute_schedule_length. lia.
Qed.

(** Where room [r]'s [k]-th item sits in the global list, and what it is. *)
Lemma global_items_lookup before r after k it :
  global_items (before ++ r :: after)
    !! (length (global_items before) + k)%nat = Some it →
  (k < length (cues r))%nat →
  ∃ c local_start,
    cues r !! k = Some c ∧
    compute_schedule (cues r) !! k = Some local_start ∧
    it = mkGlobalTimelineItem (room_name r) c
           (sum_room_end before + local_start) (Z.max (duration_s c) 0).
Proof.
  unfold global_items. rewrite !compute_all_stats_eq. simpl.
  rewrite stitched_app. simpl. intros Hit Hk.
  rewrite lookup_app_r in Hit by lia.
  replace (_ + k - _)%nat with k in Hit by lia.
  rewrite lookup_app_l in Hit by (rewrite room_items_length; lia).
  unfold room_items in Hit.
  apply lookup_zip_with_Some in Hit as (c & s & -> & Hc & Hs).
  exists c, s. split_and!; [done..|]. f_equal.
Qed.

Lemma global_items_window before r after k it :
  global_items (before ++ r :: after)
    !! (length (global_items before) + k)%nat = Some it →
  (k < length (cues r))%nat →
  item_room_name it = room_name r ∧
  0 ≤ duration it ∧
  sum_room_end before ≤ start_time it ∧
  start_time it + duration it ≤ sum_room_end before + room_end_of r.
Proof.
  intros Hit Hk.
  destruct (global_items_lookup before r after k it Hit Hk)
    as (c & s & Hc & Hs & ->). simpl.
  pose proof (compute_schedule_nonneg _ _ _ Hs) as Hs0.
  assert (s + Z.max (duration_s c) 0 ≤ room_end_of r) as Hend.
  { apply max_of_elem. apply list_elem_of_fmap.
    exists (s, s + Z.max (duration_s c) 0). split; [done|].
    apply list_elem_of_lookup. exists k. unfold cue_intervals.
    apply lookup_zip_with_Some. eauto. }
  split_and!; [done|lia..].
Qed.

Lemma global_items_present before r after k :
  (k < length (cues r))%nat →
  is_Some (global_items (before ++ r :: after)
             !! (length (global_items before) + k)%nat).
Proof.
  intros Hk. apply lookup_lt_is_Some_2.
  unfold global_items. rewrite !compute_all_stats_eq. simpl.
  rewrite stitched_app. simpl. rewrite !length_app, room_items_length. lia.
Qed.

Lemma fold_left_add_from l : ∀ a, fold_left Z.add l a = a + foldr Z.add 0 l.
Proof.
  induction l as [|x l IH]; intros a; simpl; [lia|]. rewrite IH. lia.
Qed.

(** In the exact model the order of the additions does not matter. *)
Lemma accumulated_offset_sum rs : accumulated_offset rs = sum_room_end rs.
Proof.
  unfold accumulated_offset, sum_room_end. by rewrite fold_left_add_from.
Qed.

Lemma accumulated_offset_snoc rs r :
  accumulated_offset (rs ++ [r]) = accumulated_offset rs + room_end_of r.
Proof. unfold accumulated_offset. by rewrite fmap_app, fold_left_app. Qed.

Example scenario_D :
  start_time <$> global_items
    [mkRoomPlan "Reception" [cue_at "a" 0 20];
     mkRoomPlan "Mecca" [cue_at "b" 0 3]]
  = [0; 20].
Proof. reflexivity. Qed.

(** In binary64 an entry can end after the next room has started.  In
    [Binary64.tenths_show] the cue of the second room starts at
    [0.1 + 0.2] and lasts [0.3]; the third room starts at the offset
    [0.1 + (0.2 + 0.3)], which is smaller than [(0.1 + 0.2) + 0.3]: the two
    entries overlap, and the second entry ends after the offset accumulated
    for its own room.  The bounds on the ends of entries hold in exact
    arithmetic only. *)
Example binary64_rooms_overlap :
  ∃ b c,
    fst (Binary64.compute_all_stats Binary64.tenths_show) !! 1%nat = Some b ∧
    fst (Binary64.compute_all_stats Binary64.tenths_show) !! 2%nat = Some c ∧
    Binary64.item_room_name b = "Aljuhfa Path" ∧
    Binary64.item_room_name c = "Mecca" ∧
    PrimFloat.ltb (Binary64.start_time b) (Binary64.item_end c) = true ∧
    PrimFloat.ltb (Binary64.start_time c) (Binary64.item_end b) = true ∧
    PrimFloat.ltb
      (snd (Binary64.compute_all_stats (take 2 Binary64.tenths_show)))
      (Binary64.item_end b) = true.
Proof. do 2 eexists. vm_compute. repeat split. Qed.

(** C4, refuted as stated.  In [late_zero_room], of duration 10, the second
    cue lasts 0 seconds and follows the first: its absolute start is 10,
    which is not below the sum of the room ends up to and including its own
    room. *)
Lemma room_end_is_reached :
  global_items [late_zero_room] !! 1%nat
    = Some (mkGlobalTimelineItem "Reception" (cue_after_previous "b" 0) 10 0) ∧
  room_end_of late_zero_room = 10 ∧
  ¬ (10 < sum_room_end [] + room_end_of late_zero_room).
Proof. split_and!; [reflexivity..|]. vm_compute. discriminate. Qed.

(** C4, amended.  The offset a room starts at is the sum of the room ends
    before it, accumulated in room order.  Room [r]'s [k]-th cue appears in
    the global list right after the items of the rooms before it, under
    [r]'s name; its absolute start is that offset plus the cue's local
    start, which is at least the offset and at most the offset plus [r]'s
    own room end.  Hence an entry of an earlier room never starts after the
    offset of a later room, and an entry of the later room never before it.
    Nothing is said of where an entry ends: see [binary64_rooms_overlap]. *)
Theorem rooms_are_stitched_back_to_back :
  (∀ tabs, snd (compute_all_stats tabs) = accumulated_offset tabs)
  ∧ (∀ before r after k, (k < length (cues r))%nat →
     ∃ it local_start,
       global_items (before ++ r :: after)
         !! (length (global_items before) + k)%nat = Some it ∧
       item_room_name it = room_name r ∧
       compute_schedule (cues r) !! k = Some local_start ∧
       start_time it = accumulated_offset before + local_start ∧
       accumulated_offset before ≤ start_time it ∧
       start_time it ≤ accumulated_offset before + room_end_of r)
  ∧ (∀ before r1 mid r2 after k1 k2 it1 it2,
       (k1 < length (cues r1))%nat → (k2 < length (cues r2))%nat →
       global_items (before ++ r1 :: mid ++ r2 :: after)
         !! (length (global_items before) + k1)%nat = Some it1 →
       global_items (before ++ r1 :: mid ++ r2 :: after)
         !! (length (global_items (before ++ r1 :: mid)) + k2)%nat = Some it2 →
       start_time it1 ≤ accumulated_offset (before ++ r1 :: mid) ∧
       accumulated_offset (before ++ r1 :: mid) ≤ start_time it2).
Proof.
  split_and!.
  - intros tabs. by rewrite compute_all_stats_eq, accumulated_offset_sum.
  - intros before r after k Hk.
    destruct (global_items_present before r after k Hk) as [it Hit].
    destruct (global_items_window before r after k it Hit Hk)
      as (Hname & Hdur & Hlo & Hhi).
    destruct (global_items_lookup before r after k it Hit Hk)
      as (c & s & Hc & Hs & Heq).
    exists it, s. rewrite accumulated_offset_sum.
    split_and!; [done..| |done|lia]. by rewrite Heq.
  - intros before r1 mid r2 after k1 k2 it1 it2 Hk1 Hk2 H1 H2.
    destruct (global_items_window _ _ _ _ _ H1 Hk1) as (_ & Hd1 & _ & Hhi).
    replace (before ++ r1 :: mid ++ r2 :: after)
      with ((before ++ r1 :: mid) ++ r2 :: after) in H2
      by by rewrite <- app_assoc.
    destruct (global_items_window _ _ _ _ _ H2 Hk2) as (_ & Hd2 & Hlo & _).
    rewrite accumulated_offset_sum.
    rewrite sum_room_end_app, sum_room_end_cons in Hlo |- *.
    pose proof (sum_room_end_nonneg mid). lia.
Qed.

Lemma rooms_are_stitched_back_to_back_witness :
  (∃ it local_start,
     global_items ([mkRoomPlan "Reception" [cue_at "a" 0 20]]
                   ++ late_zero_room :: [])
       !! (length (global_items [mkRoomPlan "Reception" [cue_at "a" 0 20]]) + 1)%nat
       = Some it ∧
     item_room_name it = room_name late_zero_room ∧
     compute_schedule (cues late_zero_room) !! 1%nat = Some local_start ∧
     start_time it
     = accumulated_offset [mkRoomPlan "Reception" [cue_at "a" 0 20]]
       + local_start ∧
     accumulated_offset [mkRoomPlan "Reception" [cue_at "a" 0 20]]
       ≤ start_time it ∧
     start_time it
       ≤ accumulated_offset [mkRoomPlan "Reception" [cue_at "a" 0 20]]
         + room_end_of late_zero_room) ∧
  (40 ≤ accumulated_offset
          ([mkRoomPlan "Reception" [cue_at "a" 0 20]]
           ++ mkRoomPlan "Immersive Room" [cue_at "c" 20 0]
              :: [mkRoomPlan "Road to Yemen" []]) ∧
   accumulated_offset
     ([mkRoomPlan "Reception" [cue_at "a" 0 20]]
      ++ mkRoomPlan "Immersive Room" [cue_at "c" 20 0]
         :: [mkRoomPlan "Road to Yemen" []]) ≤ 40).
Proof.
  split.
  - apply (proj1 (proj2 rooms_are_stitched_back_to_back)
             [mkRoomPlan "Reception" [cue_at "a" 0 20]] late_zero_room [] 1%nat).
    simpl. lia.
  - apply (proj2 (proj2 rooms_are_stitched_back_to_back)
             [mkRoomPlan "Reception" [cue_at "a" 0 20]]
             (mkRoomPlan "Immersive Room" [cue_at "c" 20 0])
             [mkRoomPlan "Road to Yemen" []]
             (mkRoomPlan "Mecca" [cue_at "b" 0 3]) [] 0%nat 0%nat
             (mkGlobalTimelineItem "Immersive Room" (cue_at "c" 20 0) 40 0)
             (mkGlobalTimelineItem "Mecca" (cue_at "b" 0 3) 40 3));
      [simpl; lia|simpl; lia|reflexivity|reflexivity].
Defined.

(** ** Serialization *)

Lemma CueType_of_value_value t :
  CueType_of_value (VStr (CueType_value t)) = Some t.
Proof. by destruct t. Qed.

Lemma TriggerType_of_value_value t :
  TriggerType_of_value (VStr (TriggerType_value t)) = Some t.
Proof. by destruct t. Qed.

Lemma PlayType_of_value_value t :
  PlayType_of_value (VStr (PlayType_value t)) = Some t.
Proof. by destruct t. Qed.

Lemma StartMode_of_value_value t :
  StartMode_of_value (VStr (StartMode_value t)) = Some t.
Proof. by destruct t. Qed.

Lemma CueType_value_truthy t : truthy (VStr (CueType_value t)) = true.
Proof. by destruct t. Qed.

(** The nine entries of [to_dict]. *)
Lemma to_dict_lookup c :
  to_dict c !! "name" = Some (VStr (name c)) ∧
  to_dict c !! "cue_type" = Some (VStr (CueType_value (cue_type c))) ∧
  to_dict c !! "media_type" = None ∧
  to_dict c !! "trigger_type"
    = Some (VStr (TriggerType_value (trigger_type c))) ∧
  to_dict c !! "play_type" = Some (VStr (PlayType_value (play_type c))) ∧
  to_dict c !! "start_mode" = Some (VStr (StartMode_value (start_mode c))) ∧
  to_dict c !! "start_time_s" = Some (VNum (start_time_s c)) ∧
  to_dict c !! "duration_s" = Some (VNum (duration_s c)) ∧
  to_dict c !! "dependency_name"
    = Some (value_of_opt_str (dependency_name c)) ∧
  to_dict c !! "notes" = Some (VStr (notes c)).
Proof. split_and!; reflexivity. Qed.

Lemma comprehension_fmap_Ok {A B C} (f : B → outcome C) (g : A → B)
    (h : A → C) (l : list A) :
  (∀ x, f (g x) = Ok (h x)) → comprehension f (g <$> l) = Ok (h <$> l).
Proof.
  intros H. induction l as [|x l IH]; [done|].
  rewrite fmap_cons. cbn [comprehension]. by rewrite H, IH.
Qed.

Lemma comprehension_Raise {A B} (f : A → outcome B) (l : list A) x e :
  x ∈ l → f x = Raise e → ∃ e', comprehension f l = Raise e'.
Proof.
  intros Hx Hfx. induction l as [|y l IH]; [by apply elem_of_nil in Hx|].
  simpl. apply elem_of_cons in Hx as [<-|Hx].
  - rewrite Hfx. eauto.
  - destruct (IH Hx) as [e' ->]. destruct (f y); eauto.
Qed.

Lemma list_fmap_id_on {A} (f : A → A) (l : list A) :
  (∀ x, x ∈ l → f x = x) → f <$> l = l.
Proof.
  induction l as [|x l IH]; intros H; [done|].
  rewrite fmap_cons, H by left. rewrite IH; [done|]. intros; apply H. by right.
Qed.

Lemma normalize_cue_id c : dependency_name c ≠ Some "" → normalize_cue c = c.
Proof.
  intros H. destruct c as [n ct tt pt sm st dur [dep|] nt];
    unfold normalize_cue; simpl in *; [|done].
  destruct (String.eqb_spec dep ""); [congruence|done].
Qed.

Section decode_facts.
Variable float_of_str : string → option Z.

Lemma from_dict_to_dict c :
  from_dict float_of_str (to_dict c) = Ok (normalize_cue c).
Proof.
  destruct (to_dict_lookup c)
    as (Hn & Hct & Hmt & Htt & Hpt & Hsm & Hst & Hdur & Hdep & Hnotes).
  unfold from_dict, type_value, dict_get, dict_get_or.
  rewrite Hn, Hct, Hmt, Htt, Hpt, Hsm, Hst, Hdur, Hdep, Hnotes.
  cbn [from_option id].
  unfold py_or at 2. rewrite CueType_value_truthy.
  unfold py_or at 1. rewrite CueType_value_truthy.
  rewrite CueType_of_value_value, TriggerType_of_value_value,
    PlayType_of_value_value, StartMode_of_value_value.
  unfold normalize_cue, py_or.
  destruct (dependency_name c) as [dep|]; simpl; [|done].
  by destruct (negb (dep =? ""))%string.
Qed.

Lemma from_dict_bad_type data :
  CueType_of_value (type_value data) = None →
  from_dict float_of_str data = Raise ValueError.
Proof. intros H. unfold from_dict. by rewrite H. Qed.

Lemma from_dict_cue_type data c :
  from_dict float_of_str data = Ok c →
  CueType_of_value (type_value data) = Some (cue_type c).
Proof.
  unfold from_dict. intros H.
  repeat (case_match; try discriminate). by injection H as <-.
Qed.

Lemma from_dict_bad_enum data :
  has_bad_enum data → from_dict float_of_str data = Raise ValueError.
Proof.
  intros [(v & Hv & Ht & Hbad)|[(v & Hv & Hbad)|[(v & Hv & Hbad)|(v & Hv & Hbad)]]].
  - apply from_dict_bad_type. unfold type_value, dict_get. rewrite Hv. simpl.
    unfold py_or at 2. rewrite Ht. unfold py_or. by rewrite Ht.
  - unfold from_dict, dict_get_or. rewrite Hv. simpl. rewrite Hbad.
    by case_match.
  - unfold from_dict, dict_get_or. rewrite Hv. simpl. rewrite Hbad.
    by repeat case_match.
  - unfold from_dict, dict_get_or. rewrite Hv. simpl. rewrite Hbad.
    by repeat case_match.
Qed.

Lemma type_value_cue_type data v :
  data !! "cue_type" = Some v → truthy v = true → type_value data = v.
Proof.
  intros Hv Ht. unfold type_value, dict_get. rewrite Hv. simpl.
  unfold py_or at 2. rewrite Ht. unfold py_or. by rewrite Ht.
Qed.

Lemma unset_dict_get data key : unset data key → truthy (dict_get data key) = false.
Proof.
  unfold unset, dict_get. destruct (data !! key) as [v|]; simpl; [|done].
  intros H. by apply H.
Qed.

Lemma type_value_media_type data v :
  unset data "cue_type" → data !! "media_type" = Some v → truthy v = true →
  type_value data = v.
Proof.
  intros Hc Hv Ht. unfold type_value.
  unfold py_or at 2. rewrite (unset_dict_get _ _ Hc).
  unfold dict_get at 1. rewrite Hv. simpl. unfold py_or. by rewrite Ht.
Qed.

Lemma type_value_default data :
  unset data "cue_type" → unset data "media_type" →
  type_value data = VStr (CueType_value AUDIO).
Proof.
  intros Hc Hm. unfold type_value.
  unfold py_or at 2. rewrite (unset_dict_get _ _ Hc).
  unfold py_or. by rewrite (unset_dict_get _ _ Hm).
Qed.

Lemma reads_cue_type_from_type_value data :
  reads_cue_type_from float_of_str data (type_value data).
Proof.
  unfold reads_cue_type_from.
  destruct (CueType_of_value (type_value data)) as [t|] eqn:E.
  - intros c Hc. apply from_dict_cue_type in Hc. congruence.
  - by apply from_dict_bad_type.
Qed.

Lemma RoomPlan_round_trip r :
  RoomPlan_from_dict float_of_str (RoomPlan_to_dict r)
  = Ok (mkRoomPlan (room_name r) (normalize_cue <$> cues r)).
Proof.
  unfold RoomPlan_from_dict, RoomPlan_to_dict. simpl.
  rewrite (comprehension_fmap_Ok _ _ normalize_cue); [done|].
  apply from_dict_to_dict.
Qed.
End decode_facts.

(** C7, refuted as stated.  A cue whose dependency name is the empty string
    comes back from [to_dict] then [from_dict] with the name absent. *)
Lemma empty_dependency_name_is_dropped :
  from_dict float_of_digits (to_dict (cue_after "b" "" 0))
    = Ok (mkMediaCue "b" AUDIO TIMELINE PLAY_ONCE AFTER_CUE 0 0 None "") ∧
  from_dict float_of_digits (to_dict (cue_after "b" "" 0))
    ≠ Ok (cue_after "b" "" 0).
Proof.
  rewrite from_dict_to_dict. split; [reflexivity|]. discriminate.
Qed.

(** C7, amended.  [to_dict] then [from_dict] returns the cue with every
    field unchanged, except that an empty dependency name is read back as
    absent; so a cue whose dependency name is not the empty string comes
    back equal, and so does a room of such cues. *)
Theorem round_trip_up_to_empty_dependency (float_of_str : string → option Z) :
  (∀ c, from_dict float_of_str (to_dict c) = Ok (normalize_cue c))
  ∧ (∀ c, dependency_name c ≠ Some "" →
          from_dict float_of_str (to_dict c) = Ok c)
  ∧ (∀ r, RoomPlan_from_dict float_of_str (RoomPlan_to_dict r)
          = Ok (mkRoomPlan (room_name r) (normalize_cue <$> cues r)))
  ∧ (∀ r, (∀ c, c ∈ cues r → dependency_name c ≠ Some "") →
          RoomPlan_from_dict float_of_str (RoomPlan_to_dict r) = Ok r).
Proof.
  split_and!.
  - apply from_dict_to_dict.
  - intros c Hc. by rewrite from_dict_to_dict, normalize_cue_id.
  - apply RoomPlan_round_trip.
  - intros [n cs] Hcs. rewrite RoomPlan_round_trip. simpl in *.
    do 2 f_equal. apply list_fmap_id_on. intros c Hc.
    by apply normalize_cue_id, Hcs.
Qed.

Lemma round_trip_up_to_empty_dependency_witness :
  from_dict float_of_digits (to_dict (cue_after "b" "a" 7))
    = Ok (cue_after "b" "a" 7) ∧
  RoomPlan_from_dict float_of_digits
    (RoomPlan_to_dict
       (mkRoomPlan "Mecca" [cue_at "a" 5 5; cue_after "b" "a" 7]))
    = Ok (mkRoomPlan "Mecca" [cue_at "a" 5 5; cue_after "b" "a" 7]).
Proof.
  split.
  - apply (proj1 (proj2 (round_trip_up_to_empty_dependency float_of_digits))).
    discriminate.
  - apply (proj2 (proj2 (proj2
             (round_trip_up_to_empty_dependency float_of_digits)))).
    intros c Hc. simpl in Hc.
    repeat (apply elem_of_cons in Hc as [->|Hc]; [discriminate|]).
    by apply elem_of_nil in Hc.
Defined.

(** C8, refuted as stated.  The empty string is no display string of
    [CueType], yet a cue dictionary with ["cue_type": ""] is decoded, to an
    [Audio] cue, and the document holding it is loaded. *)
Lemma empty_cue_type_becomes_audio :
  CueType_of_value (VStr "") = None ∧
  from_dict float_of_digits {[ "cue_type" := VStr "" ]} = Ok (default_cue "") ∧
  open_file float_of_digits empty_cue_type_doc [mkRoomPlan "Mecca" []]
    = Opened [mkRoomPlan "Mecca" [default_cue ""]].
Proof. split_and!; reflexivity. Qed.

(** C8, amended.  A cue dictionary whose [trigger_type], [play_type] or
    [start_mode] value, or whose truthy [cue_type] value, names no member
    makes [from_dict] raise [ValueError]; the exception leaves
    [RoomPlan.from_dict] and [ShowPlan.from_dict] as an exception, and
    [_open_file] ends in its error dialog with every tab as it was. *)
Theorem bad_enum_aborts_load (float_of_str : string → option Z) :
  (∀ data, has_bad_enum data →
     from_dict float_of_str data = Raise ValueError)
  ∧ (∀ room data, has_bad_enum data →
       data ∈ default [] (rd_cues room) →
       ∃ e, RoomPlan_from_dict float_of_str room = Raise e)
  ∧ (∀ doc room data room_tabs, has_bad_enum data →
       data ∈ default [] (rd_cues room) →
       room ∈ default [] (sd_rooms doc) →
       (∃ e, ShowPlan_from_dict float_of_str doc = Raise e) ∧
       open_file float_of_str doc room_tabs = ErrorDialog room_tabs).
Proof.
  assert (∀ room data, has_bad_enum data →
            data ∈ default [] (rd_cues room) →
            ∃ e, RoomPlan_from_dict float_of_str room = Raise e) as Hroom.
  { intros room data Hbad Hin.
    destruct (comprehension_Raise (from_dict float_of_str) _ data ValueError Hin)
      as [e He]; [by apply from_dict_bad_enum|].
    exists e. unfold RoomPlan_from_dict. by rewrite He. }
  split_and!; [apply from_dict_bad_enum|done|].
  intros doc room data room_tabs Hbad Hin Hroomin.
  destruct (Hroom room data Hbad Hin) as [e He].
  destruct (comprehension_Raise (RoomPlan_from_dict float_of_str) _ room e
              Hroomin He) as [e' He'].
  assert (ShowPlan_from_dict float_of_str doc = Raise e') as Hshow.
  { unfold ShowPlan_from_dict. by rewrite He'. }
  split; [eauto|]. unfold open_file. by rewrite Hshow.
Qed.

Lemma bad_enum_aborts_load_witness :
  from_dict float_of_digits
    {[ "name" := VStr "a"; "start_mode" := VStr "at fixed time" ]}
    = Raise ValueError ∧
  ((∃ e, ShowPlan_from_dict float_of_digits
           (mk_show_doc (Some [mk_room_doc (Some (VStr "Mecca"))
              (Some [to_dict (cue_at "a" 0 1);
                     {[ "cue_type" := VStr "Video" ]}])])) = Raise e) ∧
   open_file float_of_digits
     (mk_show_doc (Some [mk_room_doc (Some (VStr "Mecca"))
        (Some [to_dict (cue_at "a" 0 1); {[ "cue_type" := VStr "Video" ]}])]))
     [mkRoomPlan "Mecca" [cue_at "old" 1 1]]
   = ErrorDialog [mkRoomPlan "Mecca" [cue_at "old" 1 1]]).
Proof.
  split.
  - apply (proj1 (bad_enum_aborts_load float_of_digits)).
    right. right. right. exists (VStr "at fixed time"). split; reflexivity.
  - apply (proj2 (proj2 (bad_enum_aborts_load float_of_digits))
             _ (mk_room_doc (Some (VStr "Mecca"))
                  (Some [to_dict (cue_at "a" 0 1);
                         {[ "cue_type" := VStr "Video" ]}]))
             {[ "cue_type" := VStr "Video" ]}).
    + left. exists (VStr "Video"). split_and!; reflexivity.
    + simpl. right. left.
    + simpl. left.
Defined.

(** C9, refuted as stated.  With ["cue_type": ""] and
    ["media_type": "TV"] the key ["cue_type"] is present, and reading it
    would fail; the cue is decoded with the legacy key's type. *)
Lemma present_but_empty_cue_type_is_skipped :
  claimed_type_value {[ "cue_type" := VStr ""; "media_type" := VStr "TV" ]}
    = VStr "" ∧
  CueType_of_value (VStr "") = None ∧
  from_dict float_of_digits
    {[ "cue_type" := VStr ""; "media_type" := VStr "TV" ]}
    = Ok (mkMediaCue "" TV TIMELINE PLAY_ONCE AT_TIME 0 0 None "").
Proof. split_and!; reflexivity. Qed.

(** C9, amended.  [from_dict] takes the cue type from key ["cue_type"] when
    it holds a truthy value, otherwise from key ["media_type"] when that
    holds a truthy value, otherwise it is [Audio]; a key holding a falsy
    value (empty string, null, zero, false, empty container) counts as
    missing. *)
Theorem cue_type_key_precedence (float_of_str : string → option Z) data :
  (∀ v, data !! "cue_type" = Some v → truthy v = true →
        reads_cue_type_from float_of_str data v)
  ∧ (∀ v, unset data "cue_type" →
          data !! "media_type" = Some v → truthy v = true →
          reads_cue_type_from float_of_str data v)
  ∧ (unset data "cue_type" → unset data "media_type" →
     reads_cue_type_from float_of_str data (VStr (CueType_value AUDIO))).
Proof.
  split_and!.
  - intros v Hv Ht. rewrite <- (type_value_cue_type data v Hv Ht).
    apply reads_cue_type_from_type_value.
  - intros v Hc Hv Ht. rewrite <- (type_value_media_type data v Hc Hv Ht).
    apply reads_cue_type_from_type_value.
  - intros Hc Hm. rewrite <- (type_value_default data Hc Hm).
    apply reads_cue_type_from_type_value.
Qed.

Lemma cue_type_key_precedence_witness :
  reads_cue_type_from float_of_digits
    {[ "cue_type" := VStr "Lighting"; "media_type" := VStr "TV" ]}
    (VStr "Lighting") ∧
  reads_cue_type_from float_of_digits
    {[ "name" := VStr "old"; "media_type" := VStr "TV" ]} (VStr "TV") ∧
  reads_cue_type_from float_of_digits
    {[ "name" := VStr "bare" ]} (VStr (CueType_value AUDIO)).
Proof.
  split_and!.
  - apply (proj1 (cue_type_key_precedence float_of_digits _) (VStr "Lighting"));
      reflexivity.
  - apply (proj1 (proj2 (cue_type_key_precedence float_of_digits _)) (VStr "TV"));
      [|reflexivity..].
    intros v Hv. exfalso. vm_compute in Hv. discriminate.
  - apply (proj2 (proj2 (cue_type_key_precedence float_of_digits _))).
    + intros v Hv. exfalso. vm_compute in Hv. discriminate.
    + intros v Hv. exfalso. vm_compute in Hv. discriminate.
Defined.

Example legacy_key_is_read :
  from_dict float_of_digits
    {[ "name" := VStr "old"; "media_type" := VStr "TV";
       "duration_s" := VStr "12" ]}
  = Ok (mkMediaCue "old" TV TIMELINE PLAY_ONCE AT_TIME 0 12 None "").
Proof. reflexivity. Qed.

Example missing_number_is_a_type_error :
  from_dict float_of_digits {[ "duration_s" := VNone ]} = Raise TypeError.
Proof. reflexivity. Qed.

Example non_string_name_is_ill_typed :
  from_dict float_of_digits {[ "name" := VNum 3 ]} = IllTyped.
Proof. reflexivity. Qed.

(** * Further properties *)

(** ** Scheduling *)

(** X1.  [compute_schedule] returns one start per cue, and no start is
    negative, whatever start times and durations the cues carry. *)
Theorem schedule_is_parallel_and_nonnegative cs :
  length (compute_schedule cs) = length cs ∧
  ∀ i s, compute_schedule cs !! i = Some s → 0 ≤ s.
Proof.
  split; [apply compute_schedule_length|apply compute_schedule_nonneg].
Qed.

Lemma schedule_is_parallel_and_nonnegative_witness : 0 ≤ 0.
Proof.
  apply (proj2 (schedule_is_parallel_and_nonnegative
                  [cue_at "a" (-5) (-5); cue_after_previous "b" 1]) 1%nat 0).
  reflexivity.
Defined.

Lemma find_dependency_timing cs1 cs2 dep k :
  (∀ j, (j < k)%nat → name (cs1 !!! j) = name (cs2 !!! j)) →
  find_dependency cs1 dep k = find_dependency cs2 dep k.
Proof.
  induction k as [|k IH]; simpl; [done|]. intros H.
  rewrite (H k) by lia. rewrite IH; [done|]. intros j Hj. apply H. lia.
Qed.

Lemma resolve_start_timing cs1 cs2 st index c c' :
  (∀ j, (j < index)%nat → same_timing (cs1 !!! j) (cs2 !!! j)) →
  start_mode c = start_mode c' → start_time_s c = start_time_s c' →
  dependency_name c = dependency_name c' →
  resolve_start cs1 st index c = resolve_start cs2 st index c'.
Proof.
  intros Hcs Hm Ht Hd. unfold resolve_start. rewrite <- Hm, <- Ht, <- Hd.
  destruct (start_mode c); [done| |].
  - destruct index as [|p]; [done|].
    destruct (Hcs p) as (_ & _ & _ & -> & _); [lia|done].
  - destruct (truthy_opt_str _); [|done].
    rewrite (find_dependency_timing cs1 cs2)
      by (intros j Hj; by destruct (Hcs j Hj)).
    destruct (find_dependency cs2 _ index) as [j|] eqn:E; [|done].
    apply find_dependency_Some in E as (Hlt & _).
    by destruct (Hcs j Hlt) as (_ & _ & _ & -> & _).
Qed.

Lemma nocursor_loop_timing cs1 cs2 todo1 todo2 index st :
  (∀ j, (j < index + length todo1)%nat → same_timing (cs1 !!! j) (cs2 !!! j)) →
  Forall2 same_timing todo1 todo2 →
  nocursor_loop cs1 todo1 index st = nocursor_loop cs2 todo2 index st.
Proof.
  intros Hcs Htodo. revert index st Hcs.
  induction Htodo as [|c c' todo1 todo2 Hc _ IH]; intros index st Hcs; [done|].
  simpl. destruct Hc as (_ & Hm & Ht & _ & Hd).
  rewrite (resolve_start_timing cs1 cs2 st index c c'); [|  |done..].
  - apply IH. intros j Hj. apply Hcs. simpl. lia.
  - intros j Hj. apply Hcs. simpl. lia.
Qed.

(** X2.  The schedule reads a cue's name, start mode, start time, duration
    and dependency name only: cue lists that agree on these fields, cue by
    cue, get the same starts, whatever their cue types, trigger types, play
    types and notes. *)
Theorem schedule_ignores_descriptive_fields cs cs' :
  Forall2 same_timing cs cs' → compute_schedule cs = compute_schedule cs'.
Proof.
  intros H. rewrite !compute_schedule_nocursor_eq.
  unfold compute_schedule_nocursor.
  apply nocursor_loop_timing; [|done].
  intros j Hj. simpl in Hj.
  destruct (lookup_lt_is_Some_2 cs j Hj) as [c Hc].
  destruct (Forall2_lookup_l _ _ _ _ _ H Hc) as (c' & Hc' & Hcc').
  by rewrite (list_lookup_total_correct _ _ _ Hc),
    (list_lookup_total_correct _ _ _ Hc').
Qed.

Lemma schedule_ignores_descriptive_fields_witness :
  compute_schedule
    [mkMediaCue "a" TV SENSOR LOOP AT_TIME 5 5 None "check volume";
     mkMediaCue "b" LIGHTING MANUAL AMBIENT AFTER_CUE 0 0 (Some "a") ""]
  = compute_schedule [cue_at "a" 5 5; cue_after "b" "a" 0].
Proof.
  apply schedule_ignores_descriptive_fields.
  repeat constructor.
Defined.

(** X3.  The start of a cue does not depend on its own duration, name or
    descriptive fields, nor on any cue after it: it is fixed by the cues
    before it and by its own start mode, start time and dependency name. *)
Theorem start_ignores_own_duration_and_later_cues l c c' r r' :
  start_mode c = start_mode c' → start_time_s c = start_time_s c' →
  dependency_name c = dependency_name c' →
  compute_schedule (l ++ c :: r) !! length l
  = compute_schedule (l ++ c' :: r') !! length l.
Proof.
  intros Hm Ht Hd.
  rewrite (compute_schedule_lookup (l ++ c :: r) (length l) c)
    by by rewrite list_lookup_middle.
  rewrite (compute_schedule_lookup (l ++ c' :: r') (length l) c')
    by by rewrite list_lookup_middle.
  destruct (compute_schedule_app l (c :: r)) as [ext ->].
  destruct (compute_schedule_app l (c' :: r')) as [ext' ->].
  f_equal.
  rewrite (resolve_start_ext _ l _ (compute_schedule l));
    [|intros j Hj; by rewrite lookup_total_app_l
     |intros j Hj; rewrite lookup_total_app_l;
        [done|by rewrite compute_schedule_length]].
  rewrite (resolve_start_ext (l ++ c' :: r') l _ (compute_schedule l));
    [|intros j Hj; by rewrite lookup_total_app_l
     |intros j Hj; rewrite lookup_total_app_l;
        [done|by rewrite compute_schedule_length]].
  apply resolve_start_timing; [|done..].
  intros j Hj. by repeat split.
Qed.

Lemma start_ignores_own_duration_and_later_cues_witness :
  compute_schedule ([cue_at "a" 5 5] ++ cue_after "b" "a" 3 :: [cue_at "c" 9 9])
    !! length [cue_at "a" 5 5]
  = compute_schedule ([cue_at "a" 5 5] ++ cue_after "z" "a" 70 :: [])
    !! length [cue_at "a" 5 5].
Proof.
  apply start_ignores_own_duration_and_later_cues; reflexivity.
Defined.

Lemma clamped_total_snoc cs c :
  clamped_total (cs ++ [c]) = clamped_total cs + Z.max (duration_s c) 0.
Proof.
  unfold clamped_total. induction cs as [|c0 cs IH]; simpl; [lia|].
  rewrite IH. lia.
Qed.

Lemma clamped_total_nonneg cs : 0 ≤ clamped_total cs.
Proof. unfold clamped_total. induction cs as [|c cs IH]; simpl; lia. Qed.

Lemma compute_schedule_chained cs i s0 :
  (∀ k c, (0 < k)%nat → cs !! k = Some c → start_mode c = AFTER_PREVIOUS) →
  compute_schedule cs !! 0%nat = Some s0 →
  (i < length cs)%nat →
  compute_schedule cs !! i = Some (s0 + clamped_total (take i cs)).
Proof.
  intros Hchain H0 Hi. induction i as [|i IH].
  - rewrite H0. f_equal. unfold clamped_total. simpl. lia.
  - destruct (lookup_lt_is_Some_2 cs (S i) Hi) as [c Hc].
    destruct (lookup_lt_is_Some_2 cs i ltac:(lia)) as [cp Hcp].
    rewrite (compute_schedule_lookup cs (S i) c Hc). unfold resolve_start.
    rewrite (Hchain (S i) c ltac:(lia) Hc).
    assert (i < length cs)%nat as Hi' by lia. specialize (IH Hi').
    apply list_lookup_total_correct in IH as ->.
    pose proof Hcp as Hcpt. apply list_lookup_total_correct in Hcpt as ->.
    rewrite (take_S_r _ _ _ Hcp), clamped_total_snoc. f_equal. lia.
Qed.

Lemma fold_left_clamped cs : ∀ s0,
  fold_left (λ t c, t + Z.max (duration_s c) 0) cs s0 = s0 + clamped_total cs.
Proof.
  unfold clamped_total. induction cs as [|c cs IH]; intros s0; simpl; [lia|].
  rewrite IH. lia.
Qed.

(** X4.  In a room whose cues after the first all start after the previous
    cue, the starts are a running sum: cue [i] starts at the first cue's
    start with the clamped durations of the cues before it added one by
    one, in cue order. *)
Theorem chained_room_starts cs i s0 :
  (∀ k c, (0 < k)%nat → cs !! k = Some c → start_mode c = AFTER_PREVIOUS) →
  compute_schedule cs !! 0%nat = Some s0 →
  (i < length cs)%nat →
  compute_schedule cs !! i
  = Some (fold_left (λ t c, t + Z.max (duration_s c) 0) (take i cs) s0).
Proof.
  intros Hchain H0 Hi. rewrite fold_left_clamped.
  by apply compute_schedule_chained.
Qed.

Lemma chained_room_starts_witness :
  compute_schedule
    [cue_at "a" 5 5; cue_after_previous "b" (-2); cue_after_previous "c" 4;
     cue_after_previous "d" 1] !! 3%nat
  = Some (fold_left (λ t c, t + Z.max (duration_s c) 0)
            (take 3 [cue_at "a" 5 5; cue_after_previous "b" (-2);
                     cue_after_previous "c" 4; cue_after_previous "d" 1]) 5).
Proof.
  apply chained_room_starts; [|reflexivity|simpl; lia].
  intros [|[|[|[|k]]]] c Hk Hc; try lia; simpl in Hc; try discriminate;
    by injection Hc as <-.
Defined.

(** ** Lane allocation *)

(** X5.  Lanes are handed out without gaps: every lane index below the
    number of lanes holds some item, every item's lane is below that number,
    and there are never more lanes than items. *)
Theorem lanes_are_contiguous intervals :
  (∀ a l, compute_lanes intervals !! a = Some l →
          (l < num_lanes (compute_lanes intervals))%nat)
  ∧ (∀ j, (j < num_lanes (compute_lanes intervals))%nat →
          ∃ a, compute_lanes intervals !! a = Some j)
  ∧ (num_lanes (compute_lanes intervals) ≤ length intervals)%nat.
Proof.
  destruct (greedy_lanes_inv (length intervals)
              (λ i, fst (intervals !!! i)) (λ i, snd (intervals !!! i)))
    as (done & ends & Hdone & Hinv).
  fold (compute_lanes intervals) in Hinv.
  rewrite (lane_inv_num_lanes _ _ _ done ends _ Hdone Hinv).
  destruct Hinv as [Hlen Hbound Htop _ _]; simpl in *.
  split_and!.
  - intros a l Ha. destruct (Hbound a) as (l' & Hl' & Hlt); [|congruence].
    apply Hdone. apply lookup_lt_Some in Ha. lia.
  - intros j Hj. destruct (Htop j Hj) as (y & _ & Hy & _). eauto.
  - apply finite_choice in Htop as (tops & Hlentops & Htops).
    rewrite <- Hlentops.
    cut (length tops ≤ length (seq 0 (length intervals)))%nat;
      [by rewrite length_seq|].
    apply submseteq_length, NoDup_submseteq.
    + apply NoDup_alt. intros j1 j2 y H1 H2.
      apply Htops in H1 as (_ & H1 & _). apply Htops in H2 as (_ & H2 & _).
      congruence.
    + intros y (j & Hj)%list_elem_of_lookup.
      apply Htops in Hj as (Hy & _). apply Hdone in Hy.
      apply elem_of_seq. lia.
Qed.

Lemma lanes_are_contiguous_witness :
  (1 < num_lanes (compute_lanes [(0, 10); (0, 5); (10, 12)]%Z))%nat ∧
  ∃ a, compute_lanes [(0, 10); (0, 5); (10, 12)] !! a = Some 1%nat.
Proof.
  split.
  - apply (proj1 (lanes_are_contiguous [(0, 10); (0, 5); (10, 12)]) 1%nat).
    reflexivity.
  - apply (proj1 (proj2 (lanes_are_contiguous [(0, 10); (0, 5); (10, 12)]))).
    simpl. lia.
Defined.

Section order_only.
Variable f : Z → Z.
Hypothesis f_order : ∀ x y, x ≤ y ↔ f x ≤ f y.

Lemma f_leb x y : (f x <=? f y) = (x <=? y).
Proof.
  pose proof (f_order x y).
  destruct (Z.leb_spec (f x) (f y)), (Z.leb_spec x y); done || lia.
Qed.

Lemma f_geb x y : (f x >=? f y) = (x >=? y).
Proof.
  pose proof (f_order y x).
  destruct (Z.geb_spec (f x) (f y)), (Z.geb_spec x y); done || lia.
Qed.

Lemma sort_insert_order key i l :
  sort_insert (λ j, f (key j)) i l = sort_insert key i l.
Proof.
  induction l as [|j l IH]; simpl; [done|]. by rewrite IH, f_leb.
Qed.

Lemma sort_by_key_order key l :
  sort_by_key (λ j, f (key j)) l = sort_by_key key l.
Proof.
  induction l as [|i l IH]; simpl; [done|]. by rewrite IH, sort_insert_order.
Qed.

Lemma first_free_lane_order start ends k :
  first_free_lane (f start) (f <$> ends) k = first_free_lane start ends k.
Proof.
  revert k. induction ends as [|e ends IH]; intros k; [done|].
  rewrite fmap_cons. cbn [first_free_lane]. by rewrite IH, f_geb.
Qed.

Lemma place_item_order start_of end_of ends lanes i :
  place_item (λ j, f (start_of j)) (λ j, f (end_of j)) (f <$> ends, lanes) i
  = (f <$> fst (place_item start_of end_of (ends, lanes) i),
     snd (place_item start_of end_of (ends, lanes) i)).
Proof.
  unfold place_item. rewrite first_free_lane_order, length_fmap.
  destruct (first_free_lane _ _ _) as [j|]; simpl.
  - by rewrite list_fmap_insert.
  - by rewrite fmap_app.
Qed.

Lemma fold_place_item_order start_of end_of order : ∀ ends lanes,
  fold_left (place_item (λ j, f (start_of j)) (λ j, f (end_of j))) order
    (f <$> ends, lanes)
  = (f <$> fst (fold_left (place_item start_of end_of) order (ends, lanes)),
     snd (fold_left (place_item start_of end_of) order (ends, lanes))).
Proof.
  induction order as [|i order IH]; intros ends lanes; [done|].
  cbn [fold_left]. rewrite place_item_order.
  destruct (place_item start_of end_of (ends, lanes) i) as [ends' lanes'].
  apply IH.
Qed.

Lemma greedy_lanes_order n start_of end_of :
  greedy_lanes n (λ j, f (start_of j)) (λ j, f (end_of j))
  = greedy_lanes n start_of end_of.
Proof.
  rewrite !greedy_lanes_unfold, sort_by_key_order.
  by rewrite (fold_place_item_order start_of end_of _ []).
Qed.

End order_only.

(** X6.  The lanes depend only on how the starts and ends compare: mapping
    every start and every end through an order-preserving and
    order-reflecting function leaves the lane of every interval unchanged. *)
Theorem lanes_depend_on_order_only (f : Z → Z) intervals :
  (∀ x y, x ≤ y ↔ f x ≤ f y) →
  compute_lanes ((λ iv, (f (fst iv), f (snd iv))) <$> intervals)
  = compute_lanes intervals.
Proof.
  intros Hf. unfold compute_lanes at 1. rewrite length_fmap.
  rewrite (greedy_lanes_ext _ _ _
             (λ j, f (fst (intervals !!! j))) (λ j, f (snd (intervals !!! j)))).
  - by apply greedy_lanes_order.
  - intros i Hi. destruct (lookup_lt_is_Some_2 intervals i Hi) as [iv Hiv].
    by rewrite !list_lookup_total_alt, list_lookup_fmap, Hiv.
Qed.

Lemma lanes_depend_on_order_only_witness :
  compute_lanes ((λ iv, (2 * fst iv + 3, 2 * snd iv + 3))
                   <$> [(0, 10); (0, 5); (5, 12)])
  = compute_lanes [(0, 10); (0, 5); (5, 12)].
Proof.
  apply (lanes_depend_on_order_only (λ x, 2 * x + 3) [(0, 10); (0, 5); (5, 12)]).
  intros x y. lia.
Defined.

Lemma chain_fold n start_of end_of order : ∀ placed ends,
  (ends = [] ∧ placed = [] ∨ ∃ y, y ∈ placed ∧ ends = [end_of y]) →
  StronglySorted (λ a b, end_of a ≤ start_of b) (placed ++ order) →
  snd (fold_left (place_item start_of end_of) order (ends, replicate n 0%nat))
  = replicate n 0%nat.
Proof.
  induction order as [|x order IH]; intros placed ends Hends Hsorted; [done|].
  cbn [fold_left].
  rewrite cons_middle, app_assoc in Hsorted.
  assert (∀ b, b ∈ placed → end_of b ≤ start_of x) as Hle.
  { intros b Hb. apply StronglySorted_app_1_l in Hsorted.
    apply (StronglySorted_app_1_elem_of _ _ _ b x Hsorted); [done|by left]. }
  assert (place_item start_of end_of (ends, replicate n 0%nat) x
          = ([end_of x], replicate n 0%nat)) as ->.
  { unfold place_item. destruct Hends as [[-> _]|(y & Hy & ->)]; simpl.
    - by rewrite insert_replicate.
    - specialize (Hle y Hy). destruct (Z.geb_spec (start_of x) (end_of y)); [|lia].
      simpl. by rewrite insert_replicate. }
  apply (IH (placed ++ [x])); [|done].
  right. exists x. split; [|done]. apply elem_of_app. right. by left.
Qed.

Lemma sort_by_key_sorted_id key l :
  StronglySorted (λ a b, key a ≤ key b) l → sort_by_key key l = l.
Proof.
  induction 1 as [|i l Hl IH Hi]; simpl; [done|]. rewrite IH.
  destruct l as [|j l']; simpl; [done|].
  apply Forall_cons in Hi as [Hij _].
  destruct (Z.leb_spec (key i) (key j)); [done|lia].
Qed.

Lemma StronglySorted_seq (R : nat → nat → Prop) k n :
  (∀ i j, (k ≤ i < j)%nat → (j < k + n)%nat → R i j) →
  StronglySorted R (seq k n).
Proof.
  revert k. induction n as [|n IH]; intros k H; simpl; constructor.
  - apply IH. intros i j Hij Hj. apply H; lia.
  - apply Forall_forall. intros j Hj%elem_of_seq. apply H; lia.
Qed.

(** X7.  Intervals that follow one another in input order (each starts no
    earlier than every interval before it starts and ends) all go to lane
    0; in particular a room whose cues after the first all start after the
    previous cue is drawn on a single lane. *)
Theorem chained_intervals_share_one_lane :
  (∀ intervals,
     (∀ i j ivi ivj, (i < j)%nat →
        intervals !! i = Some ivi → intervals !! j = Some ivj →
        fst ivi ≤ fst ivj ∧ snd ivi ≤ fst ivj) →
     compute_lanes intervals = replicate (length intervals) 0%nat)
  ∧ (∀ cs,
       (∀ k c, (0 < k)%nat → cs !! k = Some c →
               start_mode c = AFTER_PREVIOUS) →
       room_lanes cs = replicate (length cs) 0%nat).
Proof.
  assert (∀ intervals,
     (∀ i j ivi ivj, (i < j)%nat →
        intervals !! i = Some ivi → intervals !! j = Some ivj →
        fst ivi ≤ fst ivj ∧ snd ivi ≤ fst ivj) →
     compute_lanes intervals = replicate (length intervals) 0%nat) as Hgen.
  { intros intervals Hchain. unfold compute_lanes.
    rewrite greedy_lanes_unfold.
    assert (∀ i j, (0 ≤ i < j)%nat → (j < 0 + length intervals)%nat →
              fst (intervals !!! i) ≤ fst (intervals !!! j) ∧
              snd (intervals !!! i) ≤ fst (intervals !!! j)) as Hchain'.
    { intros i j Hij Hj. apply (Hchain i j); [lia| |];
        apply list_lookup_lookup_total_lt; lia. }
    rewrite sort_by_key_sorted_id
      by (apply StronglySorted_seq; intros; by apply Hchain').
    apply (chain_fold _ _ _ _ [] []); [by left|]. simpl.
    apply StronglySorted_seq; intros; by apply Hchain'. }
  split; [done|]. intros cs Hchain. unfold room_lanes.
  rewrite TimelineView_as_intervals by apply compute_schedule_length.
  rewrite Hgen.
  - unfold cue_intervals.
    by rewrite length_zip_with, compute_schedule_length, Nat.min_id.
  - intros i j ivi ivj Hij Hi Hj. unfold cue_intervals in Hi, Hj.
    apply lookup_zip_with_Some in Hi as (ci & si & -> & Hci & Hsi).
    apply lookup_zip_with_Some in Hj as (cj & sj & -> & Hcj & Hsj). simpl.
    assert (j < length cs)%nat as Hjlen by by apply lookup_lt_Some in Hcj.
    destruct (lookup_lt_is_Some_2 (compute_schedule cs) 0) as [s0 Hs0];
      [rewrite compute_schedule_length; lia|].
    rewrite (compute_schedule_chained cs i s0 Hchain Hs0) in Hsi by lia.
    rewrite (compute_schedule_chained cs j s0 Hchain Hs0) in Hsj by lia.
    injection Hsi as <-. injection Hsj as <-.
    assert (clamped_total (take i cs) + Z.max (duration_s ci) 0
            ≤ clamped_total (take j cs)) as Hmono.
    { rewrite <- clamped_total_snoc, <- (take_S_r _ _ _ Hci).
      replace (take j cs) with (take (S i) cs ++ drop (S i) (take j cs)).
      - unfold clamped_total. rewrite foldr_app.
        generalize (take (S i) cs). intros l.
        pose proof (clamped_total_nonneg (drop (S i) (take j cs))) as Hn.
        unfold clamped_total in Hn. revert Hn.
        generalize (foldr (λ c acc, Z.max (duration_s c) 0 + acc) 0
                      (drop (S i) (take j cs))).
        intros z Hz. induction l as [|c l IH]; simpl; lia.
      - rewrite <- (take_drop (S i) (take j cs)) at 2. f_equal.
        rewrite take_take. f_equal. lia. }
    lia.
Qed.

Lemma chained_intervals_share_one_lane_witness :
  compute_lanes [(0, 5); (5, 5); (5, 9)] = replicate 3 0%nat ∧
  room_lanes [cue_at "a" 2 5; cue_after_previous "b" 0;
              cue_after_previous "c" 4]
  = replicate 3 0%nat.
Proof.
  split.
  - apply (proj1 chained_intervals_share_one_lane [(0, 5); (5, 5); (5, 9)]).
    intros [|[|[|i]]] [|[|[|j]]] ivi ivj Hij Hi Hj; try lia;
      simpl in Hi, Hj; try discriminate;
      injection Hi as <-; injection Hj as <-; simpl; lia.
  - apply (proj2 chained_intervals_share_one_lane
             [cue_at "a" 2 5; cue_after_previous "b" 0;
              cue_after_previous "c" 4]).
    intros [|[|[|k]]] c Hk Hc; try lia; simpl in Hc; try discriminate;
      by injection Hc as <-.
Defined.

(** ** Global timeline *)

Lemma room_items_cues rname off cs : cue <$> room_items rname off cs = cs.
Proof.
  unfold room_items.
  pose proof (compute_schedule_length cs) as Hlen. revert Hlen.
  generalize (compute_schedule cs) as starts.
  induction cs as [|c cs IH]; intros [|s starts] Hlen; simpl in *;
    [done|lia|lia|]. f_equal. apply IH. lia.
Qed.

Lemma room_items_spec rname off cs it :
  it ∈ room_items rname off cs →
  item_room_name it = rname ∧ duration it = Z.max (duration_s (cue it)) 0.
Proof.
  unfold room_items. intros (i & Hi)%list_elem_of_lookup.
  by apply lookup_zip_with_Some in Hi as (c & s & -> & _ & _).
Qed.

Lemma stitched_cues off tabs :
  cue <$> stitched off tabs = mjoin (cues <$> tabs).
Proof.
  revert off. induction tabs as [|r tabs IH]; intros off; [done|].
  cbn [stitched]. rewrite fmap_app, room_items_cues, IH. done.
Qed.

Lemma stitched_durations off tabs it :
  it ∈ stitched off tabs → duration it = Z.max (duration_s (cue it)) 0.
Proof.
  revert off. induction tabs as [|r tabs IH]; intros off; cbn [stitched].
  - by intros ?%elem_of_nil.
  - intros [H|H]%elem_of_app.
    + apply room_items_spec in H. tauto.
    + by apply (IH _ H).
Qed.

(** X8.  The global timeline lists every cue of every room exactly once,
    room by room in tab order and in each room's own cue order, each with
    its duration clamped at 0. *)
Theorem global_items_list_all_cues_in_order tabs :
  cue <$> global_items tabs = mjoin (cues <$> tabs) ∧
  ∀ it, it ∈ global_items tabs →
        duration it = Z.max (duration_s (cue it)) 0.
Proof.
  unfold global_items. rewrite compute_all_stats_eq. simpl.
  split; [apply stitched_cues|apply stitched_durations].
Qed.

Lemma global_items_list_all_cues_in_order_witness :
  duration (mkGlobalTimelineItem "Mecca" (cue_at "b" 0 (-3)) 20 0)
  = Z.max (duration_s (cue (mkGlobalTimelineItem "Mecca" (cue_at "b" 0 (-3)) 20 0))) 0.
Proof.
  apply (proj2 (global_items_list_all_cues_in_order
                  [mkRoomPlan "Reception" [cue_at "a" 0 20];
                   mkRoomPlan "Mecca" [cue_at "b" 0 (-3)]])).
  right. left.
Defined.

Lemma total_duration_loop items : ∀ acc,
  let r := fold_left
             (λ max_end item,
                let end_ := start_time item + Z.max (duration item) 0 in
                if end_ >? max_end then end_ else max_end)
             items acc in
  acc ≤ r ∧
  (∀ it, it ∈ items → start_time it + Z.max (duration it) 0 ≤ r) ∧
  (r = acc ∨ ∃ it, it ∈ items ∧ r = start_time it + Z.max (duration it) 0).
Proof.
  induction items as [|x items IH]; intros acc; cbn [fold_left].
  - split_and!; [done| |by left]. by intros it ?%elem_of_nil.
  - cbv zeta in IH |- *.
    destruct (Z.gtb_spec (start_time x + Z.max (duration x) 0) acc)
      as [Hgt|Hle].
    + destruct (IH (start_time x + Z.max (duration x) 0))
        as (Hge & Hall & Hex).
      split_and!; [lia| |].
      * intros it [->|Hit]%elem_of_cons; [done|by apply Hall].
      * right. destruct Hex as [->|(it & Hit & ->)].
        -- exists x. split; [by left|done].
        -- exists it. split; [by right|done].
    + destruct (IH acc) as (Hge & Hall & Hex).
      split_and!; [done| |].
      * intros it [->|Hit]%elem_of_cons; [lia|by apply Hall].
      * destruct Hex as [->|(it & Hit & ->)]; [by left|].
        right. exists it. split; [by right|done].
Qed.

(** X9.  The duration the global view reports is the latest end of its
    items, an item ending at [start_time + max(duration, 0)]: no item ends
    after it, and it is the end of one of the items unless it is 0, as it
    is for a view without items. *)
Theorem total_duration_is_latest_end items :
  0 ≤ total_duration items ∧
  (∀ it, it ∈ items →
         start_time it + Z.max (duration it) 0 ≤ total_duration items) ∧
  (total_duration items = 0 ∨
   ∃ it, it ∈ items ∧
         total_duration items = start_time it + Z.max (duration it) 0).
Proof.
  destruct items as [|x items].
  - split_and!; [done| |by left]. by intros it ?%elem_of_nil.
  - apply (total_duration_loop (x :: items) 0).
Qed.

Lemma total_duration_is_latest_end_witness :
  20 + Z.max 3 0
  ≤ total_duration
      [mkGlobalTimelineItem "Reception" (cue_at "a" 0 20) 0 20;
       mkGlobalTimelineItem "Mecca" (cue_at "b" 0 3) 20 3;
       mkGlobalTimelineItem "Mecca" (cue_at "c" 5 (-4)) 25 (-4)].
Proof.
  apply (proj1 (proj2 (total_duration_is_latest_end
           [mkGlobalTimelineItem "Reception" (cue_at "a" 0 20) 0 20;
            mkGlobalTimelineItem "Mecca" (cue_at "b" 0 3) 20 3;
            mkGlobalTimelineItem "Mecca" (cue_at "c" 5 (-4)) 25 (-4)]))
         (mkGlobalTimelineItem "Mecca" (cue_at "b" 0 3) 20 3)).
  right. left.
Defined.

(** X10.  A room without cues leaves no trace in the global timeline: the
    items and the show duration are those of the show without it. *)
Theorem empty_room_is_transparent before r after :
  cues r = [] →
  compute_all_stats (before ++ r :: after) = compute_all_stats (before ++ after).
Proof.
  intros Hr. unfold compute_all_stats. rewrite !fold_left_app. simpl.
  f_equal. destruct (fold_left room_step before ([], 0)) as [gi off].
  unfold room_step. by rewrite Hr.
Qed.

Lemma empty_room_is_transparent_witness :
  compute_all_stats
    ([mkRoomPlan "Reception" [cue_at "a" 0 20]]
     ++ mkRoomPlan "Aljuhfa Path" [] :: [mkRoomPlan "Mecca" [cue_at "b" 0 3]])
  = compute_all_stats
      ([mkRoomPlan "Reception" [cue_at "a" 0 20]]
       ++ [mkRoomPlan "Mecca" [cue_at "b" 0 3]]).
Proof. apply empty_room_is_transparent. reflexivity. Defined.

Lemma room_items_mono rname off off' cs :
  off ≤ off' →
  Forall2 not_earlier (room_items rname off' cs) (room_items rname off cs).
Proof.
  intros Hoff. unfold room_items. generalize (compute_schedule cs) as starts.
  induction cs as [|c cs IH]; intros [|s starts]; cbn [zip_with];
    [constructor..|].
  constructor; [|apply IH]. unfold not_earlier. simpl. split_and!; [done..|lia].
Qed.

Lemma stitched_mono tabs : ∀ off off',
  off ≤ off' → Forall2 not_earlier (stitched off' tabs) (stitched off tabs).
Proof.
  induction tabs as [|r tabs IH]; intros off off' Hoff; cbn [stitched].
  - constructor.
  - apply Forall2_app; [by apply room_items_mono|]. apply IH. lia.
Qed.

(** X11.  Putting a room in front of a show moves nothing earlier: the new
    room's own items come first, as in a show of that room alone; after
    them come the items of the rest, each under its room name, with its cue
    and its duration, and starting no earlier than without the new room;
    and the total show duration does not shrink. *)
Theorem prepended_room_moves_nothing_earlier r tabs :
  ∃ rest,
    global_items (r :: tabs) = global_items [r] ++ rest ∧
    Forall2 not_earlier rest (global_items tabs) ∧
    snd (compute_all_stats tabs) ≤ snd (compute_all_stats (r :: tabs)).
Proof.
  unfold global_items. rewrite !compute_all_stats_eq. simpl.
  exists (stitched (0 + room_end_of r) tabs).
  rewrite app_nil_r, sum_room_end_cons.
  pose proof (room_end_of_nonneg r).
  split_and!; [done| |lia]. apply stitched_mono. lia.
Qed.

(** ** Serialization *)

Lemma cue_defaults_unique key d1 d2 :
  (key, d1) ∈ cue_defaults → (key, d2) ∈ cue_defaults → d1 = d2.
Proof.
  intros H1 H2.
  assert (NoDup (fst <$> cue_defaults)) as Hnd
    by (apply (bool_decide_unpack _); by vm_compute).
  apply (elem_of_list_to_map_1 (M := gmap string) _ _ _ Hnd) in H1.
  apply (elem_of_list_to_map_1 (M := gmap string) _ _ _ Hnd) in H2.
  congruence.
Qed.

Section decode_more.
Variable float_of_str : string → option Z.

(** [from_dict] reads the dictionary through these ten lookups only. *)
Lemma from_dict_ext data1 data2 :
  (∀ key dflt, (key, dflt) ∈ cue_defaults →
     default dflt (data1 !! key) = default dflt (data2 !! key)) →
  from_dict float_of_str data1 = from_dict float_of_str data2.
Proof.
  intros H. unfold from_dict, type_value, dict_get, dict_get_or.
  rewrite (H "name" (VStr "")), (H "cue_type" VNone), (H "media_type" VNone),
    (H "trigger_type" (VStr (TriggerType_value TIMELINE))),
    (H "play_type" (VStr (PlayType_value PLAY_ONCE))),
    (H "start_mode" (VStr (StartMode_value AT_TIME))),
    (H "start_time_s" (VNum 0)), (H "duration_s" (VNum 0)),
    (H "dependency_name" VNone), (H "notes" (VStr "")); [done|..];
    unfold cue_defaults; simpl; rewrite !elem_of_cons; tauto.
Qed.

(** X12.  [from_dict] ignores every key it does not know: adding or
    changing such an entry changes neither the cue nor the error. *)
Theorem from_dict_ignores_unknown_keys data key v :
  key ∉ fst <$> cue_defaults →
  from_dict float_of_str (<[key := v]> data) = from_dict float_of_str data.
Proof.
  intros Hkey. apply from_dict_ext. intros k dflt Hk.
  rewrite lookup_insert_ne; [done|]. intros ->. apply Hkey.
  apply list_elem_of_fmap. by exists (k, dflt).
Qed.

(** X13.  A missing key is read as its default: storing the default under a
    key the dictionary lacks changes nothing.  The defaults are the empty
    string for [name] and [notes], [null] for [cue_type], [media_type] and
    [dependency_name], the first member's display string for
    [trigger_type], [play_type] and [start_mode], and 0 for the numbers. *)
Theorem from_dict_missing_key_is_default data key dflt :
  (key, dflt) ∈ cue_defaults → data !! key = None →
  from_dict float_of_str (<[key := dflt]> data) = from_dict float_of_str data.
Proof.
  intros Hkey Hnone. apply from_dict_ext. intros k d Hk.
  destruct (decide (key = k)) as [->|Hne].
  - rewrite lookup_insert_eq, Hnone. simpl.
    apply (cue_defaults_unique k); done.
  - by rewrite lookup_insert_ne.
Qed.

Lemma as_opt_str_or_None v : as_opt_str (py_or v VNone) ≠ Some (Some "").
Proof.
  unfold py_or. destruct v as [|b|x|s|ne]; simpl; try done.
  - by destruct b.
  - by destruct (negb (x =? 0)).
  - destruct (String.eqb_spec s ""); simpl; [done|congruence].
  - by destruct ne.
Qed.

Lemma from_dict_dependency_name data c :
  from_dict float_of_str data = Ok c → dependency_name c ≠ Some "".
Proof.
  intros H Hdep.
  apply (as_opt_str_or_None (dict_get data "dependency_name")).
  rewrite <- Hdep. revert H. unfold from_dict. intros H.
  repeat (case_match; try discriminate). by injection H as <-.
Qed.

(** X14.  Whatever [from_dict] returns is a fixed point of the round trip:
    its dependency name is never the empty string, and saving it with
    [to_dict] and reading it back returns the same cue. *)
Theorem loaded_cue_round_trips data c :
  from_dict float_of_str data = Ok c →
  dependency_name c ≠ Some "" ∧ from_dict float_of_str (to_dict c) = Ok c.
Proof.
  intros H. apply from_dict_dependency_name in H. split; [done|].
  by rewrite from_dict_to_dict, normalize_cue_id.
Qed.

Lemma comprehension_Ok {A B} (f : A → outcome B) l ys :
  comprehension f l = Ok ys ↔ Forall2 (λ x y, f x = Ok y) l ys.
Proof.
  revert ys. induction l as [|x l IH]; intros ys; simpl.
  - split; [by intros [= <-]; constructor|by inversion 1].
  - split.
    + destruct (f x) as [y| |] eqn:Hx; [|done|by destruct (comprehension f l)].
      destruct (comprehension f l) as [ys'| |] eqn:Hl; [|done..].
      intros [= <-]. constructor; [done|]. by apply IH.
    + inversion 1 as [|? y ? ys' Hx Hl]; subst. rewrite Hx.
      apply IH in Hl. by rewrite Hl.
Qed.

Lemma comprehension_first_Raise {A B} (f : A → outcome B) l1 x l2 e :
  (∀ y e', y ∈ l1 → f y ≠ Raise e') → f x = Raise e →
  comprehension f (l1 ++ x :: l2) = Raise e.
Proof.
  intros Hl1 Hx. induction l1 as [|y l1 IH]; simpl.
  - by rewrite Hx.
  - rewrite IH by (intros; apply Hl1; by right).
    destruct (f y) as [| e' |] eqn:Hy; [done| |done].
    exfalso. by apply (Hl1 y e'); [left|].
Qed.

(** X15.  [RoomPlan.from_dict] returns a room exactly when every cue
    dictionary decodes and the name is a string: the room then holds the
    decoded cues one for one, in document order, under the document's name
    (["Room"] when the key is missing). *)
Theorem RoomPlan_from_dict_Ok data r :
  RoomPlan_from_dict float_of_str data = Ok r ↔
  Forall2 (λ d c, from_dict float_of_str d = Ok c)
    (default [] (rd_cues data)) (cues r) ∧
  default (VStr "Room") (rd_name data) = VStr (room_name r).
Proof.
  unfold RoomPlan_from_dict. split.
  - destruct (comprehension _ _) as [cs| |] eqn:Hcs; [|done..].
    apply comprehension_Ok in Hcs.
    destruct (default (VStr "Room") (rd_name data)); try done.
    simpl. by intros [= <-].
  - intros [Hcs Hname]. apply comprehension_Ok in Hcs. rewrite Hcs, Hname.
    simpl. by destruct r.
Qed.

(** X16.  The exception a room's decoding ends in is the one of the first
    cue dictionary, in document order, that raises. *)
Theorem RoomPlan_from_dict_first_exception data l1 d l2 e :
  rd_cues data = Some (l1 ++ d :: l2) →
  (∀ d' e', d' ∈ l1 → from_dict float_of_str d' ≠ Raise e') →
  from_dict float_of_str d = Raise e →
  RoomPlan_from_dict float_of_str data = Raise e.
Proof.
  intros Hcues Hl1 Hd. unfold RoomPlan_from_dict. rewrite Hcues. simpl.
  by rewrite (comprehension_first_Raise _ l1 d l2 e).
Qed.

Lemma ShowPlan_round_trip_normalizes p :
  ShowPlan_from_dict float_of_str (ShowPlan_to_dict p)
  = Ok (mkShowPlan (normalize_room <$> rooms p)).
Proof.
  unfold ShowPlan_from_dict, ShowPlan_to_dict. simpl.
  rewrite (comprehension_fmap_Ok _ _ normalize_room); [done|].
  apply RoomPlan_round_trip.
Qed.

(** X17.  A show saved with [ShowPlan.to_dict] and read back with
    [ShowPlan.from_dict] has the same rooms in the same order, with the
    same names and cues, except that empty dependency names come back
    absent; a show without empty dependency names comes back equal. *)
Theorem ShowPlan_round_trip p :
  ShowPlan_from_dict float_of_str (ShowPlan_to_dict p)
    = Ok (mkShowPlan (normalize_room <$> rooms p)) ∧
  ((∀ r c, r ∈ rooms p → c ∈ cues r → dependency_name c ≠ Some "") →
   ShowPlan_from_dict float_of_str (ShowPlan_to_dict p) = Ok p).
Proof.
  split; [apply ShowPlan_round_trip_normalizes|].
  intros H. rewrite ShowPlan_round_trip_normalizes. destruct p as [rs].
  simpl in *. do 2 f_equal. apply list_fmap_id_on. intros [n cs] Hr.
  unfold normalize_room. simpl. f_equal. apply list_fmap_id_on.
  intros c Hc. apply normalize_cue_id. by apply (H _ _ Hr).
Qed.
End decode_more.

Lemma from_dict_ignores_unknown_keys_witness :
  from_dict float_of_digits
    (<["colour" := VStr "red"]> (to_dict (cue_at "a" 5 5)))
  = from_dict float_of_digits (to_dict (cue_at "a" 5 5)).
Proof.
  apply from_dict_ignores_unknown_keys. simpl.
  rewrite !elem_of_cons, elem_of_nil. intros H.
  repeat (destruct H as [H|H]; [discriminate|]). done.
Defined.

Lemma from_dict_missing_key_is_default_witness :
  from_dict float_of_digits
    (<["play_type" := VStr "Play once"]> {[ "name" := VStr "a" ]})
  = from_dict float_of_digits {[ "name" := VStr "a" ]}.
Proof.
  apply from_dict_missing_key_is_default; [|reflexivity].
  unfold cue_defaults. rewrite !elem_of_cons. tauto.
Defined.

Lemma loaded_cue_round_trips_witness :
  dependency_name (mkMediaCue "old" TV TIMELINE PLAY_ONCE AT_TIME 0 12 None "")
    ≠ Some "" ∧
  from_dict float_of_digits
    (to_dict (mkMediaCue "old" TV TIMELINE PLAY_ONCE AT_TIME 0 12 None ""))
  = Ok (mkMediaCue "old" TV TIMELINE PLAY_ONCE AT_TIME 0 12 None "").
Proof.
  apply (loaded_cue_round_trips float_of_digits
           {[ "name" := VStr "old"; "media_type" := VStr "TV";
              "duration_s" := VStr "12"; "dependency_name" := VStr "" ]}).
  reflexivity.
Defined.

Lemma RoomPlan_from_dict_Ok_witness :
  Forall2 (λ d c, from_dict float_of_digits d = Ok c)
    (default [] (rd_cues (mk_room_doc None
                            (Some [{[ "name" := VStr "a" ]};
                                   {[ "name" := VStr "b" ]}]))))
    (cues (mkRoomPlan "Room" [default_cue "a"; default_cue "b"])) ∧
  default (VStr "Room") None
  = VStr (room_name (mkRoomPlan "Room" [default_cue "a"; default_cue "b"])).
Proof.
  apply (proj1 (RoomPlan_from_dict_Ok float_of_digits
                  (mk_room_doc None (Some [{[ "name" := VStr "a" ]};
                                           {[ "name" := VStr "b" ]}]))
                  (mkRoomPlan "Room" [default_cue "a"; default_cue "b"]))).
  reflexivity.
Defined.

Lemma RoomPlan_from_dict_first_exception_witness :
  RoomPlan_from_dict float_of_digits
    (mk_room_doc (Some (VStr "Mecca"))
       (Some ([{[ "name" := VNum 3 ]}]
              ++ {[ "duration_s" := VNone ]}
              :: [{[ "cue_type" := VStr "Video" ]}])))
  = Raise TypeError.
Proof.
  apply (RoomPlan_from_dict_first_exception float_of_digits _
           [{[ "name" := VNum 3 ]}] {[ "duration_s" := VNone ]}
           [{[ "cue_type" := VStr "Video" ]}]); [reflexivity| |reflexivity].
  intros d' e' Hd'. apply list_elem_of_singleton in Hd' as ->. discriminate.
Defined.

Lemma ShowPlan_round_trip_witness :
  ShowPlan_from_dict float_of_digits
    (ShowPlan_to_dict
       (mkShowPlan [mkRoomPlan "Reception" [cue_at "a" 5 5];
                    mkRoomPlan "Mecca" []]))
  = Ok (mkShowPlan [mkRoomPlan "Reception" [cue_at "a" 5 5];
                    mkRoomPlan "Mecca" []]).
Proof.
  apply (proj2 (ShowPlan_round_trip float_of_digits _)).
  intros r c Hr Hc. simpl in Hr.
  repeat (apply elem_of_cons in Hr as [->|Hr];
          [simpl in Hc;
           repeat (apply elem_of_cons in Hc as [->|Hc]; [discriminate|]);
           by apply elem_of_nil in Hc|]).
  by apply elem_of_nil in Hr.
Defined.

(** ** Opening and saving ([main.py]) *)

Lemma tab_by_name_snoc tabs t :
  tab_by_name (tabs ++ [t]) = <[room_name t := length tabs]> (tab_by_name tabs).
Proof.
  unfold tab_by_name. rewrite length_app. simpl.
  rewrite Nat.add_1_r, seq_S. simpl.
  rewrite zip_with_app by by rewrite length_seq.
  by rewrite fold_left_app.
Qed.

Lemma tab_by_name_lookup tabs n i :
  NoDup (room_name <$> tabs) →
  tab_by_name tabs !! n = Some i ↔ ∃ t, tabs !! i = Some t ∧ room_name t = n.
Proof.
  induction tabs as [|t tabs IH] using rev_ind; intros Hnd.
  - unfold tab_by_name. simpl. rewrite lookup_empty. split; [done|].
    by intros (t & Ht & _).
  - rewrite fmap_app in Hnd. apply NoDup_app in Hnd as (Hnd & Hfresh & _).
    specialize (IH Hnd). rewrite tab_by_name_snoc.
    destruct (decide (room_name t = n)) as [<-|Hne].
    + rewrite lookup_insert_eq. split.
      * intros [= <-]. exists t. by rewrite list_lookup_middle.
      * intros (t' & Ht' & Hname).
        apply lookup_snoc_Some in Ht' as [[Hlt Ht']|[-> _]]; [|done].
        exfalso. apply (Hfresh (room_name t')).
        -- apply list_elem_of_fmap. exists t'. split; [done|].
           by eapply list_elem_of_lookup_2.
        -- rewrite Hname. simpl. by left.
    + rewrite lookup_insert_ne by done. rewrite IH. split.
      * intros (t' & Ht' & Hname). exists t'. split; [|done].
        rewrite lookup_app_l; [done|]. by eapply lookup_lt_Some.
      * intros (t' & Ht' & Hname).
        apply lookup_snoc_Some in Ht' as [[Hlt Ht']|[-> <-]]; [eauto|done].
Qed.

Lemma last_cues_for_snoc n rs r :
  last_cues_for n (rs ++ [r])
  = if decide (room_name r = n) then cues r else last_cues_for n rs.
Proof.
  unfold last_cues_for. rewrite filter_app, filter_cons, filter_nil.
  destruct (decide (room_name r = n)); [|by rewrite app_nil_r].
  by rewrite last_snoc.
Qed.

Lemma populate_tabs_lookup plan room_tabs i t :
  NoDup (room_name <$> room_tabs) →
  room_tabs !! i = Some t →
  populate_tabs plan room_tabs !! i
  = Some (mkRoomPlan (room_name t) (last_cues_for (room_name t) (rooms plan))).
Proof.
  intros Hnd Hi. unfold populate_tabs.
  induction (rooms plan) as [|r rs IH] using rev_ind.
  - simpl. by rewrite list_lookup_fmap, Hi.
  - rewrite fold_left_app, last_cues_for_snoc. simpl.
    destruct (tab_by_name room_tabs !! room_name r) as [j|] eqn:Hj.
    + apply tab_by_name_lookup in Hj as (tj & Htj & Hname); [|done].
      destruct (decide (j = i)) as [->|Hne].
      * assert (tj = t) as -> by congruence.
        rewrite list_lookup_alter_eq, IH. simpl.
        by rewrite decide_True.
      * rewrite list_lookup_alter_ne by done. rewrite IH.
        rewrite decide_False; [done|]. intros Heq. apply Hne.
        apply (NoDup_lookup _ _ _ (room_name t) Hnd);
          rewrite list_lookup_fmap; [rewrite Htj|rewrite Hi]; simpl;
          congruence.
    + rewrite IH. rewrite decide_False; [done|]. intros Heq.
      assert (tab_by_name room_tabs !! room_name r = Some i) as Hsome.
      { apply tab_by_name_lookup; [done|]. eauto. }
      congruence.
Qed.

Lemma populate_tabs_length plan room_tabs :
  length (populate_tabs plan room_tabs) = length room_tabs.
Proof.
  unfold populate_tabs.
  induction (rooms plan) as [|r rs IH] using rev_ind.
  - simpl. by rewrite length_fmap.
  - rewrite fold_left_app. simpl.
    destruct (tab_by_name room_tabs !! room_name r); [|done].
    by rewrite length_alter.
Qed.


Section open_save.
Variable float_of_str : string → option Z.


(** X19.  With distinct tab names, a successful open leaves in each tab the
    cues of the last room of that name in the file, and no cues when the
    file has no such room; rooms of the file that match no tab are
    dropped. *)
Theorem open_file_fills_tabs_by_name data plan room_tabs i t :
  NoDup (room_name <$> room_tabs) →
  ShowPlan_from_dict float_of_str data = Ok plan →
  room_tabs !! i = Some t →
  ∃ tabs, open_file float_of_str data room_tabs = Opened tabs ∧
          length tabs = length room_tabs ∧
          tabs !! i = Some (mkRoomPlan (room_name t)
                              (last_cues_for (room_name t) (rooms plan))).
Proof.
  intros Hnd Hplan Hi. unfold open_file. rewrite Hplan.
  eexists. split_and!; [done|apply populate_tabs_length|].
  by apply populate_tabs_lookup.
Qed.

Lemma last_cues_for_unique rs i r :
  NoDup (room_name <$> rs) → rs !! i = Some r →
  last_cues_for (room_name r) rs = cues r.
Proof.
  induction rs as [|r' rs IH] using rev_ind; intros Hnd Hi; [done|].
  rewrite last_cues_for_snoc.
  rewrite fmap_app in Hnd. apply NoDup_app in Hnd as (Hnd & Hfresh & _).
  apply lookup_snoc_Some in Hi as [[Hlt Hi]|[-> ->]].
  - rewrite decide_False; [by apply IH|]. intros Heq.
    apply (Hfresh (room_name r)).
    + apply list_elem_of_fmap. exists r. split; [done|].
      by eapply list_elem_of_lookup_2.
    + rewrite <- Heq. simpl. by left.
  - by rewrite decide_True.
Qed.

(** X20.  Save then open restores the tabs: opening the document written
    for tabs with distinct names, into tabs of the same names, gives every
    tab back its cues, up to empty dependency names read back as absent. *)
Theorem save_then_open_restores_tabs saved room_tabs :
  NoDup (room_name <$> saved) →
  room_name <$> room_tabs = room_name <$> saved →
  open_file float_of_str (write_to_path saved) room_tabs
  = Opened (normalize_room <$> saved).
Proof.
  intros Hnd Hnames. unfold open_file, write_to_path.
  rewrite ShowPlan_round_trip_normalizes. f_equal. simpl.
  set (plan := mkShowPlan _).
  assert (length room_tabs = length saved) as Hlen.
  { by rewrite <- (length_fmap room_name room_tabs), Hnames, length_fmap. }
  apply list_eq. intros i.
  destruct (room_tabs !! i) as [t|] eqn:Hi.
  - assert (NoDup (room_name <$> room_tabs)) as Hnd' by by rewrite Hnames.
    rewrite (populate_tabs_lookup plan room_tabs i t Hnd' Hi).
    destruct (lookup_lt_is_Some_2 saved i) as [s Hs].
    { rewrite <- Hlen. by eapply lookup_lt_Some. }
    assert (room_name t = room_name s) as Hts.
    { assert ((room_name <$> room_tabs) !! i = (room_name <$> saved) !! i)
        as Heq by by rewrite Hnames.
      rewrite !list_lookup_fmap, Hi, Hs in Heq. simpl in Heq. congruence. }
    rewrite list_lookup_fmap, Hs. simpl. f_equal. unfold normalize_room.
    rewrite Hts. f_equal.
    change (room_name s) with (room_name (normalize_room s)).
    subst plan. simpl.
    rewrite (last_cues_for_unique _ i (normalize_room s)).
    + done.
    + rewrite <- !list_fmap_compose.
      erewrite list_fmap_ext; [exact Hnd|]. by intros ? [].
    + rewrite <- list_fmap_compose, list_lookup_fmap, Hs. by destruct s.
  - rewrite (lookup_ge_None_2 (populate_tabs _ _))
      by (rewrite populate_tabs_length; by apply lookup_ge_None).
    symmetry. apply lookup_ge_None. rewrite length_fmap, <- Hlen.
    by apply lookup_ge_None.
Qed.

(** X21.  After New every tab keeps its name and holds no cue, and the
    summary computed from the tabs has no item and a show duration of 0. *)
Theorem new_file_clears_everything room_tabs :
  room_name <$> new_file room_tabs = room_name <$> room_tabs ∧
  (∀ t, t ∈ new_file room_tabs → cues t = []) ∧
  compute_all_stats (new_file room_tabs) = ([], 0).
Proof.
  unfold new_file. split_and!.
  - rewrite <- list_fmap_compose. by apply list_fmap_ext.
  - by intros t (t' & -> & _)%list_elem_of_fmap.
  - unfold compute_all_stats. induction room_tabs as [|t ts IH]; [done|].
    by rewrite fmap_cons.
Qed.
End open_save.

Lemma open_file_fills_tabs_by_name_witness :
  ∃ tabs,
    open_file float_of_digits
      (mk_show_doc (Some [mk_room_doc (Some (VStr "Mecca"))
                            (Some [{[ "name" := VStr "first" ]}]);
                          mk_room_doc (Some (VStr "Cellar"))
                            (Some [{[ "name" := VStr "lost" ]}]);
                          mk_room_doc (Some (VStr "Mecca"))
                            (Some [{[ "name" := VStr "second" ]}])]))
      [mkRoomPlan "Reception" [cue_at "old" 1 1]; mkRoomPlan "Mecca" []]
    = Opened tabs ∧
    length tabs
    = length [mkRoomPlan "Reception" [cue_at "old" 1 1]; mkRoomPlan "Mecca" []] ∧
    tabs !! 1%nat
    = Some (mkRoomPlan "Mecca"
              (last_cues_for "Mecca"
                 [mkRoomPlan "Mecca" [default_cue "first"];
                  mkRoomPlan "Cellar" [default_cue "lost"];
                  mkRoomPlan "Mecca" [default_cue "second"]])).
Proof.
  apply (open_file_fills_tabs_by_name float_of_digits _
           (mkShowPlan [mkRoomPlan "Mecca" [default_cue "first"];
                        mkRoomPlan "Cellar" [default_cue "lost"];
                        mkRoomPlan "Mecca" [default_cue "second"]])
           _ 1%nat (mkRoomPlan "Mecca" [])); [|reflexivity..].
  apply (bool_decide_unpack _). by vm_compute.
Defined.

Lemma save_then_open_restores_tabs_witness :
  open_file float_of_digits
    (write_to_path [mkRoomPlan "Reception" [cue_at "a" 5 5];
                    mkRoomPlan "Mecca" [cue_after "b" "" 2]])
    [mkRoomPlan "Reception" []; mkRoomPlan "Mecca" [cue_at "old" 1 1]]
  = Opened (normalize_room <$>
              [mkRoomPlan "Reception" [cue_at "a" 5 5];
               mkRoomPlan "Mecca" [cue_after "b" "" 2]]).
Proof.
  apply save_then_open_restores_tabs; [|reflexivity].
  apply (bool_decide_unpack _). by vm_compute.
Defined.

Lemma new_file_clears_everything_witness :
  cues (set_cues [] (mkRoomPlan "Mecca" [cue_at "a" 5 5])) = [].
Proof.
  apply (proj1 (proj2 (new_file_clears_everything
                         [mkRoomPlan "Mecca" [cue_at "a" 5 5]]))).
  left.
Defined.

(** ** Editing a room *)

Lemma compute_schedule_take n cs :
  compute_schedule (take n cs) = take n (compute_schedule cs).
Proof.
  destruct (compute_schedule_app (take n cs) (drop n cs)) as [ext H].
  rewrite take_drop in H. rewrite H.
  destruct (decide (n ≤ length cs)%nat) as [Hle|Hgt].
  - rewrite take_app_length'; [done|].
    rewrite compute_schedule_length, length_take. lia.
  - rewrite <- H. rewrite !take_ge; [done| |lia].
    rewrite compute_schedule_length. lia.
Qed.

(** X22.  Adding a cue from the form: a name that is empty once stripped
    adds nothing; otherwise exactly one cue is appended, under the stripped
    name, no existing cue changes its start, and the new cue carries a
    dependency name only when its start mode is [AFTER_CUE]. *)
Theorem add_cue_appends_and_moves_nothing
    (strip : string → string) form cs :
  (strip (name_edit form) = "" → on_add_cue strip form cs = cs)
  ∧ (strip (name_edit form) ≠ "" →
     ∃ c s,
       on_add_cue strip form cs = cs ++ [c] ∧
       name c = strip (name_edit form) ∧
       (start_mode c ≠ AFTER_CUE → dependency_name c = None) ∧
       compute_schedule (on_add_cue strip form cs)
       = compute_schedule cs ++ [s]).
Proof.
  unfold on_add_cue. split.
  - by intros ->.
  - intros Hname. apply String.eqb_neq in Hname. rewrite Hname.
    eexists. destruct (compute_schedule_app cs [mkMediaCue
      (strip (name_edit form)) (cue_type_combo form) (trigger_type_combo form)
      (play_type_combo form) (start_mode_combo form) (start_time_spin form)
      (duration_spin form)
      match start_mode_combo form with
      | AFTER_CUE => dependency_combo form
      | _ => None
      end (strip (notes_edit form))]) as [ext Hext].
    assert (length ext = 1%nat) as Hlen.
    { apply (f_equal length) in Hext.
      rewrite compute_schedule_length, !length_app, compute_schedule_length
        in Hext. simpl in Hext. lia. }
    destruct ext as [|s [|? ?]]; try done.
    exists s. split_and!; [done|done| |done].
    simpl. by destruct (start_mode_combo form).
Qed.

Lemma add_cue_appends_and_moves_nothing_witness :
  on_add_cue (λ s, s)
    (mk_cue_form "" TV SENSOR LOOP AFTER_CUE 3 4 "n" (Some "a"))
    [cue_at "a" 5 5]
  = [cue_at "a" 5 5] ∧
  ∃ c s,
    on_add_cue (λ s, s)
      (mk_cue_form "b" TV SENSOR LOOP AFTER_PREVIOUS 3 4 "n" (Some "a"))
      [cue_at "a" 5 5]
    = [cue_at "a" 5 5] ++ [c] ∧
    name c = "b" ∧
    (start_mode c ≠ AFTER_CUE → dependency_name c = None) ∧
    compute_schedule
      (on_add_cue (λ s, s)
         (mk_cue_form "b" TV SENSOR LOOP AFTER_PREVIOUS 3 4 "n" (Some "a"))
         [cue_at "a" 5 5])
    = compute_schedule [cue_at "a" 5 5] ++ [s].
Proof.
  split.
  - apply (proj1 (add_cue_appends_and_moves_nothing (λ s, s)
                    (mk_cue_form "" TV SENSOR LOOP AFTER_CUE 3 4 "n" (Some "a"))
                    [cue_at "a" 5 5])).
    reflexivity.
  - apply (proj2 (add_cue_appends_and_moves_nothing (λ s, s)
                    (mk_cue_form "b" TV SENSOR LOOP AFTER_PREVIOUS 3 4 "n"
                       (Some "a"))
                    [cue_at "a" 5 5])).
    discriminate.
Defined.

(** X23.  Removing the selected row: with no row selected (-1) or a row past
    the end nothing changes; otherwise exactly that cue goes, the cues
    before it stay in place with their starts unchanged, and the cues after
    it move up by one. *)
Theorem remove_selected_keeps_earlier_starts row cs :
  (row < 0 ∨ Z.of_nat (length cs) ≤ row → on_remove_selected row cs = cs)
  ∧ (0 ≤ row < Z.of_nat (length cs) →
     S (length (on_remove_selected row cs)) = length cs ∧
     take (Z.to_nat row) (on_remove_selected row cs) = take (Z.to_nat row) cs ∧
     (∀ k, (Z.to_nat row ≤ k)%nat →
           on_remove_selected row cs !! k = cs !! S k) ∧
     take (Z.to_nat row) (compute_schedule (on_remove_selected row cs))
     = take (Z.to_nat row) (compute_schedule cs)).
Proof.
  unfold on_remove_selected. split.
  - intros H.
    destruct (Z.ltb_spec row 0), (Z.geb_spec row (Z.of_nat (length cs)));
      simpl; done || lia.
  - intros H.
    destruct (Z.ltb_spec row 0), (Z.geb_spec row (Z.of_nat (length cs)));
      simpl; try lia.
    set (i := Z.to_nat row). assert (i < length cs)%nat as Hi by lia.
    assert (take i (delete i cs) = take i cs) as Htake.
    { apply list_eq. intros k. destruct (decide (k < i)%nat).
      - by rewrite !lookup_take_lt, list_lookup_delete_lt.
      - by rewrite !lookup_take_ge by lia. }
    split_and!.
    + rewrite length_delete; [lia|]. by apply lookup_lt_is_Some_2.
    + done.
    + intros k Hk. by apply list_lookup_delete_ge.
    + by rewrite <- !compute_schedule_take, Htake.
Qed.

Lemma remove_selected_keeps_earlier_starts_witness :
  on_remove_selected (-1) [cue_at "a" 5 5; cue_after "b" "a" 1] 
  = [cue_at "a" 5 5; cue_after "b" "a" 1] ∧
  (S (length (on_remove_selected 1
                [cue_at "a" 5 5; cue_at "x" 0 9; cue_after_previous "b" 1]))
   = length [cue_at "a" 5 5; cue_at "x" 0 9; cue_after_previous "b" 1] ∧
   take (Z.to_nat 1)
     (on_remove_selected 1
        [cue_at "a" 5 5; cue_at "x" 0 9; cue_after_previous "b" 1])
   = take (Z.to_nat 1)
       [cue_at "a" 5 5; cue_at "x" 0 9; cue_after_previous "b" 1] ∧
   (∀ k, (Z.to_nat 1 ≤ k)%nat →
      on_remove_selected 1
        [cue_at "a" 5 5; cue_at "x" 0 9; cue_after_previous "b" 1] !! k
      = [cue_at "a" 5 5; cue_at "x" 0 9; cue_after_previous "b" 1] !! S k) ∧
   take (Z.to_nat 1)
     (compute_schedule
        (on_remove_selected 1
           [cue_at "a" 5 5; cue_at "x" 0 9; cue_after_previous "b" 1]))
   = take (Z.to_nat 1)
       (compute_schedule
          [cue_at "a" 5 5; cue_at "x" 0 9; cue_after_previous "b" 1])).
Proof.
  split.
  - apply (proj1 (remove_selected_keeps_earlier_starts (-1)
                    [cue_at "a" 5 5; cue_after "b" "a" 1])).
    left. lia.
  - apply (proj2 (remove_selected_keeps_earlier_starts 1
                    [cue_at "a" 5 5; cue_at "x" 0 9; cue_after_previous "b" 1])).
    simpl. lia.
Defined.

(** ** Report formatting *)

Example format_seconds_samples :
  format_seconds 0 = "00:00" ∧ format_seconds 75 = "01:15" ∧
  format_seconds 3599 = "59:59" ∧ format_seconds 3600 = "1:00:00" ∧
  format_seconds 45296 = "12:34:56".
Proof. split_and!; reflexivity. Qed.

(** Below zero the hour is dropped and the clock wraps. *)
Example format_seconds_negative : format_seconds (-1) = "59:59".
Proof. reflexivity. Qed.

Lemma string_length_app (a b : string) :
  String.length (a +:+ b) = (String.length a + String.length b)%nat.
Proof. induction a as [|c a IH]; simpl; [done|]. by rewrite IH. Qed.

Lemma string_app_inj_suffix (a a' b b' : string) :
  String.length b = String.length b' → a +:+ b = a' +:+ b' →
  a = a' ∧ b = b'.
Proof.
  intros Hlen. revert a'. induction a as [|c a IH]; intros [|c' a'] H;
    simpl in H.
  - done.
  - apply (f_equal String.length) in H. simpl in H.
    rewrite !string_length_app in H. simpl in H. lia.
  - apply (f_equal String.length) in H. simpl in H.
    rewrite !string_length_app in H. simpl in H. lia.
  - injection H as -> H. by destruct (IH a' H) as [-> ->].
Qed.

Lemma two_digits_length x :
  0 ≤ x < 60 → String.length (two_digits x) = 2%nat.
Proof.
  intros Hx. rewrite <- (Z2Nat.id x) by lia.
  assert (Z.to_nat x < 60)%nat as Hn by lia. revert Hn.
  generalize (Z.to_nat x) as n. intros n Hn.
  do 60 (destruct n as [|n]; [reflexivity|]). lia.
Qed.

Lemma two_digits_inj x y :
  0 ≤ x < 60 → 0 ≤ y < 60 → two_digits x = two_digits y → x = y.
Proof.
  assert (∀ x y, 0 ≤ x < 10 → 10 ≤ y < 60 →
            "0" +:+ pretty x ≠ pretty y) as Hcross.
  { intros a b Ha Hb. rewrite <- (Z2Nat.id b) by lia.
    assert (10 ≤ Z.to_nat b < 60)%nat as Hn by lia. revert Hn.
    generalize (Z.to_nat b) as n. intros n Hn.
    do 10 (destruct n as [|n]; [lia|]).
    do 50 (destruct n as [|n]; [discriminate|]). lia. }
  intros Hx Hy. unfold two_digits.
  destruct (Z.leb_spec 0 x), (Z.ltb_spec x 10), (Z.leb_spec 0 y),
    (Z.ltb_spec y 10); simpl; try lia.
  - intros Heq. apply (inj _) in Heq. by apply (inj pretty).
  - intros Heq. by apply Hcross in Heq; [|lia..].
  - intros Heq. symmetry in Heq. by apply Hcross in Heq; [|lia..].
  - apply (inj pretty).
Qed.

Lemma hms_decompose s :
  s = 3600 * (s / 3600) + 60 * ((s mod 3600) / 60) + s mod 60.
Proof.
  pose proof (Z.div_mod s 3600). pose proof (Z.div_mod (s mod 3600) 60).
  assert (s mod 3600 mod 60 = s mod 60) as Hmm.
  { apply Z.mod_mod_divide. exists 60. lia. }
  lia.
Qed.

(** X24.  Distinct non-negative whole numbers of seconds are printed
    differently by [_format_seconds]: a time label of the report identifies
    its time to the second. *)
Theorem format_seconds_inj s t :
  0 ≤ s → 0 ≤ t → format_seconds s = format_seconds t → s = t.
Proof.
  intros Hs Ht. unfold format_seconds.
  assert (0 ≤ (s mod 3600) / 60 < 60 ∧ 0 ≤ s mod 60 < 60 ∧
          0 ≤ (t mod 3600) / 60 < 60 ∧ 0 ≤ t mod 60 < 60) as (Hm & Hs2 & Hm' & Hs2').
  { pose proof (Z.mod_pos_bound s 3600). pose proof (Z.mod_pos_bound t 3600).
    pose proof (Z.mod_pos_bound s 60). pose proof (Z.mod_pos_bound t 60).
    split_and!; try lia;
      (apply Z.div_pos; lia) || (apply Z.div_lt_upper_bound; lia). }
  assert (∀ m1 s1 m2 s2, 0 ≤ m1 < 60 → 0 ≤ s1 < 60 → 0 ≤ m2 < 60 →
            0 ≤ s2 < 60 →
            two_digits m1 +:+ ":" +:+ two_digits s1
            = two_digits m2 +:+ ":" +:+ two_digits s2 →
            m1 = m2 ∧ s1 = s2) as Htail.
  { intros m1 s1 m2 s2 ? ? ? ? Heq.
    apply string_app_inj_suffix in Heq as [Heq1 Heq2].
    - injection Heq2 as Heq2. split; by apply two_digits_inj.
    - by rewrite !string_length_app, !two_digits_length. }
  assert (∀ m1 s1, 0 ≤ m1 < 60 → 0 ≤ s1 < 60 →
            String.length (two_digits m1 +:+ ":" +:+ two_digits s1) = 5%nat)
    as Hlen5.
  { intros m1 s1 ? ?. by rewrite !string_length_app, !two_digits_length. }
  pose proof (hms_decompose s) as Hsd. pose proof (hms_decompose t) as Htd.
  assert (0 ≤ s / 3600) by (apply Z.div_pos; lia).
  assert (0 ≤ t / 3600) by (apply Z.div_pos; lia).
  destruct (Z.gtb_spec (s / 3600) 0), (Z.gtb_spec (t / 3600) 0); intros Heq.
  - apply string_app_inj_suffix in Heq as [Hh Heq].
    + apply (inj pretty) in Hh. injection Heq as Heq.
      apply Htail in Heq as [? ?]; [|done..]. lia.
    + rewrite (string_length_app ":"), (string_length_app ":" (_ +:+ _)).
      by rewrite !Hlen5.
  - apply (f_equal String.length) in Heq.
    rewrite string_length_app, (string_length_app ":" (_ +:+ _)) in Heq.
    rewrite !Hlen5 in Heq by done. simpl in Heq. lia.
  - apply (f_equal String.length) in Heq.
    rewrite (string_length_app (pretty _)),
      (string_length_app ":" (_ +:+ _)) in Heq.
    rewrite !Hlen5 in Heq by done. simpl in Heq. lia.
  - apply Htail in Heq as [? ?]; [|done..]. lia.
Qed.

Lemma format_seconds_inj_witness : 75 = 75.
Proof.
  apply (format_seconds_inj 75 75); [lia|lia|reflexivity].
Defined.

(** ** Statistics of the summary tab *)

Lemma bump_lookup `{Countable K} (k k' : K) (d : gmap K nat) :
  bump k d !! k'
  = if decide (k = k') then Some (S (default 0%nat (d !! k))) else d !! k'.
Proof.
  unfold bump. destruct (decide (k = k')) as [->|Hne].
  - by rewrite lookup_insert_eq.
  - by rewrite lookup_insert_ne.
Qed.


Lemma count_of_cons {K} `{EqDecision K} (key : MediaCue → K) k c cs :
  count_of key k (c :: cs)
  = if decide (key c = k) then S (count_of key k cs) else count_of key k cs.
Proof. unfold count_of. rewrite filter_cons. by destruct (decide (key c = k)). Qed.

Lemma count_of_app {K} `{EqDecision K} (key : MediaCue → K) k cs1 cs2 :
  count_of key k (cs1 ++ cs2) = (count_of key k cs1 + count_of key k cs2)%nat.
Proof. unfold count_of. by rewrite filter_app, length_app. Qed.

(** What a tally adds to a counting dictionary. *)
Lemma tally_lookup `{Countable K} (key : MediaCue → K) cs : ∀ (d : gmap K nat) k,
  tally key cs d !! k
  = if decide (count_of key k cs = 0%nat) then d !! k
    else Some (default 0%nat (d !! k) + count_of key k cs)%nat.
Proof.
  induction cs as [|c cs IH]; intros d k; [done|].
  unfold tally in *. cbn [fold_left]. rewrite IH, count_of_cons, bump_lookup.
  destruct (decide (key c = k)) as [->|Hne]; [|done].
  repeat case_decide; simpl; try lia; f_equal; lia.
Qed.

Lemma tally_exact `{Countable K} (key : MediaCue → K) cs :
  counts_exactly key (tally key cs ∅) cs.
Proof.
  intros k. rewrite tally_lookup, lookup_empty.
  by destruct (decide (count_of key k cs = 0%nat)).
Qed.

Lemma tally_app `{Countable K} (key : MediaCue → K) cs1 cs2 (d : gmap K nat) :
  tally key (cs1 ++ cs2) d = tally key cs2 (tally key cs1 d).
Proof. unfold tally. by rewrite fold_left_app. Qed.

Lemma clamped_total_app cs1 cs2 :
  clamped_total (cs1 ++ cs2) = clamped_total cs1 + clamped_total cs2.
Proof.
  unfold clamped_total. induction cs1 as [|c cs1 IH]; simpl; [done|].
  rewrite IH. lia.
Qed.


(** The inner loop, accumulator by accumulator. *)
Lemma stats_cue_fold rname ps : ∀ ra st,
  let r := fold_left (stats_cue_step rname) ps (ra, st) in
  (ra_room_end (fst r), st_global_items (snd r))
  = fold_left (room_cue_step rname (st_global_offset st)) ps
      (ra_room_end ra, st_global_items st)
  ∧ st_global_offset (snd r) = st_global_offset st
  ∧ st_room_stats (snd r) = st_room_stats st
  ∧ st_total_cues (snd r) = (st_total_cues st + length ps)%nat
  ∧ st_total_duration (snd r)
    = st_total_duration st + clamped_total (fst <$> ps)
  ∧ st_cue_type_counts (snd r)
    = tally cue_type (fst <$> ps) (st_cue_type_counts st)
  ∧ st_trigger_counts (snd r)
    = tally trigger_type (fst <$> ps) (st_trigger_counts st)
  ∧ st_play_counts (snd r) = tally play_type (fst <$> ps) (st_play_counts st)
  ∧ ra_by_cue_type (fst r)
    = tally_duration cue_type (fst <$> ps) (ra_by_cue_type ra)
  ∧ ra_by_trigger (fst r) = tally trigger_type (fst <$> ps) (ra_by_trigger ra)
  ∧ ra_by_play (fst r) = tally play_type (fst <$> ps) (ra_by_play ra)
  ∧ ra_notes_list (fst r) = ra_notes_list ra ++ omap note_entry ps
  ∧ ra_timeline_entries (fst r)
    = ra_timeline_entries ra ++ (timeline_entry <$> ps).
Proof.
  induction ps as [|[c s] ps IH]; intros ra st.
  - cbn. rewrite !app_nil_r, Nat.add_0_r, Z.add_0_r. done.
  - cbn [fold_left]. cbv zeta in IH |- *.
    specialize (IH (fst (stats_cue_step rname (ra, st) (c, s)))
                   (snd (stats_cue_step rname (ra, st) (c, s)))).
    rewrite <- surjective_pairing in IH.
    destruct IH as (H1 & H2 & H3 & H4 & H5 & H6 & H7 & H8 & H9 & H10 & H11
                    & H12 & H13).
    rewrite H1, H2, H3, H4, H5, H6, H7, H8, H9, H10, H11, H12, H13.
    cbn [stats_cue_step fst snd ra_room_end st_global_items st_global_offset
         st_room_stats st_total_cues st_total_duration st_cue_type_counts
         st_trigger_counts st_play_counts ra_by_cue_type ra_by_trigger
         ra_by_play ra_notes_list ra_timeline_entries fmap list_fmap omap
         list_omap length].
    split_and!; try done.
    + lia.
    + unfold clamped_total. cbn [foldr]. lia.
    + unfold note_entry. cbn [fst snd].
      destruct (String.eqb (notes c) ""); [done|]. by rewrite <- app_assoc.
    + by rewrite <- app_assoc.
Qed.

(** One iteration of the room loop in closed form. *)
Lemma stats_room_step_eq st tab :
  stats_room_step st tab
  = mk_stats_state
      (st_global_items st
       ++ room_items (room_name tab) (st_global_offset st) (cues tab))
      (<[room_name tab := room_stats_of tab]> (st_room_stats st))
      (st_total_cues st + length (cues tab))
      (st_total_duration st + clamped_total (cues tab))
      (tally cue_type (cues tab) (st_cue_type_counts st))
      (tally trigger_type (cues tab) (st_trigger_counts st))
      (tally play_type (cues tab) (st_play_counts st))
      (st_global_offset st + room_end_of tab).
Proof.
  pose proof (room_step_eq (st_global_items st) (st_global_offset st) tab)
    as Hstep.
  unfold stats_room_step, room_stats_of, room_step in *.
  destruct (cues tab) as [|c cs] eqn:Hcs.
  - injection Hstep as Hitems Hoff.
    unfold set_room_stats. destruct st; cbn in *.
    assert (room_end_of tab = 0) as -> by lia.
    by rewrite app_nil_r, Nat.add_0_r, !Z.add_0_r.
  - cbv zeta.
    pose proof (stats_cue_fold (room_name tab)
                  (zip (c :: cs) (compute_schedule (c :: cs)))
                  (mk_room_acc 0 ∅ ∅ ∅ [] []) st) as Hfold.
    cbv zeta in Hfold.
    destruct (fold_left (stats_cue_step (room_name tab)) _ _) as [ra st'].
    cbn [fst snd ra_room_end ra_by_cue_type ra_by_trigger ra_by_play
         ra_notes_list ra_timeline_entries] in Hfold.
    destruct Hfold as (H1 & H2 & H3 & H4 & H5 & H6 & H7 & H8 & H9 & H10 & H11
                       & H12 & H13).
    rewrite fst_zip in * by (rewrite compute_schedule_length; lia).
    rewrite <- H1 in Hstep. injection Hstep as Hitems Hoff.
    unfold set_room_stats.
    rewrite Hitems, H2, H3, H4, H5, H6, H7, H8, H9, H10, H11, H12, H13.
    assert (ra_room_end ra = room_end_of tab) as -> by lia.
    rewrite length_zip, compute_schedule_length, Nat.min_id. done.
Qed.

Lemma all_cues_cons r tabs : all_cues (r :: tabs) = cues r ++ all_cues tabs.
Proof. done. Qed.

Lemma tally_duration_app `{Countable K} (key : MediaCue → K) cs1 cs2
    (d : gmap K (nat * Z)) :
  tally_duration key (cs1 ++ cs2) d
  = tally_duration key cs2 (tally_duration key cs1 d).
Proof. unfold tally_duration. by rewrite fold_left_app. Qed.

(** The room loop in closed form. *)
Lemma stats_loop_eq tabs : ∀ st,
  fold_left stats_room_step tabs st
  = mk_stats_state
      (st_global_items st ++ stitched (st_global_offset st) tabs)
      (fold_left (λ m tab, <[room_name tab := room_stats_of tab]> m) tabs
         (st_room_stats st))
      (st_total_cues st + length (all_cues tabs))
      (st_total_duration st + clamped_total (all_cues tabs))
      (tally cue_type (all_cues tabs) (st_cue_type_counts st))
      (tally trigger_type (all_cues tabs) (st_trigger_counts st))
      (tally play_type (all_cues tabs) (st_play_counts st))
      (st_global_offset st + sum_room_end tabs).
Proof.
  induction tabs as [|r tabs IH]; intros st.
  - destruct st. cbn. rewrite app_nil_r, Nat.add_0_r. f_equal.
    + unfold clamped_total. simpl. lia.
    + unfold sum_room_end. simpl. lia.
  - cbn [fold_left]. rewrite IH, stats_room_step_eq.
    cbn [st_global_items st_room_stats st_total_cues st_total_duration
         st_cue_type_counts st_trigger_counts st_play_counts st_global_offset
         stitched].
    rewrite all_cues_cons, !tally_app, clamped_total_app, length_app,
      sum_room_end_cons, <- app_assoc.
    f_equal; lia.
Qed.

Lemma room_stats_fold_lookup tabs : ∀ (m : gmap string room_stats) n,
  fold_left (λ m tab, <[room_name tab := room_stats_of tab]> m) tabs m !! n
  = match last_tab_named n tabs with
    | Some r => Some (room_stats_of r)
    | None => m !! n
    end.
Proof.
  induction tabs as [|r tabs IH] using rev_ind; intros m n; [done|].
  unfold last_tab_named in *.
  rewrite fold_left_app, filter_app, filter_cons, filter_nil. simpl.
  destruct (decide (room_name r = n)) as [<-|Hne].
  - by rewrite lookup_insert_eq, last_snoc.
  - rewrite lookup_insert_ne by done. rewrite app_nil_r. apply IH.
Qed.

Lemma compute_all_stats_full_eq tabs :
  compute_all_stats_full tabs
  = mk_stats_state (stitched 0 tabs)
      (fold_left (λ m tab, <[room_name tab := room_stats_of tab]> m) tabs ∅)
      (length (all_cues tabs)) (clamped_total (all_cues tabs))
      (tally cue_type (all_cues tabs) ∅) (tally trigger_type (all_cues tabs) ∅)
      (tally play_type (all_cues tabs) ∅) (sum_room_end tabs).
Proof. unfold compute_all_stats_full. by rewrite stats_loop_eq. Qed.

(** [sorted(l, key=...)] *)
Lemma insert_on_perm {A} (key : A → Z) x l : insert_on key x l ≡ₚ x :: l.
Proof.
  induction l as [|y l IH]; simpl; [done|].
  destruct (key x <=? key y); [done|]. rewrite IH. apply Permutation_swap.
Qed.

Lemma sort_on_perm {A} (key : A → Z) l : sort_on key l ≡ₚ l.
Proof.
  induction l as [|x l IH]; [done|].
  unfold sort_on in *. simpl. by rewrite insert_on_perm, IH.
Qed.

Lemma insert_on_sorted {A} (key : A → Z) x l :
  StronglySorted (λ a b, key a ≤ key b) l →
  StronglySorted (λ a b, key a ≤ key b) (insert_on key x l).
Proof.
  induction 1 as [|y l Hl IH Hy]; simpl.
  - repeat constructor.
  - destruct (Z.leb_spec (key x) (key y)) as [Hle|Hgt].
    + constructor; [by constructor|].
      constructor; [done|].
      eapply Forall_impl; [exact Hy|]. simpl. intros; lia.
    + constructor; [done|].
      rewrite insert_on_perm. constructor; [lia|done].
Qed.

Lemma sort_on_sorted {A} (key : A → Z) l :
  StronglySorted (λ a b, key a ≤ key b) (sort_on key l).
Proof.
  induction l as [|x l IH]; [constructor|].
  unfold sort_on in *. simpl. by apply insert_on_sorted.
Qed.

Lemma insert_on_filter {A} (key : A → Z) (P : A → Prop)
    `{∀ x, Decision (P x)} x l :
  StronglySorted (λ a b, key a ≤ key b) l →
  filter P (insert_on key x l)
  = if decide (P x) then insert_on key x (filter P l) else filter P l.
Proof.
  induction 1 as [|y l Hl IH Hy]; simpl.
  - rewrite filter_cons, filter_nil. by destruct (decide (P x)).
  - destruct (Z.leb_spec (key x) (key y)) as [Hle|Hgt].
    + rewrite filter_cons. destruct (decide (P x)) as [HPx|HPx]; [|done].
      rewrite filter_cons. destruct (decide (P y)) as [HPy|HPy].
      * simpl. by rewrite (proj2 (Z.leb_le _ _)) by done.
      * assert (Forall (λ z, key x ≤ key z) (filter P l)) as Hall.
        { apply Forall_forall. intros z [_ Hz]%list_elem_of_filter.
          rewrite Forall_forall in Hy. specialize (Hy z Hz). lia. }
        destruct Hall as [|z l' Hz _]; simpl; [done|].
        by rewrite (proj2 (Z.leb_le _ _)) by done.
    + rewrite !filter_cons, IH.
      destruct (decide (P x)), (decide (P y)); simpl; try done.
      by rewrite (proj2 (Z.leb_gt _ _)) by lia.
Qed.

(** Sorting commutes with selecting. *)
Lemma sort_on_filter {A} (key : A → Z) (P : A → Prop)
    `{∀ x, Decision (P x)} l :
  sort_on key (filter P l) = filter P (sort_on key l).
Proof.
  induction l as [|x l IH]; [done|].
  rewrite filter_cons. unfold sort_on in *. cbn [foldr].
  rewrite insert_on_filter by apply sort_on_sorted.
  destruct (decide (P x)); [|done]. cbn [foldr]. by rewrite IH.
Qed.

(** Sorting commutes with a map that keeps the key. *)
Lemma sort_on_fmap {A B} (key : A → Z) (key' : B → Z) (f : A → B) l :
  (∀ x, key' (f x) = key x) →
  sort_on key' (f <$> l) = f <$> sort_on key l.
Proof.
  intros Hkey. induction l as [|x l IH]; [done|].
  unfold sort_on in *. rewrite fmap_cons. cbn [foldr]. rewrite IH.
  generalize (foldr (insert_on key) [] l) as s.
  induction s as [|y s IHs]; [done|].
  rewrite fmap_cons. cbn [insert_on]. rewrite !Hkey.
  destruct (key x <=? key y); [done|]. by rewrite fmap_cons, IHs.
Qed.

(** The sort is stable: entries of equal key keep their order. *)
Lemma sort_on_stable {A} (key : A → Z) l t :
  filter (λ e, key e = t) (sort_on key l) = filter (λ e, key e = t) l.
Proof.
  induction l as [|x l IH]; [done|].
  unfold sort_on in *. cbn [foldr]. rewrite filter_cons, <- IH.
  generalize (foldr (insert_on key) [] l) as s.
  induction s as [|y s IHs].
  - simpl. rewrite filter_cons, filter_nil. by destruct (decide (key x = t)).
  - cbn [insert_on]. destruct (Z.leb_spec (key x) (key y)) as [Hle|Hgt].
    + rewrite filter_cons. by destruct (decide (key x = t)).
    + rewrite !filter_cons, IHs.
      destruct (decide (key x = t)), (decide (key y = t)); try done. lia.
Qed.

Lemma timeline_entry_zip cs starts :
  timeline_entry <$> zip cs starts = zip starts cs.
Proof.
  revert starts. induction cs as [|c cs IH]; intros [|s starts]; simpl;
    [done..|]. by rewrite IH.
Qed.

Lemma note_entries_of_timeline (ps : list (MediaCue * Z)) :
  omap note_entry ps
  = note_of <$> filter (λ e, notes (snd e) ≠ "") (timeline_entry <$> ps).
Proof.
  induction ps as [|[c s] ps IH]; [done|].
  rewrite fmap_cons, filter_cons. cbn [omap list_omap]. rewrite IH.
  unfold note_entry, timeline_entry at 1 3. cbn [fst snd].
  destruct (String.eqb_spec (notes c) "") as [Heq|Hne].
  - by rewrite decide_False by (intros Hn; by apply Hn).
  - by rewrite decide_True by done.
Qed.


(** X26.  The three global counting dictionaries are exact: a cue type,
    trigger type or play type has an entry when some cue of some room has
    it, and the entry is the number of such cues. *)
Theorem global_counts_are_exact tabs :
  counts_exactly cue_type
    (st_cue_type_counts (compute_all_stats_full tabs)) (all_cues tabs) ∧
  counts_exactly trigger_type
    (st_trigger_counts (compute_all_stats_full tabs)) (all_cues tabs) ∧
  counts_exactly play_type
    (st_play_counts (compute_all_stats_full tabs)) (all_cues tabs).
Proof.
  rewrite compute_all_stats_full_eq. cbn. split_and!; apply tally_exact.
Qed.



(** X28.  A room name no tab has gets no entry in [room_stats]. *)
Theorem room_stats_only_for_tabs tabs n :
  n ∉ room_name <$> tabs →
  st_room_stats (compute_all_stats_full tabs) !! n = None.
Proof.
  intros Hn. rewrite compute_all_stats_full_eq. cbn [st_room_stats].
  rewrite room_stats_fold_lookup. unfold last_tab_named.
  destruct (last _) as [r|] eqn:Hlast; [|done].
  apply last_Some_elem_of, list_elem_of_filter in Hlast as [Hname Hr].
  exfalso. apply Hn. apply list_elem_of_fmap. by exists r.
Qed.

Lemma room_stats_only_for_tabs_witness :
  st_room_stats (compute_all_stats_full [late_zero_room]) !! "Mecca" = None.
Proof.
  apply (room_stats_only_for_tabs [late_zero_room] "Mecca").
  apply (bool_decide_unpack _). vm_compute. exact I.
Defined.

(** X29.  The [timeline] of a room's entry is the room's schedule sorted by
    start time: it holds every (start, cue) pair of the room once, in
    ascending order of start, pairs with equal starts in cue order; and the
    [notes] of the entry are the notes of the timeline's cues that have
    one, in timeline order. *)
Theorem room_timeline_is_sorted_schedule tabs n r :
  last_tab_named n tabs = Some r →
  ∃ rs, st_room_stats (compute_all_stats_full tabs) !! n = Some rs ∧
    rs_timeline rs ≡ₚ zip (compute_schedule (cues r)) (cues r) ∧
    StronglySorted (λ a b, fst a ≤ fst b) (rs_timeline rs) ∧
    (∀ t, filter (λ e, fst e = t) (rs_timeline rs)
          = filter (λ e, fst e = t) (zip (compute_schedule (cues r)) (cues r))) ∧
    rs_notes rs
    = note_of <$> filter (λ e, notes (snd e) ≠ "") (rs_timeline rs).
Proof.
  intros Hlast. exists (room_stats_of r).
  rewrite compute_all_stats_full_eq. cbn [st_room_stats].
  rewrite room_stats_fold_lookup, Hlast.
  unfold room_stats_of. cbn [rs_timeline rs_notes].
  rewrite note_entries_of_timeline, timeline_entry_zip.
  split_and!.
  - done.
  - apply sort_on_perm.
  - apply sort_on_sorted.
  - intros t. apply sort_on_stable.
  - rewrite (sort_on_fmap fst) by done. by rewrite sort_on_filter.
Qed.

Lemma room_timeline_is_sorted_schedule_witness :
  ∃ rs, st_room_stats (compute_all_stats_full
                         [mkRoomPlan "Mecca" [cue_at "a" 5 5; cue_at "b" 0 3]])
        !! "Mecca" = Some rs ∧
    rs_timeline rs
    ≡ₚ zip (compute_schedule [cue_at "a" 5 5; cue_at "b" 0 3])
         [cue_at "a" 5 5; cue_at "b" 0 3] ∧
    StronglySorted (λ a b, fst a ≤ fst b) (rs_timeline rs) ∧
    (∀ t, filter (λ e, fst e = t) (rs_timeline rs)
          = filter (λ e, fst e = t)
              (zip (compute_schedule [cue_at "a" 5 5; cue_at "b" 0 3])
                 [cue_at "a" 5 5; cue_at "b" 0 3])) ∧
    rs_notes rs
    = note_of <$> filter (λ e, notes (snd e) ≠ "") (rs_timeline rs).
Proof.
  apply (room_timeline_is_sorted_schedule
           [mkRoomPlan "Mecca" [cue_at "a" 5 5; cue_at "b" 0 3]] "Mecca"
           (mkRoomPlan "Mecca" [cue_at "a" 5 5; cue_at "b" 0 3])).
  vm_compute. reflexivity.
Defined.

(** ** Word wrapping *)

Lemma join_words_cons x ws :
  join_words (x :: ws)
  = match ws with [] => x | _ => x +:+ " " +:+ join_words ws end.
Proof. by destruct ws. Qed.

Lemma join_words_snoc_length cur w :
  String.length (join_words (cur ++ [w]))
  = (String.length (join_words cur) + String.length w
     + match cur with [] => 0 | _ => 1 end)%nat.
Proof.
  induction cur as [|x cur IH]; [unfold join_words; simpl; lia|].
  rewrite <- app_comm_cons, !join_words_cons.
  destruct cur as [|y cur].
  - unfold join_words. simpl. rewrite !string_length_app. simpl. lia.
  - rewrite <- app_comm_cons in *. rewrite !string_length_app, IH.
    rewrite ?string_length_app. simpl. lia.
Qed.

(** The loop from any state whose [current_len] is the length of the
    joined [current]. *)
Lemma wrap_fold indent width words : ∀ out cur,
  fits width cur →
  ∃ groups cur',
    fold_left (wrap_step indent width) words
      (out, cur, Z.of_nat (String.length (join_words cur)))
    = (out ++ ((λ g, indent +:+ join_words g) <$> groups), cur',
       Z.of_nat (String.length (join_words cur'))) ∧
    concat groups ++ cur' = cur ++ words ∧
    Forall (fits width) groups ∧ fits width cur' ∧
    (cur ≠ [] → Forall (λ g, g ≠ []) groups) ∧
    Forall (λ g, g ≠ []) (tail groups) ∧
    (cur ≠ [] ∨ words ≠ [] → cur' ≠ []).
Proof.
  induction words as [|w words IH]; intros out cur Hfit.
  - exists [], cur. simpl. rewrite !app_nil_r.
    split_and!; try done. intros [?|?]; done.
  - cbn [fold_left wrap_step].
    destruct (Z.gtb_spec
                (Z.of_nat (String.length (join_words cur))
                 + (Z.of_nat (String.length w)
                    + match cur with [] => 0 | _ => 1 end)) width)
      as [Hover|Hroom].
    + destruct (IH (out ++ [indent +:+ join_words cur]) [w])
        as (groups & cur' & Heq & Hcat & Hfits & Hfit' & Hne & Htl & Hcur').
      { right. simpl. lia. }
      exists (cur :: groups), cur'. split_and!.
      * change (join_words [w]) with w in Heq. rewrite Heq.
        by rewrite fmap_cons, <- app_assoc.
      * simpl. rewrite <- app_assoc, Hcat. done.
      * by constructor.
      * done.
      * intros Hc. constructor; [done|]. by apply Hne.
      * simpl. by apply Hne.
      * intros _. apply Hcur'. by left.
    + assert (Z.of_nat (String.length (join_words cur))
              + (Z.of_nat (String.length w)
                 + match cur with [] => 0 | _ => 1 end)
              = Z.of_nat (String.length (join_words (cur ++ [w])))) as Hlen.
      { rewrite join_words_snoc_length. destruct cur; lia. }
      rewrite Hlen.
      destruct (IH out (cur ++ [w]))
        as (groups & cur' & Heq & Hcat & Hfits & Hfit' & Hne & Htl & Hcur').
      { left. lia. }
      exists groups, cur'. split_and!; try done.
      * by rewrite Hcat, <- app_assoc.
      * intros _. apply Hne. by destruct cur.
      * intros _. apply Hcur'. left. by destruct cur.
Qed.

(** X30.  The word loop of [_wrap_text] only regroups the words: the lines
    it adds are the indentation followed by consecutive groups of the words
    joined by one space, the groups in order make up exactly the words,
    every group of two or more words fits the width, and no group but the
    first is empty. *)
Theorem wrap_words_regroups indent width out_lines words :
  ∃ groups,
    wrap_words indent width out_lines words
    = out_lines ++ ((λ g, indent +:+ join_words g) <$> groups) ∧
    concat groups = words ∧
    Forall (fits width) groups ∧
    Forall (λ g, g ≠ []) (tail groups).
Proof.
  unfold wrap_words.
  destruct (wrap_fold indent width words out_lines [])
    as (groups & cur' & Heq & Hcat & Hfits & Hfit' & _ & Htl & Hcur').
  { right. simpl. lia. }
  change (Z.of_nat (String.length (join_words []))) with 0 in Heq.
  rewrite Heq. destruct cur' as [|x cur'].
  - exists groups. rewrite app_nil_r in Hcat. done.
  - exists (groups ++ [x :: cur']). split_and!.
    + by rewrite fmap_app, app_assoc.
    + rewrite concat_app. simpl. by rewrite app_nil_r.
    + apply Forall_app. split; [done|]. by constructor.
    + destruct groups as [|g groups]; [constructor|].
      simpl in *. apply Forall_app. split; [done|]. by constructor.
Qed.

(** A first word longer than the width leaves a line holding only the
    indentation in front of it. *)
Example wrap_words_long_first_word :
  wrap_words "  " 5 [] ["abcdefgh"; "ij"; "kl"; "m"]
  = ["  "; "  abcdefgh"; "  ij kl"; "  m"].
Proof. reflexivity. Qed.
